(** * trading-ledger: the C++ event processor, embedded and verified

    The development follows the layout of [src/cpp]:
    - [EventParser]  : little-endian readers, CRC32, [parseFileHeader], [parse]
                       (EventParser.cpp) and the test serializer
                       [createTestEvent] (event_parser_test.cpp);
    - [EventLogReader] : the memory-mapped reader (EventLogReader.cpp);
    - [RingBuffer]   : the SPSC ring (RingBuffer.h), run sequentially;
    - [LatencyHistogram] : the per-value tally (LatencyHistogram.cpp);
    - [Processor]    : the driver's thread bodies and [main]
                       (event_processor_main.cpp).

    Machine integers are modelled as [Z] with the wrap-around written out:
    [size_t] and [uint64_t] are 64-bit, [uint32_t] is 32-bit.  Bytes are
    [Byte.byte]; a [const uint8_t*] is a [list byte] and pointer arithmetic
    [data + n] is [drop n data]. *)

From Stdlib Require Import ZArith Zbitwise List Sorted Lia SpecFloat.
From Stdlib Require Import Strings.Byte.
From stdpp Require Import base list strings.

Local Open Scope Z_scope.

(** ** Machine integers *)

(** Wrap-around of unsigned arithmetic. *)
Definition wrap64 (z : Z) : Z := z mod 2 ^ 64.
Definition wrap32 (z : Z) : Z := z mod 2 ^ 32.

(** [static_cast<uintN_t>(b)] of a byte, and [static_cast<uint8_t>(z)]. *)
Definition u8 (b : byte) : Z := Z.of_N (Byte.to_N b).

Definition to_u8 (z : Z) : byte :=
  match Byte.of_N (Z.to_N (z mod 256)) with
  | Some b => b
  | None => x00
  end.

(** [data[i]].  A read past the end of the buffer is undefined in C++.  The
    readers below are total all the same: past the end [byte_at] yields [x00]
    and [take]/[drop] yield what is there.  What such a value is stands for
    nothing in the code; [EventParser.parse_in_bounds] says when a call of
    [parse] makes no such read. *)
Definition byte_at (data : list byte) (i : nat) : byte := nth i data x00.

(** ** Exceptions and results *)

(** The what() strings of [ParseException] are built with an [ostringstream];
    the numbers they print are kept as fields. *)
Inductive ParseError : Type :=
  | InsufficientHeaderData        (* "Insufficient data for file header" *)
  | InvalidFileHeader (magic version : Z)
                                  (* "Invalid file header: magic=0x.., version=.." *)
  | InsufficientRecordData        (* "Insufficient data for event record" *)
  | InsufficientData (expected got : Z).
                                  (* "Insufficient data: expected .. bytes, got .." *)

Inductive Exception : Type :=
  | ParseException (e : ParseError)
  | CorruptedEventException (calculated stored : Z)
  | runtime_error (msg : string).

Inductive Result (A : Type) : Type :=
  | Ok (a : A)
  | Throw (e : Exception).
Arguments Ok {A} a.
Arguments Throw {A} e.

(** The error monad of a function that may throw; [x ← m; k] sequences. *)
#[global] Instance Result_ret : MRet Result := fun A a => Ok a.
#[global] Instance Result_bind : MBind Result := fun A B k r =>
  match r with
  | Ok a => k a
  | Throw e => Throw e
  end.

(** [throw_if c e] is [if (c) throw e;]. *)
Definition throw_if (c : bool) (e : Exception) : Result unit :=
  if c then Throw e else Ok tt.

(** ** Event.h *)

Definition EventType : Type := byte.
Definition TRADE_CREATED : EventType := x01.
Definition LEDGER_ENTRIES_GENERATED : EventType := x02.
Definition POSITION_UPDATED : EventType := x03.

Record Event : Type := mkEvent {
  sequence_num : Z;
  timestamp_ns : Z;
  event_type : EventType;
  payload : list byte;
  crc32 : Z
}.

Definition totalSize (e : Event) : Z := wrap64 (28 + Z.of_nat (length (payload e))).

Record FileHeader : Type := mkFileHeader {
  magic : Z;
  version : Z;
  reserved : Z
}.

Definition EXPECTED_MAGIC : Z := 0x54524144.
Definition EXPECTED_VERSION : Z := 1.
Definition FileHeader_SIZE : Z := 16.

Definition isValid (h : FileHeader) : bool :=
  (magic h =? EXPECTED_MAGIC) && (version h =? EXPECTED_VERSION).

(** ** EventParser.cpp *)

Module EventParser.

Definition readUint16LE (data : list byte) : Z :=
  Z.lor (u8 (byte_at data 0)) (Z.shiftl (u8 (byte_at data 1)) 8).

Definition readUint32LE (data : list byte) : Z :=
  Z.lor (Z.lor (Z.lor
    (u8 (byte_at data 0))
    (Z.shiftl (u8 (byte_at data 1)) 8))
    (Z.shiftl (u8 (byte_at data 2)) 16))
    (Z.shiftl (u8 (byte_at data 3)) 24).

Definition readUint64LE (data : list byte) : Z :=
  Z.lor (Z.lor (Z.lor (Z.lor (Z.lor (Z.lor (Z.lor
    (u8 (byte_at data 0))
    (Z.shiftl (u8 (byte_at data 1)) 8))
    (Z.shiftl (u8 (byte_at data 2)) 16))
    (Z.shiftl (u8 (byte_at data 3)) 24))
    (Z.shiftl (u8 (byte_at data 4)) 32))
    (Z.shiftl (u8 (byte_at data 5)) 40))
    (Z.shiftl (u8 (byte_at data 6)) 48))
    (Z.shiftl (u8 (byte_at data 7)) 56).

(** Modelled from the spec: zlib's [crc32] is a library function, not part of
    the repository.  The spec fixes it as the ISO-HDLC / zlib CRC: reflected
    polynomial [0xEDB88320], initial value [0xFFFFFFFF], final xor
    [0xFFFFFFFF]; [crc32(0, Z_NULL, 0)] is the initial running value [0]. *)
Definition crc32_bit (c : Z) : Z :=
  if Z.testbit c 0 then Z.lxor (Z.shiftr c 1) 0xEDB88320 else Z.shiftr c 1.

Definition crc32_byte (c : Z) (b : byte) : Z :=
  Nat.iter 8 crc32_bit (Z.lxor c (u8 b)).

Definition zlib_crc32 (crc : Z) (buf : option (list byte)) : Z :=
  match buf with
  | None => 0
  | Some bs => Z.lxor (fold_left crc32_byte bs (Z.lxor crc 0xFFFFFFFF)) 0xFFFFFFFF
  end.

(** [crc32(crc, data, length)]: zlib declares the length as [uInt], 32 bits
    wide, so the [size_t] passed here is reduced modulo 2^32 at the call and
    only that many bytes are hashed. *)
Definition calculateCRC32 (data : list byte) (length : Z) : Z :=
  let crc := zlib_crc32 0 None in
  let crc := zlib_crc32 crc (Some (take (Z.to_nat (wrap32 length)) data)) in
  wrap32 crc.

Definition parseFileHeader (data : list byte) (length : Z) : Result FileHeader :=
  _ ← throw_if (length <? FileHeader_SIZE) (ParseException InsufficientHeaderData);
  let header := {| magic := readUint32LE data;
                   version := readUint32LE (drop 4 data);
                   reserved := readUint64LE (drop 8 data) |} in
  _ ← throw_if (negb (isValid header))
         (ParseException (InvalidFileHeader (magic header) (version header)));
  Ok header.

Definition parse (data : list byte) (length : Z) : Result Event :=
  _ ← throw_if (length <? 28) (ParseException InsufficientRecordData);
  let sequence_num := readUint64LE data in
  let timestamp_ns := readUint64LE (drop 8 data) in
  let event_type := byte_at data 16 in
  let payload_length := readUint32LE (drop 20 data) in
  (* [28 + payload_length] is [int + uint32_t]: computed in 32 bits, then
     widened to [size_t] *)
  let expected_total := wrap32 (28 + payload_length) in
  _ ← throw_if (length <? expected_total)
         (ParseException (InsufficientData expected_total length));
  let payload := take (Z.to_nat payload_length) (drop 24 data) in
  (* [data + 24 + payload_length] is pointer arithmetic and does not wrap;
     the length argument [24 + payload_length] is again 32-bit *)
  let stored_crc := readUint32LE (drop (Z.to_nat (24 + payload_length)) data) in
  let calculated_crc := calculateCRC32 data (wrap32 (24 + payload_length)) in
  _ ← throw_if (negb (calculated_crc =? stored_crc))
         (CorruptedEventException calculated_crc stored_crc);
  Ok {| sequence_num := sequence_num;
        timestamp_ns := timestamp_ns;
        event_type := event_type;
        payload := payload;
        crc32 := stored_crc |}.

(** How far a call of [parse] reads: the number of bytes at [data] it
    touches.  Nothing is read when the first guard throws; the 24 header
    bytes are read before the second guard; past it the call copies
    [payload_length] bytes from [data + 24] and reads the stored CRC at
    [data + 24 + payload_length], pointer arithmetic that does not wrap, and
    hashes a prefix of these. *)
Definition parse_reads (data : list byte) (length : Z) : Z :=
  if length <? 28 then 0
  else
    let payload_length := readUint32LE (drop 20 data) in
    let expected_total := wrap32 (28 + payload_length) in
    if length <? expected_total then 24
    else 24 + payload_length + 4.

(** The call stays inside a buffer that holds the bytes of [data] and no
    more.  Where it does not, the behaviour is undefined and what [parse]
    gives stands for nothing. *)
Definition parse_in_bounds (data : list byte) (length : Z) : bool :=
  parse_reads data length <=? Z.of_nat (List.length data).

(** *** event_parser_test.cpp: [createTestEvent], the record serializer *)

(** [for (int i = 0; i < n; ++i) data.push_back((x >> (i * 8)) & 0xFF)] *)
Definition push_le (n : nat) (x : Z) (data : list byte) : list byte :=
  data ++ map (fun i : nat => to_u8 (Z.land (Z.shiftr x (Z.of_nat i * 8)) 0xFF)) (seq 0 n).

Definition createTestEvent (seq ts : Z) (type : EventType) (payload : list byte)
  : list byte :=
  let data := [] in
  let data := push_le 8 seq data in
  let data := push_le 8 ts data in
  let data := data ++ [type] in
  let data := data ++ [x00] in
  let data := data ++ [x00] in
  let data := data ++ [x00] in
  let payload_len := wrap32 (Z.of_nat (length payload)) in
  let data := push_le 4 payload_len data in
  let data := data ++ payload in
  let crc := calculateCRC32 data (Z.of_nat (length data)) in
  push_le 4 crc data.

Definition serialize (e : Event) : list byte :=
  createTestEvent (sequence_num e) (timestamp_ns e) (event_type e) (payload e).

(** The digits of [x] in base 256, as [push_le] writes them. *)
Definition le_bytes (n : nat) (x : Z) : list byte :=
  map (fun i : nat => to_u8 (Z.land (Z.shiftr x (Z.of_nat i * 8)) 0xFF)) (seq 0 n).

(** The 24 bytes [createTestEvent] writes before the payload. *)
Definition header_bytes (seq ts : Z) (type : EventType) (payload_len : Z) : list byte :=
  le_bytes 8 seq ++ le_bytes 8 ts ++ [type; x00; x00; x00] ++ le_bytes 4 payload_len.

(** Modelled from the spec: the writer of the log is a separate process and
    is not under [src/].  The spec gives its record as the little-endian
    layout [sequence_num], [timestamp_ns], the [event_type] byte, 3 zero
    reserved bytes, [payload_length], the payload, then the CRC32 over bytes
    [0, 24 + payload_length) of the record. *)
Definition serialize_record (e : Event) : list byte :=
  let covered :=
    header_bytes (sequence_num e) (timestamp_ns e) (event_type e)
      (Z.of_nat (List.length (payload e))) ++ payload e in
  covered ++ le_bytes 4 (zlib_crc32 0 (Some covered)).

End EventParser.

Import EventParser.

(** ** EventLogReader.cpp *)

Module EventLogReader.

(** [uint8_t* mapped_data_]: null, [MAP_FAILED], or a live mapping with the
    bytes it shows. *)
Inductive Mapping : Type :=
  | nullptr
  | MAP_FAILED
  | mapped (bytes : list byte).

Definition mapping_bytes (m : Mapping) : list byte :=
  match m with
  | mapped bytes => bytes
  | _ => []
  end.

Record Reader : Type := mkReader {
  log_path_ : string;
  fd_ : Z;
  mapped_data_ : Mapping;
  file_size_ : Z;
  offset_ : Z;
  file_header_ : FileHeader;
  is_open_ : bool
}.

(** What the operating system answers to the calls of one member function:
    [::open] (a descriptor or failure, with the text of [strerror(errno)]),
    [fstat] ([st_size] or failure), [munmap] (success or not) and [mmap] (the
    file's bytes, of which the requested length is mapped, or [MAP_FAILED]). *)
Record Env : Type := mkEnv {
  sys_open : option Z;
  sys_strerror : string;
  sys_fstat : option Z;
  sys_munmap_ok : bool;
  sys_mmap_ok : bool;
  sys_file : list byte
}.

Definition mmap (env : Env) (len : Z) : Mapping :=
  if sys_mmap_ok env then mapped (take (Z.to_nat len) (sys_file env)) else MAP_FAILED.

(** The constructor; [file_header_] is left uninitialised by the source. *)
Definition new (log_path : string) : Reader :=
  {| log_path_ := log_path; fd_ := -1; mapped_data_ := nullptr;
     file_size_ := 0; offset_ := 0;
     file_header_ := {| magic := 0; version := 0; reserved := 0 |};
     is_open_ := false |}.

(** A member function returns a value or throws, and leaves a reader state
    either way. *)
Definition open (env : Env) (r : Reader) : Result unit * Reader :=
  match sys_open env with
  | None =>
      (Throw (runtime_error
                (String.append "Failed to open file: "
                   (String.append (log_path_ r)
                      (String.append " (error: "
                         (String.append (sys_strerror env) ")"))))),
       mkReader (log_path_ r) (-1) (mapped_data_ r) (file_size_ r) (offset_ r)
                (file_header_ r) (is_open_ r))
  | Some fd =>
      let r := mkReader (log_path_ r) fd (mapped_data_ r) (file_size_ r) (offset_ r)
                        (file_header_ r) (is_open_ r) in
      match sys_fstat env with
      | None =>
          (Throw (runtime_error (String.append "Failed to stat file: " (log_path_ r))), r)
      | Some st_size =>
          let r := mkReader (log_path_ r) fd (mapped_data_ r) st_size (offset_ r)
                            (file_header_ r) (is_open_ r) in
          if file_size_ r <? FileHeader_SIZE
          then (Throw (runtime_error (String.append "File too small: " (log_path_ r))), r)
          else
            let r := mkReader (log_path_ r) fd (mmap env (file_size_ r)) (file_size_ r)
                              (offset_ r) (file_header_ r) (is_open_ r) in
            match mapped_data_ r with
            | MAP_FAILED =>
                (Throw (runtime_error (String.append "Failed to mmap file: " (log_path_ r))),
                 r)
            | _ =>
                match parseFileHeader (mapping_bytes (mapped_data_ r)) FileHeader_SIZE with
                | Throw e => (Throw e, r)
                | Ok header =>
                    (Ok tt,
                     mkReader (log_path_ r) fd (mapped_data_ r) (file_size_ r)
                              FileHeader_SIZE header true)
                end
            end
      end
  end.

(** [readNext(Event& event)]: the result, the reader afterwards and the
    caller's [event] afterwards. *)
Definition readNext (r : Reader) (event : Event) : Result bool * Reader * Event :=
  if negb (is_open_ r) then (Throw (runtime_error "Reader not open"), r, event)
  else if offset_ r >=? file_size_ r then (Ok false, r, event)
  else if wrap64 (offset_ r + 24) >? file_size_ r then (Ok false, r, event)
  else
    let header_ptr := drop (Z.to_nat (offset_ r)) (mapping_bytes (mapped_data_ r)) in
    let payload_length := readUint32LE (drop 20 header_ptr) in
    (* [28 + payload_length] is 32-bit arithmetic, widened to [size_t] *)
    let total_size := wrap32 (28 + payload_length) in
    if wrap64 (offset_ r + total_size) >? file_size_ r then (Ok false, r, event)
    else
      match parse (drop (Z.to_nat (offset_ r)) (mapping_bytes (mapped_data_ r))) total_size with
      | Throw e => (Throw e, r, event)
      | Ok ev =>
          (Ok true,
           mkReader (log_path_ r) (fd_ r) (mapped_data_ r) (file_size_ r)
                    (wrap64 (offset_ r + total_size)) (file_header_ r) (is_open_ r),
           ev)
      end.

Definition remapIfGrown (env : Env) (r : Reader) : Result bool * Reader :=
  if negb (is_open_ r) then (Ok false, r)
  else
    match sys_fstat env with
    | None => (Ok false, r)
    | Some new_size =>
        if new_size <=? file_size_ r then (Ok false, r)
        else if negb (sys_munmap_ok env)
        then (Throw (runtime_error "Failed to unmap file"), r)
        else
          let r := mkReader (log_path_ r) (fd_ r) (mmap env new_size) new_size
                            (offset_ r) (file_header_ r) (is_open_ r) in
          match mapped_data_ r with
          | MAP_FAILED => (Throw (runtime_error "Failed to remap file"), r)
          | _ => (Ok true, r)
          end
    end.

(** What the member functions keep true of an open reader: [file_size_] is
    the length of the mapped range, and sizes are [size_t] values that came
    from a (signed 64-bit) [st_size]. *)
Definition well_formed (r : Reader) : Prop :=
  Z.of_nat (length (mapping_bytes (mapped_data_ r))) = file_size_ r
  /\ 0 <= offset_ r
  /\ file_size_ r < 2 ^ 63.

Definition offset (r : Reader) : Z := offset_ r.
Definition fileSize (r : Reader) : Z := file_size_ r.
Definition eof (r : Reader) : bool := offset_ r >=? file_size_ r.

End EventLogReader.

(** ** RingBuffer.h *)

(** The two [static_assert]s of the class template, on a [size_t] template
    argument; [SIZE - 1] wraps when [SIZE] is 0. *)
Definition static_asserts (SIZE : Z) : bool :=
  (Z.land SIZE (wrap64 (SIZE - 1)) =? 0) && (SIZE >? 0).

Module RingBuffer.
Section Ring.
(** [T_default] is the value-initialised [T] of [buffer_{}]; [moved_from x]
    is what [std::move] leaves in a slot that held [x]. *)
Context {T : Type} (T_default : T) (moved_from : T -> T) (SIZE : Z).

Record t : Type := mk {
  head_ : Z;
  tail_ : Z;
  buffer_ : list T
}.

Definition new : t :=
  {| head_ := 0; tail_ := 0; buffer_ := replicate (Z.to_nat SIZE) T_default |}.

Definition slot (buffer : list T) (i : Z) : T :=
  nth (Z.to_nat i) buffer T_default.

(** Both overloads of [try_push] run the same steps. *)
Definition try_push (item : T) (rb : t) : bool * t :=
  let current_tail := tail_ rb in
  let next_tail := Z.land (wrap64 (current_tail + 1)) (wrap64 (SIZE - 1)) in
  if next_tail =? head_ rb then (false, rb)
  else
    let buffer := <[Z.to_nat current_tail := item]> (buffer_ rb) in
    (true, {| head_ := head_ rb; tail_ := next_tail; buffer_ := buffer |}).

(** [try_pop(T& item)]: the result, the caller's [item] afterwards, the ring
    afterwards. *)
Definition try_pop (item : T) (rb : t) : bool * T * t :=
  let current_head := head_ rb in
  if current_head =? tail_ rb then (false, item, rb)
  else
    let item := slot (buffer_ rb) current_head in
    let buffer := <[Z.to_nat current_head := moved_from item]> (buffer_ rb) in
    (true, item,
     {| head_ := Z.land (wrap64 (current_head + 1)) (wrap64 (SIZE - 1));
        tail_ := tail_ rb; buffer_ := buffer |}).

Definition empty (rb : t) : bool := head_ rb =? tail_ rb.

Definition size (rb : t) : Z :=
  let h := head_ rb in
  let t := tail_ rb in
  if t >=? h then wrap64 (t - h) else wrap64 (wrap64 (SIZE - h) + t).

Definition capacity : Z := wrap64 (SIZE - 1).

(** What every reachable ring satisfies: both indices are slots of the
    array. *)
Definition ring_inv (rb : t) : Prop :=
  0 <= head_ rb < SIZE /\ 0 <= tail_ rb < SIZE
  /\ length (buffer_ rb) = Z.to_nat SIZE.

(** A sequential run of producer and consumer calls and what each returns. *)
Inductive Call : Type :=
  | Push (item : T)
  | Pop.

Inductive Ret : Type :=
  | Pushed (ok : bool)
  | Popped (item : option T).

Definition call (c : Call) (rb : t) : Ret * t :=
  match c with
  | Push item => let '(ok, rb') := try_push item rb in (Pushed ok, rb')
  | Pop =>
      let '(ok, item, rb') := try_pop T_default rb in
      (Popped (if ok then Some item else None), rb')
  end.

Fixpoint run (cs : list Call) (rb : t) : list Ret * t :=
  match cs with
  | [] => ([], rb)
  | c :: cs =>
      let '(r, rb') := call c rb in
      let '(rs, rb'') := run cs rb' in
      (r :: rs, rb'')
  end.

(** *** The specification: a FIFO queue of bounded capacity *)

Definition fifo_push (cap : Z) (item : T) (q : list T) : bool * list T :=
  if Z.of_nat (length q) =? cap then (false, q) else (true, q ++ [item]).

Definition fifo_pop (q : list T) : option T * list T :=
  match q with
  | [] => (None, q)
  | x :: q' => (Some x, q')
  end.

Definition fifo_call (cap : Z) (c : Call) (q : list T) : Ret * list T :=
  match c with
  | Push item => let '(ok, q') := fifo_push cap item q in (Pushed ok, q')
  | Pop => let '(r, q') := fifo_pop q in (Popped r, q')
  end.

Fixpoint fifo_run (cap : Z) (cs : list Call) (q : list T) : list Ret * list T :=
  match cs with
  | [] => ([], q)
  | c :: cs =>
      let '(r, q') := fifo_call cap c q in
      let '(rs, q'') := fifo_run cap cs q' in
      (r :: rs, q'')
  end.

(** The items buffered in a ring, oldest first: the slots from [head_] up
    to [tail_], wrapping at [SIZE]. *)
Definition buffered (rb : t) : list T :=
  map (fun i : nat => slot (buffer_ rb) ((head_ rb + Z.of_nat i) mod SIZE))
      (seq 0 (Z.to_nat ((tail_ rb - head_ rb) mod SIZE))).

End Ring.
End RingBuffer.

(** ** LatencyHistogram.cpp *)

Module LatencyHistogram.

(** [std::map<int64_t, size_t> samples_] is kept as the list of its entries in
    key order, which is the order the range-for of [percentile] visits. *)
Record t : Type := mk {
  samples_ : list (Z * Z);
  total_count_ : Z;
  sum_ : Z
}.

Definition new : t := {| samples_ := []; total_count_ := 0; sum_ := 0 |}.

(** Two's-complement wrap of [int64_t]. *)
Definition wrap_i64 (z : Z) : Z := (z + 2 ^ 63) mod 2 ^ 64 - 2 ^ 63.

(** [samples_[latency_ns]++]: a missing key is inserted with count 0 first. *)
Fixpoint incr (latency_ns : Z) (m : list (Z * Z)) : list (Z * Z) :=
  match m with
  | [] => [(latency_ns, 1)]
  | (k, c) :: m' =>
      if latency_ns <? k then (latency_ns, 1) :: m
      else if latency_ns =? k then (k, wrap64 (c + 1)) :: m'
      else (k, c) :: incr latency_ns m'
  end.

Definition record (latency_ns : Z) (h : t) : t :=
  {| samples_ := incr latency_ns (samples_ h);
     total_count_ := wrap64 (total_count_ h + 1);
     sum_ := wrap_i64 (sum_ h + latency_ns) |}.

Definition clear (h : t) : t := new.

Definition count (h : t) : Z := total_count_ h.

Definition min (h : t) : Z :=
  match samples_ h with
  | [] => 0
  | (k, _) :: _ => k
  end.

Definition max (h : t) : Z :=
  match samples_ h with
  | [] => 0
  | e :: m => fst (List.last m e)
  end.

Definition mean (h : t) : Z :=
  if total_count_ h =? 0 then 0
  else Z.quot (sum_ h) (wrap_i64 (total_count_ h)).

(** A [double] is an IEEE 754 binary64 value: 53 bits of precision, exponents
    up to 1024, as the standard library specifies it. *)
Definition double : Type := spec_float.

(** The conversion of a [size_t] to [double] and the product of two doubles,
    both rounded to nearest, ties to even. *)
Definition double_of_size_t (n : Z) : double := binary_normalize 53 1024 n 0 false.
Definition double_mul (x y : double) : double := SFmul 53 1024 x y.

(** [static_cast<size_t>(d)] truncates toward zero.  The conversion is
    undefined when the truncated value is not a [size_t] value, as for a NaN
    or an infinity: [None]. *)
Definition to_size_t (d : double) : option Z :=
  match d with
  | S754_zero _ => Some 0
  | S754_finite s m e =>
      let truncated := if 0 <=? e then Z.pos m * 2 ^ e else Z.pos m / 2 ^ (- e) in
      if truncated =? 0 then Some 0
      else if s then None
      else if truncated <? 2 ^ 64 then Some truncated
      else None
  | S754_infinity _ | S754_nan => None
  end.

(** The range-for of [percentile]: [Some latency] when it returns from inside
    the loop. *)
Fixpoint percentile_loop (m : list (Z * Z)) (cumulative target_index : Z) : option Z :=
  match m with
  | [] => None
  | (latency, count) :: m' =>
      let cumulative := wrap64 (cumulative + count) in
      if cumulative >? target_index then Some latency
      else percentile_loop m' cumulative target_index
  end.

(** [percentile(p)]; [None] when the conversion of [p * total_count_] to
    [size_t] is undefined. *)
Definition percentile (p : double) (h : t) : option Z :=
  if total_count_ h =? 0 then Some 0
  else
    match to_size_t (double_mul p (double_of_size_t (total_count_ h))) with
    | None => None
    | Some target_index =>
        let target_index :=
          if target_index >=? total_count_ h then wrap64 (total_count_ h - 1)
          else target_index in
        match percentile_loop (samples_ h) 0 target_index with
        | Some latency => Some latency
        | None => Some (max h)
        end
    end.

(** The keys of the map in iteration order, and the sum of its counts. *)
Definition keys (m : list (Z * Z)) : list Z := map fst m.

Fixpoint total (m : list (Z * Z)) : Z :=
  match m with
  | [] => 0
  | (_, count) :: m' => count + total m'
  end.

(** The entries of a [std::map] that only [record] has written: keys strictly
    ascending, every count at least 1. *)
Definition tally_ok (m : list (Z * Z)) : Prop :=
  StronglySorted Z.lt (keys m) /\ Forall (fun e => 1 <= snd e) m.

(** The histogram after recording the samples of [ls] in order. *)
Definition recorded (ls : list Z) : t :=
  fold_left (fun h latency_ns => record latency_ns h) ls new.

End LatencyHistogram.

(** ** event_processor_main.cpp *)

Module Processor.

(** What the process shares across threads and leaves behind: the shutdown
    flag [g_running] and the lines written to [std::cerr]. *)
Record Global : Type := mkGlobal {
  g_running : bool;
  cerr : list string
}.

(** [operator<<] of an unsigned integer: its digits in base 10, or in base
    16 under [std::hex], without leading zeros.  Twenty digits hold any
    64-bit value. *)
Definition digit_char (d : Z) : Ascii.ascii :=
  match String.get (Z.to_nat d) "0123456789abcdef" with
  | Some c => c
  | None => Ascii.zero
  end.

Fixpoint show_digits (base : Z) (fuel : nat) (n : Z) (shown : string) : string :=
  match fuel with
  | O => shown
  | S fuel =>
      let shown := String (digit_char (n mod base)) shown in
      if n / base =? 0 then shown else show_digits base fuel (n / base) shown
  end.

Definition show_dec (n : Z) : string := show_digits 10 20 n "".
Definition show_hex (n : Z) : string := show_digits 16 20 n "".

(** [e.what()]: the text the exception was constructed with. *)
Definition what (e : Exception) : string :=
  match e with
  | ParseException InsufficientHeaderData => "Insufficient data for file header"
  | ParseException (InvalidFileHeader magic version) =>
      "Invalid file header: magic=0x" +:+ show_hex magic
      +:+ ", version=" +:+ show_dec version
  | ParseException InsufficientRecordData => "Insufficient data for event record"
  | ParseException (InsufficientData expected got) =>
      "Insufficient data: expected " +:+ show_dec expected
      +:+ " bytes, got " +:+ show_dec got
  | CorruptedEventException calculated stored =>
      "CRC32 mismatch: calculated=0x" +:+ show_hex calculated
      +:+ ", stored=0x" +:+ show_hex stored
  | runtime_error msg => msg
  end.

(** [producerThread] and [consumerThread] wrap their whole body in
    [try { ... } catch (const std::exception& e)]: the handler writes a line to
    [std::cerr] and clears [g_running]; the function then returns normally.
    [body] is how the [try] block ended. *)
Definition producerThread (body : Result unit) (g : Global) : Global :=
  match body with
  | Ok _ => g
  | Throw e =>
      {| g_running := false;
         cerr := cerr g ++ [String.append "Producer error: " (what e)] |}
  end.

Definition consumerThread (body : Result unit) (g : Global) : Global :=
  match body with
  | Ok _ => g
  | Throw e =>
      {| g_running := false;
         cerr := cerr g ++ [String.append "Consumer error: " (what e)] |}
  end.

(** [main], from the joins on: both workers have run to their end, the flag is
    cleared for the monitor, the totals are printed and [main] returns. *)
Definition main (producer_body consumer_body : Result unit) : Z * Global :=
  let g := {| g_running := true; cerr := [] |} in
  let g := producerThread producer_body g in
  let g := consumerThread consumer_body g in
  let g := {| g_running := false; cerr := cerr g |} in
  (0, g).

(** An unrecoverable error was recorded on a worker when its handler ran. *)
Definition error_recorded (g : Global) : bool :=
  match cerr g with
  | [] => false
  | _ => true
  end.

End Processor.

(** ** Concrete inputs *)

(** An event whose payload has [2^32 - 24] bytes: the four bytes that bring
    the CRC register to 0 after the 24 header bytes, then zeros. *)
Definition huge_count : nat := Z.to_nat (2 ^ 32 - 28).

Definition huge_payload : list byte :=
  [xe6; x8a; x16; x05] ++ replicate huge_count x00.

Definition huge_event : Event :=
  {| sequence_num := 1; timestamp_ns := 1000; event_type := TRADE_CREATED;
     payload := huge_payload; crc32 := 0 |}.

(** Four service latencies in nanoseconds, in the order they were recorded. *)
Definition latencies : list Z := [300; 100; 200; 100].

(** The doubles of the literals [0.0], [0.5], [0.99] and [1.0]. *)
Definition double_0 : LatencyHistogram.double := S754_zero false.
Definition double_0_5 : LatencyHistogram.double :=
  S754_finite false 4503599627370496 (-53).
Definition double_0_99 : LatencyHistogram.double :=
  S754_finite false 8917127262193582 (-53).
Definition double_1 : LatencyHistogram.double :=
  S754_finite false 4503599627370496 (-52).

(** [2^54 + 2] latencies: [2^54 + 1] times 1 ns, then once 2 ns. *)
Definition many_count : nat := Z.to_nat (2 ^ 54 + 1).
Definition many_latencies : list Z := replicate many_count 1 ++ [2].

(** Calls on a ring of [int]: fill it, overfill it, drain it, underflow it. *)
Definition ring_calls : list (@RingBuffer.Call Z) :=
  [RingBuffer.Push 1; RingBuffer.Push 2; RingBuffer.Push 3; RingBuffer.Push 4;
   RingBuffer.Pop; RingBuffer.Pop; RingBuffer.Push 5;
   RingBuffer.Pop; RingBuffer.Pop; RingBuffer.Pop].

Definition bytes_of_string (s : string) : list byte :=
  map Ascii.byte_of_ascii (String.list_ascii_of_string s).

(** The nine bytes of the JSON text of scenario S1, an object with the key
    seq and the value 1. *)
Definition payload_seq1 : list byte :=
  [x7b; x22; x73; x65; x71; x22; x3a; x31; x7d].

(** A header with the right magic and version and a reserved field of 1. *)
Definition header_reserved_one : list byte :=
  [x44; x41; x52; x54;  x01; x00; x00; x00;
   x01; x00; x00; x00;  x00; x00; x00; x00].

Module ReaderInputs.
Import EventLogReader.

(** A reader over a header-only file, opened; and answers of the operating
    system for a file that has grown to 44 bytes. *)
Definition header_only_file : list byte :=
  [x44; x41; x52; x54;  x01; x00; x00; x00;
   x00; x00; x00; x00;  x00; x00; x00; x00].

Definition env_header_only : Env :=
  {| sys_open := Some 3; sys_strerror := "Success"; sys_fstat := Some 16;
     sys_munmap_ok := true; sys_mmap_ok := true; sys_file := header_only_file |}.

Definition opened_reader : Reader :=
  snd (open env_header_only (new "event_log.bin")).

Definition env_grown_mmap_fails : Env :=
  {| sys_open := Some 3; sys_strerror := "Success"; sys_fstat := Some 44;
     sys_munmap_ok := true; sys_mmap_ok := false;
     sys_file := header_only_file ++ replicate 28 x00 |}.

(** A reader whose [open] failed: the file does not exist. *)
Definition env_no_file : Env :=
  {| sys_open := None; sys_strerror := "No such file or directory";
     sys_fstat := None; sys_munmap_ok := true; sys_mmap_ok := true; sys_file := [] |}.

Definition unopened_reader : Reader :=
  snd (open env_no_file (new "missing.bin")).

(** The file of scenario S1: the header and one record. *)
Definition one_record_file : list byte :=
  header_only_file ++ createTestEvent 1 1000 TRADE_CREATED payload_seq1.

Definition env_of_file (file : list byte) : Env :=
  {| sys_open := Some 3; sys_strerror := "Success";
     sys_fstat := Some (Z.of_nat (length file)); sys_munmap_ok := true;
     sys_mmap_ok := true; sys_file := file |}.

Definition one_record_reader : Reader :=
  snd (open (env_of_file one_record_file) (new "event_log.bin")).

(** The file of scenario S4: the last byte of S1's file xor-ed with 0xFF. *)
Definition corrupted_record_file : list byte :=
  take 52 one_record_file
  ++ [to_u8 (Z.lxor (u8 (byte_at one_record_file 52)) 0xFF)].

Definition corrupted_record_reader : Reader :=
  snd (open (env_of_file corrupted_record_file) (new "event_log.bin")).

Definition no_event : Event :=
  {| sequence_num := 0; timestamp_ns := 0; event_type := x00; payload := []; crc32 := 0 |}.

End ReaderInputs.


(** * More of the code *)

(** The event of scenario S1. *)
Definition seq1_event : Event :=
  {| sequence_num := 1; timestamp_ns := 1000; event_type := TRADE_CREATED;
     payload := payload_seq1; crc32 := 0 |}.

(** ** Callers of the reader *)

Module ReaderUse.
Import EventLogReader.

(** [while (reader.readNext(event)) { ... }], the loop of the tests and of the
    producer thread, keeping the events it sees in order.  The loop ends when
    [readNext] returns false or throws; [fuel] bounds the iterations, [None]
    is a loop still running when it is used up. *)
Fixpoint drain (fuel : nat) (r : Reader) (event : Event) (seen : list Event)
  : option (Result unit * list Event * Reader * Event) :=
  match fuel with
  | O => None
  | S fuel =>
      match readNext r event with
      | (Ok true, r', event') => drain fuel r' event' (seen ++ [event'])
      | (Ok false, r', event') => Some (Ok tt, seen, r', event')
      | (Throw e, r', event') => Some (Throw e, seen, r', event')
      end
  end.

(** The calls the producer thread makes on its reader, in some order, each
    [remapIfGrown] with what the system answers then; an exception ends the
    run, as it ends the thread. *)
Inductive ReaderCall : Type :=
  | ReadNext
  | RemapIfGrown (env : Env).

Fixpoint calls (cs : list ReaderCall) (r : Reader) (event : Event)
  : Result unit * Reader * Event :=
  match cs with
  | [] => (Ok tt, r, event)
  | ReadNext :: cs =>
      match readNext r event with
      | (Ok _, r', event') => calls cs r' event'
      | (Throw e, r', event') => (Throw e, r', event')
      end
  | RemapIfGrown env :: cs =>
      match remapIfGrown env r with
      | (Ok _, r') => calls cs r' event
      | (Throw e, r') => (Throw e, r', event)
      end
  end.

(** The system's answers agree with a file of a size an [off_t] holds. *)
Definition env_sane (env : Env) : Prop :=
  match sys_fstat env with
  | Some st_size => st_size <= Z.of_nat (length (sys_file env)) /\ st_size < 2 ^ 63
  | None => True
  end.

(** The event [parse] returns for the record of [e]: [e] with the record's
    CRC. *)
Definition parsed (e : Event) : Event :=
  {| sequence_num := sequence_num e; timestamp_ns := timestamp_ns e;
     event_type := event_type e; payload := payload e;
     crc32 := calculateCRC32 (serialize e) (24 + Z.of_nat (length (payload e))) |}.

(** The bytes of a log: a file header, then the records of [es]. *)
Definition log_bytes (header : list byte) (es : list Event) : list byte :=
  header ++ concat (map serialize es).

(** An event the format holds and this reader reads: 64-bit fields, a payload
    of fewer than [2^32 - 28] bytes. *)
Definition readable (e : Event) : Prop :=
  0 <= sequence_num e < 2 ^ 64 /\ 0 <= timestamp_ns e < 2 ^ 64
  /\ Z.of_nat (length (payload e)) < 2 ^ 32 - 28.

End ReaderUse.

Module ReaderUseInputs.
Import EventLogReader ReaderInputs ReaderUse.

(** Scenario S2 and S3 of the spec: three events, the third one appended
    later. *)
Definition seq2_event : Event :=
  {| sequence_num := 2; timestamp_ns := 2000; event_type := TRADE_CREATED;
     payload := [x7b; x22; x73; x65; x71; x22; x3a; x32; x7d]; crc32 := 0 |}.

Definition seq3_event : Event :=
  {| sequence_num := 3; timestamp_ns := 3000; event_type := POSITION_UPDATED;
     payload := []; crc32 := 0 |}.

Definition fresh_reader : Reader := new "event_log.bin".

(** A reader opened on the first two records and seven bytes of the third,
    after it has read the two. *)
Definition reader_at_partial : Reader :=
  let file := log_bytes header_only_file [seq1_event; seq2_event]
              ++ take 7 (serialize seq3_event) in
  let r := snd (open (env_of_file file) fresh_reader) in
  match drain 3 r no_event [] with
  | Some (_, _, r', _) => r'
  | None => r
  end.

(** A reader opened on a file whose only record has byte 26, in the payload,
    replaced by a zero byte. *)
Definition damaged_reader : Reader :=
  snd (open (env_of_file (header_only_file ++ <[26%nat:=x00]> (serialize seq1_event)))
         fresh_reader).

(** A file that grows to three records while the reader reads and re-maps. *)
Definition producer_calls : list ReaderCall :=
  [ReadNext; ReadNext; ReadNext;
   RemapIfGrown (env_of_file (log_bytes header_only_file
                                [seq1_event; seq2_event; seq3_event]));
   ReadNext; ReadNext].

Definition opened_two : Reader :=
  snd (open (env_of_file (log_bytes header_only_file [seq1_event; seq2_event]))
         fresh_reader).

(** What the system answers for a file of 10 bytes. *)
Definition env_short_file : Env :=
  env_of_file (replicate 10 x00).

End ReaderUseInputs.

(** ** Reading a run of the ring *)

Module RingUse.
Import RingBuffer.
Section Run.
Context {T : Type}.

(** The items the producer got into the ring: those of the [try_push] calls
    that returned true. *)
Fixpoint accepted (cs : list (@Call T)) (rets : list (@Ret T)) : list T :=
  match cs, rets with
  | Push item :: cs, Pushed true :: rets => item :: accepted cs rets
  | _ :: cs, _ :: rets => accepted cs rets
  | _, _ => []
  end.

(** The items the consumer got out: those the [try_pop] calls returned. *)
Fixpoint delivered (rets : list (@Ret T)) : list T :=
  match rets with
  | Popped (Some item) :: rets => item :: delivered rets
  | _ :: rets => delivered rets
  | [] => []
  end.

(** What every call returns on a ring that can hold nothing. *)
Definition refused (c : @Call T) : @Ret T :=
  match c with
  | Push _ => Pushed false
  | Pop => Popped None
  end.

End Run.
End RingUse.

(** ** Reading a histogram *)

Module HistogramUse.
Import LatencyHistogram.

(** The samples a tally stands for, in the order the range-for of
    [percentile] walks them: each key as often as its count. *)
Fixpoint expand (m : list (Z * Z)) : list Z :=
  match m with
  | [] => []
  | (latency, count) :: m' => replicate (Z.to_nat count) latency ++ expand m'
  end.

Definition sorted_samples (h : LatencyHistogram.t) : list Z := expand (samples_ h).

Definition sum_list (ls : list Z) : Z := fold_right Z.add 0 ls.

End HistogramUse.

(** ** DoubleEntryValidator.cpp *)

Module DoubleEntryValidator.

Record Stats : Type := mkStats {
  trades_validated : Z;
  validation_errors : Z;
  events_processed : Z
}.

(** The lines the validator writes, by the text before the number. *)
Inductive Line : Type :=
  | EmptyPayload (sequence_num : Z)
  | MissingFields (sequence_num : Z)
  | Validated (trades : Z).

(** The validator with what it has written to [std::cerr] and [std::cout],
    oldest line first. *)
Record t : Type := mk {
  stats_ : Stats;
  cerr : list Line;
  cout : list Line
}.

Definition new : t :=
  {| stats_ := {| trades_validated := 0; validation_errors := 0;
                  events_processed := 0 |};
     cerr := []; cout := [] |}.

Definition getStats (v : t) : Stats := stats_ v.

(** [std::string::compare] of the needle with the text at one position. *)
Fixpoint starts_with (needle s : list byte) : bool :=
  match needle, s with
  | [], _ => true
  | _ :: _, [] => false
  | a :: needle', b :: s' => Byte.eqb a b && starts_with needle' s'
  end.

(** The search of [std::string::find] from the position [i] on, [s] being
    the text from there; [None] is [npos]. *)
Fixpoint find_from (needle s : list byte) (i : nat) : option nat :=
  if starts_with needle s then Some i
  else match s with
       | [] => None
       | _ :: s' => find_from needle s' (S i)
       end.

(** [s.find(needle, pos)]: positions are indices into [s], so they are kept
    as [nat]; a start beyond the end finds nothing. *)
Definition find (s needle : list byte) (pos : nat) : option nat :=
  if (length s <? pos)%nat then None else find_from needle (drop pos s) pos.

(** [s.substr(pos, n)] for [pos] within [s]. *)
Definition substr (s : list byte) (pos n : nat) : list byte := take n (drop pos s).

Definition quote : list byte := [x22].
Definition quoted (name : string) : list byte :=
  quote ++ bytes_of_string name ++ quote.

(** The key of [extractTradeId]: the quoted name, a colon, an opening quote. *)
Definition trade_id_key : list byte := quoted "trade_id" ++ [x3a] ++ quote.

Definition unknown : list byte := bytes_of_string "unknown".

Definition extractTradeId (json_payload : list byte) : list byte :=
  match find json_payload trade_id_key 0 with
  | None => unknown
  | Some pos =>
      let pos := (pos + length trade_id_key)%nat in
      match find json_payload quote pos with
      | None => unknown
      | Some end_pos => substr json_payload pos (end_pos - pos)
      end
  end.

Definition found (r : option nat) : bool :=
  match r with Some _ => true | None => false end.

Definition error (line : Line) (v : t) : t :=
  let s := stats_ v in
  {| stats_ := {| trades_validated := trades_validated s;
                  validation_errors := wrap64 (validation_errors s + 1);
                  events_processed := events_processed s |};
     cerr := cerr v ++ [line];
     cout := cout v |}.

Definition validateTradeCreated (event : Event) (v : t) : t :=
  let trade_id := extractTradeId (payload event) in
  match payload event with
  | [] => error (EmptyPayload (sequence_num event)) v
  | _ :: _ =>
      let has_trade_id := found (find (payload event) (quoted "trade_id") 0) in
      let has_symbol := found (find (payload event) (quoted "symbol") 0) in
      let has_quantity := found (find (payload event) (quoted "quantity") 0) in
      if negb has_trade_id || negb has_symbol || negb has_quantity
      then error (MissingFields (sequence_num event)) v
      else
        let s := stats_ v in
        let validated := wrap64 (trades_validated s + 1) in
        {| stats_ := {| trades_validated := validated;
                        validation_errors := validation_errors s;
                        events_processed := events_processed s |};
           cerr := cerr v;
           cout := if validated mod 1000 =? 0
                   then cout v ++ [Validated validated] else cout v |}
  end.

Definition processEvent (event : Event) (v : t) : t :=
  let s := stats_ v in
  let v := {| stats_ := {| trades_validated := trades_validated s;
                           validation_errors := validation_errors s;
                           events_processed := wrap64 (events_processed s + 1) |};
              cerr := cerr v; cout := cout v |} in
  if Byte.eqb (event_type event) TRADE_CREATED then validateTradeCreated event v
  else v.

(** The status line of [printSummary]. *)
Inductive Status : Type := AllPassed | FailuresDetected.

(** [printSummary]: the three counters in the order printed, then the status. *)
Definition printSummary (v : t) : Z * Z * Z * Status :=
  let s := stats_ v in
  (events_processed s, trades_validated s, validation_errors s,
   if validation_errors s =? 0 then AllPassed else FailuresDetected).

(** The validator after the events of [es], in order. *)
Definition processed (es : list Event) : t :=
  fold_left (fun v event => processEvent event v) es new.

(** [needle] occurs somewhere in [s]. *)
Definition occurs (needle s : list byte) : Prop :=
  exists pre suf, s = pre ++ needle ++ suf.

(** A trade event whose payload names the three fields. *)
Definition names_fields (event : Event) : Prop :=
  occurs (quoted "trade_id") (payload event)
  /\ occurs (quoted "symbol") (payload event)
  /\ occurs (quoted "quantity") (payload event).

Definition is_trade (event : Event) : bool := Byte.eqb (event_type event) TRADE_CREATED.

(** The TRADE_CREATED events among [es]. *)
Definition trades (es : list Event) : list Event :=
  filter (fun e => is_trade e = true) es.

End DoubleEntryValidator.

Module ValidatorInputs.
Import DoubleEntryValidator.

(** The JSON text of a trade with the three fields. *)
Definition trade_payload : list byte :=
  [x7b] ++ trade_id_key ++ bytes_of_string "T1" ++ quote ++ [x2c]
  ++ quoted "symbol" ++ [x3a] ++ quoted "AAPL" ++ [x2c]
  ++ quoted "quantity" ++ [x3a; x35] ++ [x7d].

Definition trade_event : Event :=
  {| sequence_num := 7; timestamp_ns := 1000; event_type := TRADE_CREATED;
     payload := trade_payload; crc32 := 0 |}.

Definition ledger_event : Event :=
  {| sequence_num := 8; timestamp_ns := 1001;
     event_type := LEDGER_ENTRIES_GENERATED; payload := []; crc32 := 0 |}.

Definition events : list Event :=
  [trade_event; seq1_event; ledger_event; trade_event].

End ValidatorInputs.

(** ** EventLogTailer.cpp *)

Module EventLogTailer.

(** [getFileSize]: the answer of [stat], [None] when it fails; [st_size] is
    an [off_t] returned as a [size_t]. *)
Definition getFileSize (sys_stat : option Z) : Z :=
  match sys_stat with
  | None => 0
  | Some st_size => wrap64 st_size
  end.

(** The build without [__linux__]: polling with exponential backoff. *)
Module Polling.

Definition MIN_POLL_INTERVAL_MS : Z := 10.
Definition MAX_POLL_INTERVAL_MS : Z := 100.

Record t : Type := mk {
  last_known_size_ : Z;
  poll_interval_ms_ : Z
}.

Definition new : t :=
  {| last_known_size_ := 0; poll_interval_ms_ := MIN_POLL_INTERVAL_MS |}.

Definition init (sys_stat : option Z) (tl : t) : t :=
  {| last_known_size_ := getFileSize sys_stat;
     poll_interval_ms_ := MIN_POLL_INTERVAL_MS |}.

(** What one turn of the loop sees of the world: the answer of [stat] and
    the milliseconds the steady clock shows since [start]. *)
Record Observation : Type := mkObservation {
  sys_stat : option Z;
  elapsed : Z
}.

(** [Returned b] is [return b]; [Waiting] is the loop still turning when the
    observations are used up. *)
Inductive Outcome : Type :=
  | Returned (modified : bool)
  | Waiting.

(** [waitForModification]: the outcome, the tailer, and the durations passed
    to [sleep_for], first sleep first. *)
Fixpoint waitForModification (timeout_ms : Z) (world : list Observation) (tl : t)
  : Outcome * t * list Z :=
  match world with
  | [] => (Waiting, tl, [])
  | o :: world' =>
      let current_size := getFileSize (sys_stat o) in
      if current_size >? last_known_size_ tl then
        (Returned true,
         {| last_known_size_ := current_size;
            poll_interval_ms_ := MIN_POLL_INTERVAL_MS |}, [])
      else if (timeout_ms >? 0) && (elapsed o >=? timeout_ms) then
        (Returned false, tl, [])
      else
        let slept := poll_interval_ms_ tl in
        let tl := {| last_known_size_ := last_known_size_ tl;
                     poll_interval_ms_ :=
                       Z.min (poll_interval_ms_ tl * 2) MAX_POLL_INTERVAL_MS |} in
        let '(outcome, tl', sleeps) := waitForModification timeout_ms world' tl in
        (outcome, tl', slept :: sleeps)
  end.

(** A turn of the loop that neither sees growth nor runs out of time. *)
Definition quiet (timeout_ms : Z) (tl : t) (o : Observation) : Prop :=
  getFileSize (sys_stat o) <= last_known_size_ tl
  /\ (timeout_ms <= 0 \/ elapsed o < timeout_ms).

End Polling.

(** The build with [__linux__]: inotify and [select]. *)
Module Inotify.

Record t : Type := mk {
  inotify_fd_ : Z;
  watch_fd_ : Z
}.

Definition new : t := {| inotify_fd_ := -1; watch_fd_ := -1 |}.

(** The system calls a tailer makes, in order. *)
Inductive Syscall : Type :=
  | inotify_rm_watch (fd wd : Z)
  | close (fd : Z).

(** [init], given the answers of [inotify_init1] and [inotify_add_watch]. *)
Definition init (log_path : string) (sys_inotify_init1 sys_inotify_add_watch : Z)
    (tl : t) : Result unit * t * list Syscall :=
  let tl := {| inotify_fd_ := sys_inotify_init1; watch_fd_ := watch_fd_ tl |} in
  if inotify_fd_ tl <? 0 then
    (Throw (runtime_error "Failed to initialize inotify"), tl, [])
  else
    let tl := {| inotify_fd_ := inotify_fd_ tl; watch_fd_ := sys_inotify_add_watch |} in
    if watch_fd_ tl <? 0 then
      (Throw (runtime_error ("Failed to add inotify watch for: " +:+ log_path)),
       tl, [close (inotify_fd_ tl)])
    else (Ok tt, tl, []).

(** The destructor. *)
Definition destroy (tl : t) : list Syscall :=
  (if watch_fd_ tl >=? 0 then [inotify_rm_watch (inotify_fd_ tl) (watch_fd_ tl)] else [])
  ++ (if inotify_fd_ tl >=? 0 then [close (inotify_fd_ tl)] else []).

Record timeval : Type := mkTimeval {
  tv_sec : Z;
  tv_usec : Z
}.

Definition EAGAIN : Z := 11.

(** The [timeout_ptr] handed to [select]; [None] is [nullptr]. *)
Definition timeout_ptr (timeout_ms : Z) : option timeval :=
  if timeout_ms >? 0
  then Some {| tv_sec := Z.quot timeout_ms 1000;
               tv_usec := Z.rem timeout_ms 1000 * 1000 |}
  else None.

(** [waitForModification], given what [select] returns for a timeout, and
    for the [read] that follows, its return value and [errno]. *)
Definition waitForModification (timeout_ms : Z)
    (sys_select : option timeval -> Z) (sys_read sys_errno : Z) : Result bool :=
  let ret := sys_select (timeout_ptr timeout_ms) in
  _ ← throw_if (ret <? 0) (runtime_error "select() failed on inotify fd");
  if ret =? 0 then Ok false
  else
    let len := sys_read in
    _ ← throw_if ((len <? 0) && negb (sys_errno =? EAGAIN))
          (runtime_error "Failed to read inotify events");
    Ok true.

End Inotify.

End EventLogTailer.

(** ** FileReader.cpp *)

Module FileReader.

(** [std::ifstream] as far as the reader uses it: whether a file is open, the
    bytes of that file, the read position, the two state bits the reader
    tests, and the count of the last [read].  The file is taken as it is when
    opened. *)
Record ifstream : Type := mkIfstream {
  is_open : bool;
  bytes : list byte;
  tellg : nat;
  eofbit : bool;
  failbit : bool;
  gcount : Z
}.

Definition closed : ifstream :=
  {| is_open := false; bytes := []; tellg := 0; eofbit := false; failbit := false;
     gcount := 0 |}.

(** [file_.open(path, std::ios::binary)], given the file's bytes or [None]
    when it cannot be opened; opening a stream that is open already fails. *)
Definition ifstream_open (sys_file : option (list byte)) (f : ifstream) : ifstream :=
  match sys_file with
  | Some file =>
      if is_open f
      then mkIfstream (is_open f) (bytes f) (tellg f) (eofbit f) true (gcount f)
      else mkIfstream true file 0 false false (gcount f)
  | None => mkIfstream (is_open f) (bytes f) (tellg f) (eofbit f) true (gcount f)
  end.

(** [file_.read(buf, n)]: nothing is read from a stream that is not good; a
    read that meets the end of the file sets [eofbit] and [failbit]. *)
Definition read (n : Z) (f : ifstream) : list byte * ifstream :=
  if eofbit f || failbit f
  then ([], mkIfstream (is_open f) (bytes f) (tellg f) (eofbit f) true 0)
  else
    let got := take (Z.to_nat n) (drop (tellg f) (bytes f)) in
    let short := Z.of_nat (length got) <? n in
    (got, mkIfstream (is_open f) (bytes f) (tellg f + length got) short short
            (Z.of_nat (length got))).

Record t : Type := mk {
  file_path_ : string;
  file_ : ifstream;
  offset_ : Z;
  file_header_ : FileHeader
}.

(** The constructor; [file_header_] is left uninitialised by the source. *)
Definition new (file_path : string) : t :=
  {| file_path_ := file_path; file_ := closed; offset_ := 0;
     file_header_ := {| magic := 0; version := 0; reserved := 0 |} |}.

(** What a member function ends in: a value, an exception ([ParseException]
    with one of the reader's own texts, or whatever the parser throws), or a
    write past the end of [full_record], which is undefined. *)
Inductive Thrown : Type :=
  | ParseException_what (what : string)
  | thrown (e : Exception).

Inductive Outcome (A : Type) : Type :=
  | Returns (a : A)
  | Throws (e : Thrown)
  | Undefined.
Arguments Returns {A} a.
Arguments Throws {A} e.
Arguments Undefined {A}.

Definition open (sys_file : option (list byte)) (r : t) : Outcome unit * t :=
  let r := mk (file_path_ r) (ifstream_open sys_file (file_ r)) (offset_ r)
              (file_header_ r) in
  if failbit (file_ r)
  then (Throws (thrown (runtime_error
                          (String.append "Failed to open file: " (file_path_ r)))), r)
  else
    let '(header_buf, f) := read FileHeader_SIZE (file_ r) in
    let r := mk (file_path_ r) f (offset_ r) (file_header_ r) in
    if negb (gcount (file_ r) =? FileHeader_SIZE)
    then (Throws (ParseException_what "Failed to read file header"), r)
    else
      match parseFileHeader header_buf FileHeader_SIZE with
      | Throw e => (Throws (thrown e), r)
      | Ok header => (Returns tt, mk (file_path_ r) (file_ r) FileHeader_SIZE header)
      end.

(** [readNext(Event& event)]: the outcome, the reader afterwards and the
    caller's [event] afterwards. *)
Definition readNext (r : t) (event : Event) : Outcome bool * t * Event :=
  if negb (is_open (file_ r))
  then (Throws (thrown (runtime_error "File not opened")), r, event)
  else if eofbit (file_ r) then (Returns false, r, event)
  else
    let '(header_buf, f) := read 24 (file_ r) in
    let r := mk (file_path_ r) f (offset_ r) (file_header_ r) in
    if gcount (file_ r) =? 0 then (Returns false, r, event)
    else if negb (gcount (file_ r) =? 24)
    then (Throws (ParseException_what "Incomplete event header"), r, event)
    else
      let payload_length := readUint32LE (drop 20 header_buf) in
      (* both sums are [uint32_t] arithmetic, widened to [size_t] *)
      let remaining := wrap32 (payload_length + 4) in
      let size := wrap32 (28 + payload_length) in
      (* [memcpy] writes 24 bytes and [read] up to [remaining] more into the
         [size] bytes of [full_record] *)
      if size <? 24 + remaining then (Undefined, r, event)
      else
        let '(rest, f) := read remaining (file_ r) in
        let r := mk (file_path_ r) f (offset_ r) (file_header_ r) in
        let full_record :=
          header_buf ++ rest
          ++ replicate (Z.to_nat size - 24 - length rest) x00 in
        if negb (gcount (file_ r) =? remaining)
        then (Throws (ParseException_what "Incomplete event payload"), r, event)
        else
          match parse full_record size with
          | Throw e => (Throws (thrown e), r, event)
          | Ok ev =>
              (Returns true,
               mk (file_path_ r) (file_ r) (wrap64 (offset_ r + size)) (file_header_ r),
               ev)
          end.

Definition offset (r : t) : Z := offset_ r.
Definition eof (r : t) : bool := eofbit (file_ r).

(** [while (reader.readNext(event)) { ... }], keeping the events it sees;
    [None] is a loop still running when [fuel] is used up. *)
Fixpoint drain (fuel : nat) (r : t) (event : Event) (seen : list Event)
  : option (Outcome unit * list Event * t * Event) :=
  match fuel with
  | O => None
  | S fuel =>
      match readNext r event with
      | (Returns true, r', event') => drain fuel r' event' (seen ++ [event'])
      | (Returns false, r', event') => Some (Returns tt, seen, r', event')
      | (Throws e, r', event') => Some (Throws e, seen, r', event')
      | (Undefined, r', event') => Some (Undefined, seen, r', event')
      end
  end.

(** A reader on an open, good stream at position [pos]. *)
Definition reading_at (r : t) (pos : nat) : Prop :=
  is_open (file_ r) = true /\ eofbit (file_ r) = false
  /\ failbit (file_ r) = false /\ tellg (file_ r) = pos.

End FileReader.
(** * Properties *)

(** ** Proof steps used throughout *)

Ltac split_all :=
  repeat match goal with
  | |- _ /\ _ => split
  | |- _ <-> _ => split
  end.

Ltac break_hyps :=
  repeat match goal with
  | H : ex _ |- _ => destruct H
  | H : _ /\ _ |- _ => destruct H
  | H : _ \/ _ |- _ => destruct H
  end.

(** Closes the cases of a function that branches on what the system answers. *)
Ltac close_case :=
  split_all; intros; break_hyps; try discriminate; try congruence;
  try (exfalso;
       match goal with H : Some _ = Some _ |- _ => injection H as ?; subst; lia end);
  eauto 10.

(** ** Bytes and machine integers *)

Lemma u8_range (b : byte) : 0 <= u8 b < 256.
Proof.
  unfold u8. pose proof (Byte.to_N_bounded b). lia.
Qed.

Lemma u8_to_u8 (z : Z) : u8 (to_u8 z) = z mod 256.
Proof.
  unfold u8, to_u8.
  pose proof (Z.mod_pos_bound z 256 ltac:(lia)) as Hr.
  destruct (Byte.of_N (Z.to_N (z mod 256))) as [b|] eqn:Hb.
  - apply Byte.to_of_N in Hb. rewrite Hb. lia.
  - apply Byte.of_N_None_iff in Hb. lia.
Qed.

Lemma wrap64_small (z : Z) : 0 <= z < 2 ^ 64 -> wrap64 z = z.
Proof. intros H. unfold wrap64. apply Z.mod_small. exact H. Qed.

Lemma wrap32_small (z : Z) : 0 <= z < 2 ^ 32 -> wrap32 z = z.
Proof. intros H. unfold wrap32. apply Z.mod_small. exact H. Qed.

(** ** RingBuffer: which sizes compile *)

Lemma land_pred_pow2 (k : Z) : 0 <= k -> Z.land (2 ^ k) (2 ^ k - 1) = 0.
Proof.
  intros Hk. replace (2 ^ k - 1) with (Z.ones k).
  - rewrite Z.land_ones by lia. apply Z_mod_same_full.
  - rewrite Z.ones_equiv. lia.
Qed.

Lemma land_pred_zero_pow2 (s : Z) :
  0 < s -> Z.land s (s - 1) = 0 -> s = 2 ^ Z.log2 s.
Proof.
  intros Hs Hland.
  destruct (Z.log2_spec s Hs) as [Hlo Hhi].
  pose proof (Z.log2_nonneg s) as Hk.
  destruct (Z.eq_dec s (2 ^ Z.log2 s)) as [|Hne]; [assumption|exfalso].
  assert (Hpred : Z.log2 (s - 1) = Z.log2 s).
  { apply Z.log2_unique; [assumption|]. lia. }
  assert (Hbit : Z.testbit (Z.land s (s - 1)) (Z.log2 s) = true).
  { rewrite Z.land_spec. rewrite (Z.bit_log2 s Hs).
    rewrite <- Hpred. rewrite Z.bit_log2; [reflexivity|].
    assert (0 < 2 ^ Z.log2 s) by (apply Z.pow_pos_nonneg; lia). lia. }
  rewrite Hland, Z.bits_0 in Hbit. discriminate.
Qed.

Lemma static_asserts_pow2 (SIZE : Z) :
  0 <= SIZE < 2 ^ 64 ->
  static_asserts SIZE = true <-> exists k, 0 <= k < 64 /\ SIZE = 2 ^ k.
Proof.
  intros Hrange. unfold static_asserts.
  rewrite andb_true_iff, Z.eqb_eq, Z.gtb_gt. split.
  - intros [Hland Hpos]. rewrite wrap64_small in Hland by lia.
    exists (Z.log2 SIZE). split; [|apply land_pred_zero_pow2; lia].
    split; [apply Z.log2_nonneg|].
    apply Z.log2_lt_pow2; lia.
  - intros (k & Hk & ->).
    assert (0 < 2 ^ k) by (apply Z.pow_pos_nonneg; lia).
    rewrite wrap64_small by lia.
    split; [apply land_pred_pow2; lia | lia].
Qed.

(** C8, as stated, fails: a ring of [SIZE = 1] passes both [static_assert]s
    although its size is smaller than 2. *)
Lemma static_asserts_accepts_one :
  static_asserts 1 = true /\ ~ (2 <= 1).
Proof. split; [reflexivity | lia]. Qed.

(** C8 (amended): for a [size_t] template argument, the [static_assert]s of
    [RingBuffer] pass exactly when [SIZE] is a power of two, [SIZE >= 1]; a
    non-power-of-two and 0 are rejected at compile time. *)
Theorem static_asserts_iff_power_of_two (SIZE : Z) :
  0 <= SIZE < 2 ^ 64 ->
  (static_asserts SIZE = true <-> exists k, 0 <= k < 64 /\ SIZE = 2 ^ k)
  /\ (static_asserts SIZE = true -> 1 <= SIZE).
Proof.
  intros Hrange. split; [apply static_asserts_pow2; exact Hrange|].
  unfold static_asserts. rewrite andb_true_iff, Z.gtb_gt. lia.
Qed.

Lemma static_asserts_iff_power_of_two_witness :
  (static_asserts 4096 = true <-> exists k, 0 <= k < 64 /\ 4096 = 2 ^ k)
  /\ (static_asserts 4096 = true -> 1 <= 4096).
Proof. apply (static_asserts_iff_power_of_two 4096). lia. Defined.

(** ** RingBuffer: the ring is a bounded FIFO queue *)

Lemma mod_range_cases (s x : Z) :
  0 < s -> - s <= x < 2 * s ->
  (x < 0 /\ x mod s = x + s) \/ (0 <= x < s /\ x mod s = x) \/ (s <= x /\ x mod s = x - s).
Proof.
  intros Hs Hx.
  destruct (Z.lt_ge_cases x 0) as [Hneg|Hnn]; [left|right].
  - split; [assumption|]. symmetry. apply (Z.mod_unique_pos _ _ (-1)); lia.
  - destruct (Z.lt_ge_cases x s) as [Hlt|Hge]; [left|right].
    + split; [lia|]. apply Z.mod_small. lia.
    + split; [assumption|]. symmetry. apply (Z.mod_unique_pos _ _ 1); lia.
Qed.

Module RingFacts.
Import RingBuffer.
Section Ring.
Context {T : Type} (T_default : T) (moved_from : T -> T).
Context (k : Z) (Hk : 0 <= k < 64).

Local Abbreviation SIZE := (2 ^ k).
Local Abbreviation ring := (@RingBuffer.t T).
Local Abbreviation try_push := (RingBuffer.try_push SIZE).
Local Abbreviation try_pop := (RingBuffer.try_pop T_default moved_from SIZE).
Local Abbreviation buffered := (RingBuffer.buffered T_default SIZE).
Local Abbreviation slot := (RingBuffer.slot T_default).
Local Abbreviation run := (RingBuffer.run T_default moved_from SIZE).
Local Abbreviation call := (RingBuffer.call T_default moved_from SIZE).
Local Abbreviation ring_inv := (RingBuffer.ring_inv SIZE).

Lemma SIZE_range : 0 < SIZE <= 2 ^ 63.
Proof.
  split; [apply Z.pow_pos_nonneg; lia|].
  apply Z.pow_le_mono_r; lia.
Qed.

(** The mask [& (SIZE - 1)] is reduction modulo [SIZE]. *)
Lemma next_index (i : Z) :
  0 <= i < SIZE ->
  Z.land (wrap64 (i + 1)) (wrap64 (SIZE - 1)) = (i + 1) mod SIZE.
Proof.
  intros Hi. pose proof SIZE_range.
  rewrite !wrap64_small by lia.
  replace (SIZE - 1) with (Z.ones k) by (rewrite Z.ones_equiv; lia).
  apply Z.land_ones. lia.
Qed.

Lemma ring_inv_new : ring_inv (RingBuffer.new T_default SIZE).
Proof.
  pose proof SIZE_range. unfold RingBuffer.ring_inv, RingBuffer.new. cbn.
  rewrite length_replicate. lia.
Qed.

Lemma buffered_length (rb : ring) :
  Z.of_nat (length (buffered rb)) = (tail_ rb - head_ rb) mod SIZE.
Proof.
  pose proof SIZE_range. unfold RingBuffer.buffered.
  rewrite length_map, length_seq.
  pose proof (Z.mod_pos_bound (tail_ rb - head_ rb) SIZE). lia.
Qed.

Lemma slot_insert_eq (buffer : list T) (i : Z) (x : T) :
  0 <= i -> (Z.to_nat i < length buffer)%nat ->
  slot (<[Z.to_nat i := x]> buffer) i = x.
Proof.
  intros Hi Hlt. unfold RingBuffer.slot.
  rewrite nth_lookup, list_lookup_insert_eq by assumption. reflexivity.
Qed.

Lemma slot_insert_ne (buffer : list T) (i j : Z) (x : T) :
  0 <= i -> 0 <= j -> i <> j ->
  slot (<[Z.to_nat i := x]> buffer) j = slot buffer j.
Proof.
  intros Hi Hj Hne. unfold RingBuffer.slot.
  rewrite !nth_lookup, list_lookup_insert_ne by lia. reflexivity.
Qed.

Ltac mod_cases e :=
  let H := fresh "Hmod" in
  destruct (mod_range_cases SIZE e ltac:(lia) ltac:(lia)) as [[? H]|[[? H]|[? H]]];
  rewrite ?H in *; clear H.

(** Removes every [_ mod SIZE] by cases on the wrap, then calls [lia]. *)
Ltac solve_mod :=
  pose proof SIZE_range;
  repeat match goal with
         | |- context [?e mod SIZE] => mod_cases e
         | H : context [?e mod SIZE] |- _ => mod_cases e
         end;
  lia.

Lemma try_push_full (item : T) (rb : ring) :
  ring_inv rb ->
  fst (try_push item rb) = false <-> Z.of_nat (length (buffered rb)) = SIZE - 1.
Proof.
  intros (Hh & Ht & Hlen). rewrite buffered_length.
  unfold RingBuffer.try_push. rewrite next_index by assumption.
  destruct (Z.eqb_spec ((tail_ rb + 1) mod SIZE) (head_ rb)) as [Heq|Hne]; cbn [fst].
  - split; [intros _|reflexivity]. solve_mod.
  - split; [discriminate|]. intros Hfull. exfalso. apply Hne. solve_mod.
Qed.

Lemma try_push_ok (item : T) (rb : ring) :
  ring_inv rb ->
  fst (try_push item rb) = true ->
  ring_inv (snd (try_push item rb))
  /\ buffered (snd (try_push item rb)) = buffered rb ++ [item].
Proof.
  intros (Hh & Ht & Hlen). unfold RingBuffer.try_push.
  rewrite next_index by assumption.
  destruct (Z.eqb_spec ((tail_ rb + 1) mod SIZE) (head_ rb)) as [Heq|Hne]; cbn [fst snd];
    [discriminate|intros _].
  pose proof SIZE_range as HS.
  pose proof (Z.mod_pos_bound (tail_ rb + 1) SIZE ltac:(lia)) as Hnext.
  split.
  { unfold RingBuffer.ring_inv. cbn. rewrite length_insert. lia. }
  unfold RingBuffer.buffered. cbn [head_ tail_ buffer_].
  assert (Hn : ((tail_ rb + 1) mod SIZE - head_ rb) mod SIZE
               = (tail_ rb - head_ rb) mod SIZE + 1) by solve_mod.
  rewrite Hn.
  pose proof (Z.mod_pos_bound (tail_ rb - head_ rb) SIZE ltac:(lia)) as Hn0.
  set (n := (tail_ rb - head_ rb) mod SIZE) in *.
  replace (Z.to_nat (n + 1)) with (S (Z.to_nat n)) by lia.
  rewrite seq_S, map_app. cbn [map Nat.add]. f_equal.
  - apply map_ext_in. intros i Hi. apply in_seq in Hi.
    apply slot_insert_ne; [lia | apply Z.mod_pos_bound; lia |].
    subst n. solve_mod.
  - f_equal. rewrite Z2Nat.id by lia.
    replace ((head_ rb + n) mod SIZE) with (tail_ rb) by (subst n; solve_mod).
    apply slot_insert_eq; lia.
Qed.

Lemma try_pop_empty (item : T) (rb : ring) :
  ring_inv rb ->
  fst (fst (try_pop item rb)) = false <-> buffered rb = [].
Proof.
  intros (Hh & Ht & Hlen).
  rewrite <- length_zero_iff_nil.
  pose proof (buffered_length rb) as Hbl.
  unfold RingBuffer.try_pop.
  destruct (Z.eqb_spec (head_ rb) (tail_ rb)) as [Heq|Hne]; cbn [fst].
  - split; [intros _|reflexivity]. rewrite Heq, Z.sub_diag, Z.mod_0_l in Hbl; solve_mod.
  - split; [discriminate|]. intros Hempty. exfalso. apply Hne.
    rewrite Hempty in Hbl. solve_mod.
Qed.

Lemma try_pop_ok (item : T) (rb : ring) :
  ring_inv rb ->
  fst (fst (try_pop item rb)) = true ->
  ring_inv (snd (try_pop item rb))
  /\ buffered rb = snd (fst (try_pop item rb)) :: buffered (snd (try_pop item rb)).
Proof.
  intros (Hh & Ht & Hlen). unfold RingBuffer.try_pop.
  rewrite next_index by assumption.
  destruct (Z.eqb_spec (head_ rb) (tail_ rb)) as [Heq|Hne]; cbn [fst snd];
    [discriminate|intros _].
  pose proof SIZE_range as HS.
  pose proof (Z.mod_pos_bound (head_ rb + 1) SIZE ltac:(lia)) as Hnext.
  split.
  { unfold RingBuffer.ring_inv. cbn. rewrite length_insert. lia. }
  unfold RingBuffer.buffered. cbn [head_ tail_ buffer_].
  assert (Hn : (tail_ rb - head_ rb) mod SIZE
               = (tail_ rb - (head_ rb + 1) mod SIZE) mod SIZE + 1) by solve_mod.
  rewrite Hn.
  pose proof (Z.mod_pos_bound (tail_ rb - (head_ rb + 1) mod SIZE) SIZE ltac:(lia)) as Hn0.
  set (n := (tail_ rb - (head_ rb + 1) mod SIZE) mod SIZE) in *.
  replace (Z.to_nat (n + 1)) with (S (Z.to_nat n)) by lia.
  cbn [seq map]. f_equal.
  - f_equal. rewrite Z.add_0_r. apply Z.mod_small. lia.
  - rewrite <- seq_shift, map_map. apply map_ext_in. intros i Hi. apply in_seq in Hi.
    replace (((head_ rb + 1) mod SIZE + Z.of_nat i) mod SIZE)
      with ((head_ rb + Z.of_nat (S i)) mod SIZE) by solve_mod.
    symmetry. apply slot_insert_ne; [lia | apply Z.mod_pos_bound; lia |].
    subst n. solve_mod.
Qed.

Lemma try_push_unchanged (item : T) (rb : ring) :
  fst (try_push item rb) = false -> snd (try_push item rb) = rb.
Proof.
  unfold RingBuffer.try_push.
  destruct (_ =? head_ rb); [reflexivity | discriminate].
Qed.

Lemma try_pop_unchanged (item : T) (rb : ring) :
  fst (fst (try_pop item rb)) = false -> try_pop item rb = (false, item, rb).
Proof.
  unfold RingBuffer.try_pop.
  destruct (head_ rb =? tail_ rb); [reflexivity | discriminate].
Qed.

(** One call of the ring is one call of the FIFO queue on the buffered items. *)
Lemma call_refines (c : Call) (rb : ring) :
  ring_inv rb ->
  ring_inv (snd (call c rb))
  /\ (fst (call c rb), buffered (snd (call c rb)))
     = fifo_call (SIZE - 1) c (buffered rb).
Proof.
  intros Hinv. destruct c as [item|]; unfold RingBuffer.call, fifo_call.
  - pose proof (try_push_full item rb Hinv) as Hfull.
    pose proof (try_push_ok item rb Hinv) as Hok.
    pose proof (try_push_unchanged item rb) as Hsame.
    unfold fifo_push.
    destruct (try_push item rb) as [[] rb']; cbn [fst snd] in *.
    + destruct (Hok eq_refl) as [Hinv' ->]. split; [assumption|].
      destruct (Z.eqb_spec (Z.of_nat (length (buffered rb))) (SIZE - 1)) as [Heq|];
        [|reflexivity].
      apply Hfull in Heq. discriminate.
    + rewrite (Hsame eq_refl). split; [assumption|].
      rewrite (proj1 Hfull eq_refl), Z.eqb_refl. reflexivity.
  - pose proof (try_pop_empty T_default rb Hinv) as Hempty.
    pose proof (try_pop_ok T_default rb Hinv) as Hok.
    pose proof (try_pop_unchanged T_default rb) as Hsame.
    unfold fifo_pop.
    destruct (try_pop T_default rb) as [[[] item] rb']; cbn [fst snd] in *.
    + destruct (Hok eq_refl) as [Hinv' ->]. split; [assumption | reflexivity].
    + specialize (Hsame eq_refl). injection Hsame as _ ->.
      split; [assumption|]. rewrite (proj1 Hempty eq_refl). reflexivity.
Qed.

Lemma run_refines (cs : list Call) (rb : ring) :
  ring_inv rb ->
  ring_inv (snd (run cs rb))
  /\ (fst (run cs rb), buffered (snd (run cs rb)))
     = fifo_run (SIZE - 1) cs (buffered rb).
Proof.
  revert rb. induction cs as [|c cs IH]; intros rb Hinv.
  - split; [assumption | reflexivity].
  - cbn [RingBuffer.run fifo_run].
    destruct (call_refines c rb Hinv) as [Hinv' Hcall].
    destruct (call c rb) as [r rb1]. cbn [fst snd] in *.
    rewrite <- Hcall.
    destruct (IH rb1 Hinv') as [Hinv'' Hrun].
    destruct (run cs rb1) as [rs rb2]. cbn [fst snd] in *.
    rewrite <- Hrun. split; [assumption | reflexivity].
Qed.

Lemma buffered_new : buffered (RingBuffer.new T_default SIZE) = [].
Proof.
  unfold RingBuffer.buffered, RingBuffer.new. cbn [head_ tail_].
  rewrite Z.sub_diag, Z.mod_0_l; [reflexivity|]. pose proof SIZE_range. lia.
Qed.

(** The monitoring queries agree with the buffered items when nothing runs
    in between. *)
Lemma size_buffered (rb : ring) :
  ring_inv rb -> RingBuffer.size SIZE rb = Z.of_nat (length (buffered rb)).
Proof.
  intros (Hh & Ht & Hlen). rewrite buffered_length. unfold RingBuffer.size.
  pose proof SIZE_range.
  destruct (Z.geb_spec (tail_ rb) (head_ rb)).
  - rewrite wrap64_small by lia. solve_mod.
  - rewrite (wrap64_small (SIZE - head_ rb)) by lia.
    rewrite wrap64_small by lia. solve_mod.
Qed.

Lemma empty_buffered (rb : ring) :
  ring_inv rb -> RingBuffer.empty rb = true <-> buffered rb = [].
Proof.
  intros Hinv. rewrite <- (try_pop_empty T_default rb Hinv).
  unfold RingBuffer.empty, RingBuffer.try_pop.
  destruct (head_ rb =? tail_ rb); cbn [fst]; split; congruence.
Qed.

Lemma capacity_value : RingBuffer.capacity SIZE = SIZE - 1.
Proof. pose proof SIZE_range. unfold RingBuffer.capacity. apply wrap64_small. lia. Qed.

(** C1: for a ring of size [SIZE = 2^k] ([k < 64], a [size_t]), every
    sequential run of [try_push] and [try_pop] calls from the fresh ring
    returns what a FIFO queue of capacity [SIZE - 1] returns, and the ring then
    buffers exactly the queue's items, oldest first.  In the state reached,
    [try_push] returns false exactly when [SIZE - 1] items are buffered, and
    then leaves the ring unchanged, otherwise it appends its item; [try_pop]
    returns false exactly when nothing is buffered, and then leaves the ring
    and the caller's item unchanged, otherwise it hands out the oldest
    buffered item and removes it. *)
Theorem ring_buffer_is_fifo (cs : list Call) :
  let '(rets, rb) := run cs (RingBuffer.new T_default SIZE) in
  (rets, buffered rb) = fifo_run (SIZE - 1) cs []
  /\ (forall item,
        (fst (try_push item rb) = false <-> Z.of_nat (length (buffered rb)) = SIZE - 1)
        /\ (fst (try_push item rb) = false -> snd (try_push item rb) = rb)
        /\ (fst (try_push item rb) = true ->
            buffered (snd (try_push item rb)) = buffered rb ++ [item]))
  /\ (forall item,
        (fst (fst (try_pop item rb)) = false <-> buffered rb = [])
        /\ (fst (fst (try_pop item rb)) = false -> try_pop item rb = (false, item, rb))
        /\ (fst (fst (try_pop item rb)) = true ->
            buffered rb
            = snd (fst (try_pop item rb)) :: buffered (snd (try_pop item rb)))).
Proof.
  destruct (run_refines cs (RingBuffer.new T_default SIZE) ring_inv_new) as [Hinv Hrun].
  rewrite buffered_new in Hrun.
  destruct (run cs (RingBuffer.new T_default SIZE)) as [rets rb]. cbn [fst snd] in *.
  split; [assumption|]. split; intros item.
  - split; [apply try_push_full; assumption|].
    split; [apply try_push_unchanged|].
    intros Hok. apply try_push_ok; assumption.
  - split; [apply try_pop_empty; assumption|].
    split; [apply try_pop_unchanged|].
    intros Hok. apply try_pop_ok; assumption.
Qed.

End Ring.

Lemma ring_buffer_is_fifo_witness :
  let '(rets, rb) :=
    RingBuffer.run 0 id (2 ^ 2) ring_calls (RingBuffer.new 0 (2 ^ 2)) in
  (rets, RingBuffer.buffered 0 (2 ^ 2) rb) = fifo_run (2 ^ 2 - 1) ring_calls []
  /\ (forall item,
        (fst (RingBuffer.try_push (2 ^ 2) item rb) = false
           <-> Z.of_nat (length (RingBuffer.buffered 0 (2 ^ 2) rb)) = 2 ^ 2 - 1)
        /\ (fst (RingBuffer.try_push (2 ^ 2) item rb) = false ->
            snd (RingBuffer.try_push (2 ^ 2) item rb) = rb)
        /\ (fst (RingBuffer.try_push (2 ^ 2) item rb) = true ->
            RingBuffer.buffered 0 (2 ^ 2) (snd (RingBuffer.try_push (2 ^ 2) item rb))
            = RingBuffer.buffered 0 (2 ^ 2) rb ++ [item]))
  /\ (forall item,
        (fst (fst (RingBuffer.try_pop 0 id (2 ^ 2) item rb)) = false
           <-> RingBuffer.buffered 0 (2 ^ 2) rb = [])
        /\ (fst (fst (RingBuffer.try_pop 0 id (2 ^ 2) item rb)) = false ->
            RingBuffer.try_pop 0 id (2 ^ 2) item rb = (false, item, rb))
        /\ (fst (fst (RingBuffer.try_pop 0 id (2 ^ 2) item rb)) = true ->
            RingBuffer.buffered 0 (2 ^ 2) rb
            = snd (fst (RingBuffer.try_pop 0 id (2 ^ 2) item rb))
              :: RingBuffer.buffered 0 (2 ^ 2) (snd (RingBuffer.try_pop 0 id (2 ^ 2) item rb)))).
Proof.
  apply (ring_buffer_is_fifo 0 id 2 ltac:(lia) ring_calls).
Defined.

(** The run of [ring_calls] on a ring of size 4: the fourth push finds the
    ring full, the items come out in push order, the last pop finds it
    empty. *)
Example ring_calls_returns :
  fst (RingBuffer.run 0 id 4 ring_calls (RingBuffer.new 0 4))
  = [Pushed true; Pushed true; Pushed true; Pushed false;
     Popped (Some 1); Popped (Some 2); Pushed true;
     Popped (Some 3); Popped (Some 5); Popped None].
Proof. reflexivity. Qed.

End RingFacts.

(** ** EventParser: the little-endian readers *)

Lemma lor_shiftl_add (a b n : Z) :
  0 <= n -> 0 <= a < 2 ^ n -> Z.lor a (Z.shiftl b n) = a + b * 2 ^ n.
Proof.
  intros Hn Ha.
  assert (Hland : Z.land a (Z.shiftl b n) = 0).
  { apply Z.bits_inj'. intros i Hi. rewrite Z.land_spec, Z.bits_0.
    destruct (Z.lt_ge_cases i n) as [Hlt|Hge].
    - rewrite Z.shiftl_spec_low by assumption. apply andb_false_r.
    - rewrite <- (Z.mod_small a (2 ^ n)) by assumption.
      rewrite Z.mod_pow2_bits_high by lia. reflexivity. }
  pose proof (Z.add_lor_land a (Z.shiftl b n)) as Hadd.
  rewrite Hland, Z.add_0_r in Hadd. rewrite Hadd.
  rewrite Z.shiftl_mul_pow2 by assumption. reflexivity.
Qed.

Lemma readUint32LE_sum (data : list byte) :
  readUint32LE data
  = u8 (byte_at data 0) + u8 (byte_at data 1) * 2 ^ 8
    + u8 (byte_at data 2) * 2 ^ 16 + u8 (byte_at data 3) * 2 ^ 24.
Proof.
  unfold readUint32LE.
  pose proof (u8_range (byte_at data 0)). pose proof (u8_range (byte_at data 1)).
  pose proof (u8_range (byte_at data 2)). pose proof (u8_range (byte_at data 3)).
  rewrite (lor_shiftl_add _ _ 8) by lia.
  rewrite (lor_shiftl_add _ _ 16) by lia.
  rewrite (lor_shiftl_add _ _ 24) by lia.
  reflexivity.
Qed.

Lemma readUint32LE_range (data : list byte) : 0 <= readUint32LE data < 2 ^ 32.
Proof.
  rewrite readUint32LE_sum.
  pose proof (u8_range (byte_at data 0)). pose proof (u8_range (byte_at data 1)).
  pose proof (u8_range (byte_at data 2)). pose proof (u8_range (byte_at data 3)).
  lia.
Qed.

Lemma readUint64LE_sum (data : list byte) :
  readUint64LE data
  = u8 (byte_at data 0) + u8 (byte_at data 1) * 2 ^ 8
    + u8 (byte_at data 2) * 2 ^ 16 + u8 (byte_at data 3) * 2 ^ 24
    + u8 (byte_at data 4) * 2 ^ 32 + u8 (byte_at data 5) * 2 ^ 40
    + u8 (byte_at data 6) * 2 ^ 48 + u8 (byte_at data 7) * 2 ^ 56.
Proof.
  unfold readUint64LE.
  pose proof (u8_range (byte_at data 0)). pose proof (u8_range (byte_at data 1)).
  pose proof (u8_range (byte_at data 2)). pose proof (u8_range (byte_at data 3)).
  pose proof (u8_range (byte_at data 4)). pose proof (u8_range (byte_at data 5)).
  pose proof (u8_range (byte_at data 6)). pose proof (u8_range (byte_at data 7)).
  rewrite (lor_shiftl_add _ _ 8) by lia.
  rewrite (lor_shiftl_add _ _ 16) by lia.
  rewrite (lor_shiftl_add _ _ 24) by lia.
  rewrite (lor_shiftl_add _ _ 32) by lia.
  rewrite (lor_shiftl_add _ _ 40) by lia.
  rewrite (lor_shiftl_add _ _ 48) by lia.
  rewrite (lor_shiftl_add _ _ 56) by lia.
  reflexivity.
Qed.

(** What a successful [parse] has checked and what it returns. *)
Lemma parse_Ok_inv (data : list byte) (length : Z) (ev : Event) :
  parse data length = Ok ev ->
  let payload_length := readUint32LE (drop 20 data) in
  28 <= length
  /\ wrap32 (28 + payload_length) <= length
  /\ calculateCRC32 data (wrap32 (24 + payload_length))
     = readUint32LE (drop (Z.to_nat (24 + payload_length)) data)
  /\ ev = {| sequence_num := readUint64LE data;
             timestamp_ns := readUint64LE (drop 8 data);
             event_type := byte_at data 16;
             payload := take (Z.to_nat payload_length) (drop 24 data);
             crc32 := readUint32LE (drop (Z.to_nat (24 + payload_length)) data) |}.
Proof.
  intros H payload_length. unfold parse in H. fold payload_length in H.
  destruct (Z.ltb_spec length 28) as [|Hlen]; [discriminate|].
  cbn [throw_if mbind Result_bind] in H. fold payload_length in H.
  destruct (Z.ltb_spec length (wrap32 (28 + payload_length))) as [|Htot]; [discriminate|].
  cbn [throw_if mbind Result_bind] in H.
  destruct (Z.eqb_spec (calculateCRC32 data (wrap32 (24 + payload_length)))
              (readUint32LE (drop (Z.to_nat (24 + payload_length)) data))) as [Hcrc|];
    [|discriminate].
  cbn [negb throw_if mbind Result_bind] in H. injection H as <-.
  repeat split; assumption.
Qed.

(** ** EventParser: serialized records *)

Lemma u8_digit (x : Z) (i : nat) :
  u8 (to_u8 (Z.land (Z.shiftr x (Z.of_nat i * 8)) 0xFF))
  = (x / 2 ^ (Z.of_nat i * 8)) mod 256.
Proof.
  rewrite u8_to_u8. change 0xFF with (Z.ones 8).
  rewrite Z.land_ones by lia. rewrite Z.shiftr_div_pow2 by lia.
  change (2 ^ 8) with 256. apply Z.mod_mod. lia.
Qed.

Lemma le_digits_32 (x : Z) :
  0 <= x < 2 ^ 32 ->
  (x / 2 ^ 0) mod 256 + (x / 2 ^ 8) mod 256 * 2 ^ 8
  + (x / 2 ^ 16) mod 256 * 2 ^ 16 + (x / 2 ^ 24) mod 256 * 2 ^ 24 = x.
Proof.
  intros Hx.
  change (2 ^ 16) with (2 ^ 8 * 2 ^ 8). change (2 ^ 24) with (2 ^ 8 * 2 ^ 8 * 2 ^ 8).
  rewrite <- !Z.div_div by lia.
  change (2 ^ 8) with 256. change (2 ^ 0) with 1. rewrite Z.div_1_r.
  Z.div_mod_to_equations. lia.
Qed.

Lemma le_digits_64 (x : Z) :
  0 <= x < 2 ^ 64 ->
  (x / 2 ^ 0) mod 256 + (x / 2 ^ 8) mod 256 * 2 ^ 8
  + (x / 2 ^ 16) mod 256 * 2 ^ 16 + (x / 2 ^ 24) mod 256 * 2 ^ 24
  + (x / 2 ^ 32) mod 256 * 2 ^ 32 + (x / 2 ^ 40) mod 256 * 2 ^ 40
  + (x / 2 ^ 48) mod 256 * 2 ^ 48 + (x / 2 ^ 56) mod 256 * 2 ^ 56 = x.
Proof.
  intros Hx.
  change (2 ^ 64) with (2 ^ 32 * 2 ^ 32) in Hx.
  pose proof (le_digits_32 (x mod 2 ^ 32) ltac:(apply Z.mod_pos_bound; lia)) as Hlo.
  pose proof (le_digits_32 (x / 2 ^ 32)
                ltac:(split; [apply Z.div_pos; lia | apply Z.div_lt_upper_bound; lia])) as Hhi.
  rewrite !Z.div_div in Hhi by lia.
  change (2 ^ 32 * 2 ^ 0) with (2 ^ 32) in Hhi. change (2 ^ 32 * 2 ^ 8) with (2 ^ 40) in Hhi.
  change (2 ^ 32 * 2 ^ 16) with (2 ^ 48) in Hhi. change (2 ^ 32 * 2 ^ 24) with (2 ^ 56) in Hhi.
  assert (Hdig : forall j, 0 <= j <= 24 ->
            (x mod 2 ^ 32 / 2 ^ j) mod 256 = (x / 2 ^ j) mod 256).
  { intros j Hj.
    rewrite <- !Z.shiftr_div_pow2 by lia. change 256 with (2 ^ 8).
    rewrite <- !Z.land_ones by lia. apply Z.bits_inj'. intros i Hi.
    rewrite !Z.land_spec, !Z.shiftr_spec by lia.
    destruct (Z.lt_ge_cases i 8).
    - rewrite Z.land_spec, (Z.ones_spec_low 32) by lia.
      rewrite andb_true_r. reflexivity.
    - rewrite Z.ones_spec_high by lia. rewrite !andb_false_r. reflexivity. }
  rewrite !Hdig in Hlo by lia.
  pose proof (Z.div_mod x (2 ^ 32) ltac:(lia)). lia.
Qed.

Lemma readUint32LE_le_bytes (x : Z) (rest : list byte) :
  0 <= x < 2 ^ 32 -> readUint32LE (le_bytes 4 x ++ rest) = x.
Proof.
  intros Hx. rewrite readUint32LE_sum. unfold le_bytes.
  cbn [seq map app byte_at nth]. rewrite !u8_digit.
  change (Z.of_nat 0 * 8) with 0. change (Z.of_nat 1 * 8) with 8.
  change (Z.of_nat 2 * 8) with 16. change (Z.of_nat 3 * 8) with 24.
  rewrite <- (le_digits_32 x Hx) at 5. lia.
Qed.

Lemma readUint64LE_le_bytes (x : Z) (rest : list byte) :
  0 <= x < 2 ^ 64 -> readUint64LE (le_bytes 8 x ++ rest) = x.
Proof.
  intros Hx. rewrite readUint64LE_sum. unfold le_bytes.
  cbn [seq map app byte_at nth]. rewrite !u8_digit.
  change (Z.of_nat 0 * 8) with 0. change (Z.of_nat 1 * 8) with 8.
  change (Z.of_nat 2 * 8) with 16. change (Z.of_nat 3 * 8) with 24.
  change (Z.of_nat 4 * 8) with 32. change (Z.of_nat 5 * 8) with 40.
  change (Z.of_nat 6 * 8) with 48. change (Z.of_nat 7 * 8) with 56.
  rewrite <- (le_digits_64 x Hx) at 9. lia.
Qed.

Lemma length_le_bytes (n : nat) (x : Z) : length (le_bytes n x) = n.
Proof. unfold le_bytes. rewrite length_map, length_seq. reflexivity. Qed.

Lemma length_header_bytes (seq ts : Z) (type : EventType) (payload_len : Z) :
  length (header_bytes seq ts type payload_len) = 24%nat.
Proof. reflexivity. Qed.

(** The CRC is the zlib one: its value on the ASCII digits 1 to 9 is the
    published check value of CRC-32/ISO-HDLC. *)
Example calculateCRC32_check_value :
  calculateCRC32 (bytes_of_string "123456789") 9 = 0xCBF43926.
Proof. vm_compute. reflexivity. Qed.

Lemma calculateCRC32_range (data : list byte) (length : Z) :
  0 <= calculateCRC32 data length < 2 ^ 32.
Proof. unfold calculateCRC32, wrap32. apply Z.mod_pos_bound. lia. Qed.

(** [calculateCRC32] reads only the first [length] bytes. *)
Lemma calculateCRC32_prefix (data rest : list byte) :
  calculateCRC32 (data ++ rest) (Z.of_nat (length data))
  = calculateCRC32 data (Z.of_nat (length data)).
Proof.
  unfold calculateCRC32.
  assert (H : (Z.to_nat (wrap32 (Z.of_nat (length data))) <= length data)%nat).
  { unfold wrap32. pose proof (Z.mod_le (Z.of_nat (length data)) (2 ^ 32)).
    pose proof (Z.mod_pos_bound (Z.of_nat (length data)) (2 ^ 32)). lia. }
  rewrite take_app_le by exact H. reflexivity.
Qed.

(** The record [createTestEvent] writes: header, payload, CRC of both. *)
Lemma createTestEvent_layout (seq ts : Z) (type : EventType) (payload : list byte) :
  let header := header_bytes seq ts type (wrap32 (Z.of_nat (length payload))) in
  createTestEvent seq ts type payload
  = header ++ payload
    ++ le_bytes 4 (calculateCRC32 (header ++ payload)
                     (Z.of_nat (length (header ++ payload)))).
Proof.
  unfold createTestEvent, push_le, header_bytes. fold (le_bytes 8 seq) (le_bytes 8 ts).
  cbn zeta. rewrite !app_nil_l, <- !app_assoc. reflexivity.
Qed.

Lemma length_createTestEvent (seq ts : Z) (type : EventType) (payload : list byte) :
  Z.of_nat (length (createTestEvent seq ts type payload))
  = 28 + Z.of_nat (length payload).
Proof.
  rewrite createTestEvent_layout. cbn zeta.
  rewrite !length_app, length_header_bytes, length_le_bytes. lia.
Qed.

(** What [parse] does on a serialized event in memory, called with a length
    [len] that lets both guards pass: the fields are read back, and the
    outcome hangs on the CRC comparison, where the recomputed CRC covers
    [wrap32 (24 + payload_length)] bytes. *)
Lemma parse_createTestEvent (seq ts : Z) (type : EventType) (payload : list byte)
    (len : Z) :
  0 <= seq < 2 ^ 64 -> 0 <= ts < 2 ^ 64 ->
  Z.of_nat (length payload) < 2 ^ 32 ->
  28 <= len -> wrap32 (28 + Z.of_nat (length payload)) <= len ->
  let data := createTestEvent seq ts type payload in
  let stored := calculateCRC32 data (24 + Z.of_nat (length payload)) in
  let calculated := calculateCRC32 data (wrap32 (24 + Z.of_nat (length payload))) in
  parse data len
  = if calculated =? stored
    then Ok {| sequence_num := seq; timestamp_ns := ts; event_type := type;
               payload := payload; crc32 := stored |}
    else Throw (CorruptedEventException calculated stored).
Proof.
  intros Hseq Hts Hlen H28 Hguard data stored calculated.
  pose proof (createTestEvent_layout seq ts type payload) as Hlay.
  cbn zeta in Hlay. fold data in Hlay.
  rewrite (wrap32_small (Z.of_nat (length payload))) in Hlay by lia.
  set (header := header_bytes seq ts type (Z.of_nat (length payload))) in *.
  assert (Hhl : length header = 24%nat) by reflexivity.
  assert (Hcrc : calculateCRC32 (header ++ payload) (Z.of_nat (length (header ++ payload)))
                 = stored).
  { subst stored. rewrite Hlay. rewrite app_assoc.
    replace (24 + Z.of_nat (length payload)) with (Z.of_nat (length (header ++ payload)))
      by (rewrite length_app, Hhl; lia).
    rewrite calculateCRC32_prefix. reflexivity. }
  rewrite Hcrc in Hlay.
  assert (Hfield : readUint32LE (drop 20 data) = Z.of_nat (length payload)).
  { rewrite Hlay. unfold header, header_bytes.
    change (drop 20 ((le_bytes 8 seq ++ le_bytes 8 ts ++ [type; x00; x00; x00]
                      ++ le_bytes 4 (Z.of_nat (length payload))) ++ payload ++ le_bytes 4 stored))
      with (le_bytes 4 (Z.of_nat (length payload)) ++ payload ++ le_bytes 4 stored).
    apply readUint32LE_le_bytes. lia. }
  unfold parse.
  destruct (Z.ltb_spec len 28); [lia|].
  cbn [throw_if mbind Result_bind]. rewrite Hfield.
  destruct (Z.ltb_spec len (wrap32 (28 + Z.of_nat (length payload)))); [lia|].
  cbn [throw_if mbind Result_bind]. fold calculated.
  assert (Hstored : readUint32LE (drop (Z.to_nat (24 + Z.of_nat (length payload))) data)
                    = stored).
  { rewrite Hlay at 1. rewrite app_assoc.
    replace (Z.to_nat (24 + Z.of_nat (length payload))) with (length (header ++ payload))
      by (rewrite length_app, Hhl; lia).
    rewrite drop_app_length. rewrite <- (app_nil_r (le_bytes 4 stored)).
    apply readUint32LE_le_bytes. subst stored. apply calculateCRC32_range. }
  rewrite Hstored.
  destruct (calculated =? stored); cbn [negb throw_if mbind Result_bind]; [|reflexivity].
  f_equal. f_equal.
  - rewrite Hlay. unfold header, header_bytes. rewrite <- !app_assoc.
    apply readUint64LE_le_bytes. assumption.
  - rewrite Hlay. unfold header, header_bytes.
    change (drop 8 ((le_bytes 8 seq ++ le_bytes 8 ts ++ [type; x00; x00; x00]
                      ++ le_bytes 4 (Z.of_nat (length payload))) ++ payload ++ le_bytes 4 stored))
      with (le_bytes 8 ts ++ ([type; x00; x00; x00]
                      ++ le_bytes 4 (Z.of_nat (length payload))) ++ payload ++ le_bytes 4 stored).
    apply readUint64LE_le_bytes. assumption.
  - rewrite Hlay.
    change (drop 24 (header ++ payload ++ le_bytes 4 stored))
      with (payload ++ le_bytes 4 stored).
    rewrite Nat2Z.id. apply take_app_length.
Qed.

(** Round trip below the wrap: for a payload shorter than [2^32 - 24] bytes
    the 32-bit sum [24 + payload_length] does not wrap, the CRCs agree, and
    [parse] returns the event. *)
Lemma parse_serialize_below_wrap (e : Event) :
  0 <= sequence_num e < 2 ^ 64 -> 0 <= timestamp_ns e < 2 ^ 64 ->
  Z.of_nat (length (payload e)) < 2 ^ 32 - 24 ->
  parse (serialize e) (Z.of_nat (length (serialize e)))
  = Ok {| sequence_num := sequence_num e; timestamp_ns := timestamp_ns e;
          event_type := event_type e; payload := payload e;
          crc32 := calculateCRC32 (serialize e) (24 + Z.of_nat (length (payload e))) |}.
Proof.
  intros Hseq Hts Hlen. unfold serialize.
  rewrite parse_createTestEvent;
    [| assumption | assumption | lia
     | rewrite length_createTestEvent; lia
     | rewrite length_createTestEvent; unfold wrap32;
       etransitivity; [apply Z.mod_le; lia | lia] ].
  rewrite wrap32_small by lia. rewrite Z.eqb_refl. reflexivity.
Qed.

Lemma crc32_zero_state (n : nat) : fold_left crc32_byte (replicate n x00) 0 = 0.
Proof.
  induction n as [|n IH]; [reflexivity|].
  cbn [replicate fold_left]. change (crc32_byte 0 x00) with 0. exact IH.
Qed.

(** [parse] on a record laid out in memory, whatever CRC it carries, called
    with a length that lets both guards pass: the fields are read back and
    the outcome hangs on the comparison of the stored CRC with the CRC of the
    first [wrap32 (24 + payload_length)] bytes. *)
Lemma parse_layout (seq ts : Z) (type : EventType) (payload : list byte)
    (stored len : Z) :
  0 <= seq < 2 ^ 64 -> 0 <= ts < 2 ^ 64 ->
  Z.of_nat (length payload) < 2 ^ 32 -> 0 <= stored < 2 ^ 32 ->
  28 <= len -> wrap32 (28 + Z.of_nat (length payload)) <= len ->
  let data := header_bytes seq ts type (Z.of_nat (length payload)) ++ payload
              ++ le_bytes 4 stored in
  let calculated := calculateCRC32 data (wrap32 (24 + Z.of_nat (length payload))) in
  parse data len
  = if calculated =? stored
    then Ok {| sequence_num := seq; timestamp_ns := ts; event_type := type;
               payload := payload; crc32 := stored |}
    else Throw (CorruptedEventException calculated stored).
Proof.
  intros Hseq Hts Hlen Hst H28 Hguard data calculated.
  set (header := header_bytes seq ts type (Z.of_nat (length payload))) in *.
  assert (Hhl : length header = 24%nat) by reflexivity.
  assert (Hfield : readUint32LE (drop 20 data) = Z.of_nat (length payload)).
  { subst data. unfold header, header_bytes.
    change (drop 20 ((le_bytes 8 seq ++ le_bytes 8 ts ++ [type; x00; x00; x00]
                      ++ le_bytes 4 (Z.of_nat (length payload))) ++ payload ++ le_bytes 4 stored))
      with (le_bytes 4 (Z.of_nat (length payload)) ++ payload ++ le_bytes 4 stored).
    apply readUint32LE_le_bytes. lia. }
  unfold parse.
  destruct (Z.ltb_spec len 28); [lia|].
  cbn [throw_if mbind Result_bind]. rewrite Hfield.
  destruct (Z.ltb_spec len (wrap32 (28 + Z.of_nat (length payload)))); [lia|].
  cbn [throw_if mbind Result_bind]. fold calculated.
  assert (Hstored : readUint32LE (drop (Z.to_nat (24 + Z.of_nat (length payload))) data)
                    = stored).
  { subst data. rewrite app_assoc.
    replace (Z.to_nat (24 + Z.of_nat (length payload))) with (length (header ++ payload))
      by (rewrite length_app, Hhl; lia).
    rewrite drop_app_length. rewrite <- (app_nil_r (le_bytes 4 stored)).
    apply readUint32LE_le_bytes. exact Hst. }
  rewrite Hstored.
  destruct (calculated =? stored); cbn [negb throw_if mbind Result_bind]; [|reflexivity].
  f_equal. f_equal.
  - subst data. unfold header, header_bytes. rewrite <- !app_assoc.
    apply readUint64LE_le_bytes. assumption.
  - subst data. unfold header, header_bytes.
    change (drop 8 ((le_bytes 8 seq ++ le_bytes 8 ts ++ [type; x00; x00; x00]
                      ++ le_bytes 4 (Z.of_nat (length payload))) ++ payload ++ le_bytes 4 stored))
      with (le_bytes 8 ts ++ ([type; x00; x00; x00]
                      ++ le_bytes 4 (Z.of_nat (length payload))) ++ payload ++ le_bytes 4 stored).
    apply readUint64LE_le_bytes. assumption.
  - subst data.
    change (drop 24 (header ++ payload ++ le_bytes 4 stored))
      with (payload ++ le_bytes 4 stored).
    rewrite Nat2Z.id. apply take_app_length.
Qed.

(** The reads of [parse] on a whole record in memory stay inside it. *)
Lemma parse_in_bounds_layout (seq ts : Z) (type : EventType) (payload : list byte)
    (stored len : Z) :
  Z.of_nat (length payload) < 2 ^ 32 ->
  let data := header_bytes seq ts type (Z.of_nat (length payload)) ++ payload
              ++ le_bytes 4 stored in
  parse_in_bounds data len = true.
Proof.
  intros Hlen data. unfold parse_in_bounds, parse_reads.
  assert (Hsize : Z.of_nat (length data) = 28 + Z.of_nat (length payload)).
  { subst data. rewrite !length_app, length_header_bytes, length_le_bytes. lia. }
  assert (Hfield : readUint32LE (drop 20 data) = Z.of_nat (length payload)).
  { subst data. unfold header_bytes.
    change (drop 20 ((le_bytes 8 seq ++ le_bytes 8 ts ++ [type; x00; x00; x00]
                      ++ le_bytes 4 (Z.of_nat (length payload))) ++ payload ++ le_bytes 4 stored))
      with (le_bytes 4 (Z.of_nat (length payload)) ++ payload ++ le_bytes 4 stored).
    apply readUint32LE_le_bytes. lia. }
  rewrite Hfield, Hsize.
  destruct (len <? 28); [apply Z.leb_le; lia|].
  destruct (len <? wrap32 (28 + Z.of_nat (length payload))); apply Z.leb_le; lia.
Qed.

(** A payload of [2^32 - 24] bytes: four bytes that bring the CRC register to
    0 after the header, then zeros.  The CRC32 of all [2^32] bytes before the
    CRC field is [0xFFFFFFFF]. *)
Lemma crc32_zero_state_payload (n : nat) :
  Z.of_nat n = 2 ^ 32 - 28 ->
  let payload := [xe6; x8a; x16; x05] ++ replicate n x00 in
  Z.of_nat (length payload) = 2 ^ 32 - 24
  /\ zlib_crc32 0 (Some (header_bytes 1 1000 TRADE_CREATED (2 ^ 32 - 24) ++ payload))
     = 4294967295.
Proof.
  intros Hn payload.
  split; [subst payload; rewrite length_app, length_replicate; cbn [length]; lia|].
  unfold zlib_crc32. subst payload. rewrite app_assoc, fold_left_app.
  replace (fold_left crc32_byte
             (header_bytes 1 1000 TRADE_CREATED (2 ^ 32 - 24) ++ [xe6; x8a; x16; x05])
             (Z.lxor 0 4294967295))
    with 0 by (vm_compute; reflexivity).
  rewrite crc32_zero_state. reflexivity.
Qed.

(** The record of that event as the format lays it out: [28 + payload_length]
    wraps to 4, so any length from 28 on passes the guards; the recomputed
    CRC covers [wrap32 (2^32)] = 0 bytes and differs from the stored one. *)
Lemma parse_zero_state_record (n : nat) (len : Z) :
  Z.of_nat n = 2 ^ 32 - 28 -> 28 <= len ->
  let e := {| sequence_num := 1; timestamp_ns := 1000; event_type := TRADE_CREATED;
              payload := [xe6; x8a; x16; x05] ++ replicate n x00; crc32 := 0 |} in
  parse_in_bounds (serialize_record e) len = true
  /\ parse (serialize_record e) len = Throw (CorruptedEventException 0 4294967295).
Proof.
  intros Hn H28 e.
  destruct (crc32_zero_state_payload n Hn) as [Hlen Hcrc].
  unfold serialize_record. subst e. cbn [sequence_num timestamp_ns event_type payload].
  set (payload := [xe6; x8a; x16; x05] ++ replicate n x00) in *.
  rewrite Hlen. cbv zeta. rewrite Hcrc. rewrite <- Hlen, <- app_assoc.
  split; [apply parse_in_bounds_layout; lia|].
  rewrite parse_layout;
    [| lia | lia | lia | lia | assumption
     | rewrite Hlen; change (wrap32 (28 + (2 ^ 32 - 24))) with 4; lia ].
  rewrite Hlen. change (wrap32 (24 + (2 ^ 32 - 24))) with 0.
  replace (calculateCRC32 _ 0) with 0 by reflexivity.
  reflexivity.
Qed.

(** The record [createTestEvent] writes for it: the helper's CRC goes through
    [calculateCRC32] with the length [2^32], of which zlib sees 0, so the CRC
    of no bytes is stored, and [parse], which hashes as many, accepts it. *)
Lemma parse_zero_state_test_record (n : nat) :
  Z.of_nat n = 2 ^ 32 - 28 ->
  let payload := [xe6; x8a; x16; x05] ++ replicate n x00 in
  let data := createTestEvent 1 1000 TRADE_CREATED payload in
  parse data (Z.of_nat (length data))
  = Ok {| sequence_num := 1; timestamp_ns := 1000; event_type := TRADE_CREATED;
          payload := payload; crc32 := 0 |}
  /\ zlib_crc32 0 (Some (take (Z.to_nat (24 + Z.of_nat (length payload))) data))
     = 4294967295.
Proof.
  intros Hn payload data. subst data.
  destruct (crc32_zero_state_payload n Hn) as [Hlen Hcrc]. fold payload in Hlen, Hcrc.
  split.
  - rewrite parse_createTestEvent;
      [| lia | lia | lia
       | rewrite length_createTestEvent; lia
       | rewrite length_createTestEvent, Hlen;
         change (wrap32 (28 + (2 ^ 32 - 24))) with 4; lia ].
    rewrite Hlen. change (wrap32 (24 + (2 ^ 32 - 24))) with 0.
    replace (calculateCRC32 (createTestEvent 1 1000 TRADE_CREATED payload) 0)
      with 0 by reflexivity.
    replace (calculateCRC32 (createTestEvent 1 1000 TRADE_CREATED payload)
               (24 + (2 ^ 32 - 24)))
      with 0 by reflexivity.
    reflexivity.
  - rewrite createTestEvent_layout. cbv zeta.
    rewrite (wrap32_small (Z.of_nat (length payload))) by lia. rewrite Hlen.
    rewrite app_assoc.
    replace (Z.to_nat (24 + (2 ^ 32 - 24)))
      with (length (header_bytes 1 1000 TRADE_CREATED (2 ^ 32 - 24) ++ payload))
      by (rewrite length_app, length_header_bytes; lia).
    rewrite take_app_length. exact Hcrc.
Qed.

Lemma huge_count_value : Z.of_nat huge_count = 2 ^ 32 - 28.
Proof. unfold huge_count. apply Z2Nat.id. lia. Qed.

(** C2 fails on the code: [huge_event] has a payload of [2^32 - 24] bytes
    (below 2^32) and fields in range.  On its record as the format lays it
    out, with the CRC32 of the [2^32] bytes before it, which is [0xFFFFFFFF],
    [parse] reads inside the record and throws [CorruptedEventException]: the
    recomputed CRC covers [(24 + payload_length) mod 2^32 = 0] bytes and is 0.
    On the record the test helper [createTestEvent] writes, whose CRC goes
    through the same 32-bit length, [parse] returns the event with [crc32]
    0, which is not the CRC32 of the first [24 + payload_length] bytes. *)
Theorem parse_serialize_huge_payload_crc_mismatch :
  Z.of_nat (length (payload huge_event)) = 2 ^ 32 - 24
  /\ 0 <= sequence_num huge_event < 2 ^ 64
  /\ 0 <= timestamp_ns huge_event < 2 ^ 64
  /\ parse_in_bounds (serialize_record huge_event)
       (Z.of_nat (length (serialize_record huge_event))) = true
  /\ parse (serialize_record huge_event)
       (Z.of_nat (length (serialize_record huge_event)))
     = Throw (CorruptedEventException 0 4294967295)
  /\ parse (serialize huge_event) (Z.of_nat (length (serialize huge_event)))
     = Ok {| sequence_num := 1; timestamp_ns := 1000; event_type := TRADE_CREATED;
             payload := payload huge_event; crc32 := 0 |}
  /\ zlib_crc32 0
       (Some (take (Z.to_nat (24 + Z.of_nat (length (payload huge_event))))
                (serialize huge_event)))
     = 4294967295.
Proof.
  pose proof huge_count_value as Hn.
  assert (Hlen : Z.of_nat (length (payload huge_event)) = 2 ^ 32 - 24).
  { change (payload huge_event) with ([xe6; x8a; x16; x05] ++ replicate huge_count x00).
    rewrite length_app, length_replicate. cbn [length]. lia. }
  split; [exact Hlen|]. split; [cbn; lia|]. split; [cbn; lia|].
  assert (H28 : 28 <= Z.of_nat (length (serialize_record huge_event))).
  { unfold serialize_record. cbv zeta.
    rewrite !length_app, length_header_bytes, length_le_bytes. lia. }
  destruct (parse_zero_state_record huge_count _ Hn H28) as [Hin Hthrow].
  destruct (parse_zero_state_test_record huge_count Hn) as [Hok Hcrc].
  split; [exact Hin|]. split; [exact Hthrow|]. split; [exact Hok | exact Hcrc].
Qed.

(** ** Truncated records *)

Lemma byte_at_lookup (data : list byte) (i : nat) :
  byte_at data i = default x00 (data !! i).
Proof. unfold byte_at. apply nth_lookup. Qed.

(** The length field of a record survives any truncation that keeps the
    24 header bytes. *)
Lemma readUint32LE_drop_take (data : list byte) (n k : nat) :
  (n + 4 <= k)%nat ->
  readUint32LE (drop n (take k data)) = readUint32LE (drop n data).
Proof.
  intros Hk. unfold readUint32LE. rewrite !byte_at_lookup, !lookup_drop.
  rewrite !lookup_take_lt by lia. reflexivity.
Qed.

(** Truncation below the wrap: when [28 + payload_length] fits 32 bits, every
    proper prefix of a record is refused by one of the two length guards. *)
Lemma parse_truncated_below_wrap (data : list byte) (k : nat) :
  let payload_length := readUint32LE (drop 20 data) in
  Z.of_nat (length data) = 28 + payload_length ->
  payload_length < 2 ^ 32 - 28 ->
  (k < length data)%nat ->
  parse (take k data) (Z.of_nat k)
  = Throw (ParseException
             (if Z.of_nat k <? 28 then InsufficientRecordData
              else InsufficientData (28 + payload_length) (Z.of_nat k))).
Proof.
  intros payload_length Hlen Hsmall Hk. unfold parse.
  destruct (Z.ltb_spec (Z.of_nat k) 28) as [|H28]; [reflexivity|].
  cbn [throw_if mbind Result_bind].
  rewrite readUint32LE_drop_take by lia. fold payload_length.
  pose proof (readUint32LE_range (drop 20 data)) as Hr. fold payload_length in Hr.
  rewrite (wrap32_small (28 + payload_length)) by lia.
  destruct (Z.ltb_spec (Z.of_nat k) (28 + payload_length)); [reflexivity | lia].
Qed.

(** A [ParseException] comes from one of the two length guards, before any
    byte past the header is read. *)
Lemma parse_ParseException_reads (data : list byte) (length : Z) (e : ParseError) :
  parse data length = Throw (ParseException e) -> parse_reads data length <= 24.
Proof.
  unfold parse, parse_reads.
  destruct (length <? 28); [lia|]. cbn [throw_if mbind Result_bind].
  destruct (length <? wrap32 (28 + readUint32LE (drop 20 data))); [lia|].
  cbn [throw_if mbind Result_bind].
  destruct (negb _); cbn [throw_if mbind Result_bind]; discriminate.
Qed.

(** The first 28 bytes of the record of an event with the payload of
    [huge_event]: the header with the length field [2^32 - 24], and four
    payload bytes. *)
Lemma take_28_zero_state (n : nat) :
  Z.of_nat n = 2 ^ 32 - 28 ->
  let e := {| sequence_num := 1; timestamp_ns := 1000; event_type := TRADE_CREATED;
              payload := [xe6; x8a; x16; x05] ++ replicate n x00; crc32 := 0 |} in
  Z.of_nat (length (serialize_record e)) = 28 + (2 ^ 32 - 24)
  /\ take 28 (serialize_record e)
     = header_bytes 1 1000 TRADE_CREATED (2 ^ 32 - 24) ++ [xe6; x8a; x16; x05].
Proof.
  intros Hn e. unfold serialize_record. subst e.
  cbn [sequence_num timestamp_ns event_type payload]. cbv zeta.
  replace (Z.of_nat (length ([xe6; x8a; x16; x05] ++ replicate n x00)))
    with (2 ^ 32 - 24) by (rewrite length_app, length_replicate; cbn [length]; lia).
  set (header := header_bytes 1 1000 TRADE_CREATED (2 ^ 32 - 24)).
  split.
  - rewrite !length_app, length_replicate, length_le_bytes.
    change (length header) with 24%nat. cbn [length]. lia.
  - rewrite <- !app_assoc. rewrite take_app. change (length header) with 24%nat.
    change (take 28 header) with header. reflexivity.
Qed.

(** The length field of a serialized record. *)
Lemma createTestEvent_length_field (seq ts : Z) (type : EventType) (payload : list byte) :
  readUint32LE (drop 20 (createTestEvent seq ts type payload))
  = wrap32 (Z.of_nat (length payload)).
Proof.
  rewrite createTestEvent_layout. cbn zeta. unfold header_bytes.
  set (len := wrap32 (Z.of_nat (length payload))).
  set (tail := payload ++ _).
  change (drop 20 ((le_bytes 8 seq ++ le_bytes 8 ts ++ [type; x00; x00; x00]
                    ++ le_bytes 4 len) ++ tail))
    with (le_bytes 4 len ++ tail).
  apply readUint32LE_le_bytes. subst len. unfold wrap32. apply Z.mod_pos_bound. lia.
Qed.

(** C3 fails on the code: the record of [huge_event] is well formed, with
    length field [2^32 - 24] and total length [L = 28 + (2^32 - 24)], and
    [k = 28 < L].  On its first 28 bytes, with length 28, [parse] throws no
    [ParseException]: the second guard compares 28 with
    [(28 + payload_length) mod 2^32 = 4] and lets the input through.  The
    call goes on to copy [payload_length] bytes and to read the stored CRC,
    [28 + payload_length] bytes in all, from a buffer of 28: it reads past
    the end of its input, which is undefined. *)
Theorem parse_truncated_huge_record_passes_guards :
  let record := serialize_record huge_event in
  let first_k := take 28 record in
  Z.of_nat (length record) = 28 + (2 ^ 32 - 24)
  /\ readUint32LE (drop 20 record) = 2 ^ 32 - 24
  /\ Z.of_nat (length first_k) = 28
  /\ (forall e, parse first_k 28 <> Throw (ParseException e))
  /\ parse_reads first_k 28 = 28 + (2 ^ 32 - 24)
  /\ parse_in_bounds first_k 28 = false.
Proof.
  pose proof huge_count_value as Hn.
  destruct (take_28_zero_state huge_count Hn) as [Hlen Htake].
  change {| sequence_num := 1; timestamp_ns := 1000; event_type := TRADE_CREATED;
            payload := [xe6; x8a; x16; x05] ++ replicate huge_count x00; crc32 := 0 |}
    with huge_event in Hlen, Htake.
  cbv zeta. rewrite Htake.
  set (first_k := header_bytes 1 1000 TRADE_CREATED (2 ^ 32 - 24) ++ [xe6; x8a; x16; x05]).
  assert (Hreads : parse_reads first_k 28 = 28 + (2 ^ 32 - 24))
    by (vm_compute; reflexivity).
  split; [exact Hlen|]. split.
  { rewrite <- (readUint32LE_drop_take _ 20 28) by lia. rewrite Htake.
    vm_compute. reflexivity. }
  split; [reflexivity|]. split.
  { intros e He. apply parse_ParseException_reads in He. rewrite Hreads in He. lia. }
  split; [exact Hreads|].
  unfold parse_in_bounds. rewrite Hreads. reflexivity.
Qed.

(** ** EventParser: the file header *)

(** C5, as stated, fails: [parseFileHeader] accepts a 16-byte header whose
    reserved field is not zero. *)
Lemma parseFileHeader_accepts_nonzero_reserved :
  exists h, parseFileHeader header_reserved_one 16 = Ok h /\ reserved h <> 0.
Proof.
  exists {| magic := EXPECTED_MAGIC; version := EXPECTED_VERSION; reserved := 1 |}.
  split; [vm_compute; reflexivity | simpl; lia].
Qed.

(** C5 (amended): given at least 16 bytes, [parseFileHeader] succeeds exactly
    when the magic is [0x54524144] and the version is 1, returning the three
    fields as read (the reserved field is read and not checked); when the magic
    or the version differs it throws a [ParseException]. *)
Theorem parseFileHeader_checks_magic_and_version (data : list byte) (length : Z) :
  FileHeader_SIZE <= length ->
  let m := readUint32LE data in
  let v := readUint32LE (drop 4 data) in
  ((exists h, parseFileHeader data length = Ok h)
     <-> m = EXPECTED_MAGIC /\ v = EXPECTED_VERSION)
  /\ (m = EXPECTED_MAGIC /\ v = EXPECTED_VERSION ->
      parseFileHeader data length
      = Ok {| magic := m; version := v; reserved := readUint64LE (drop 8 data) |})
  /\ (~ (m = EXPECTED_MAGIC /\ v = EXPECTED_VERSION) ->
      parseFileHeader data length = Throw (ParseException (InvalidFileHeader m v))).
Proof.
  intros Hlen m v. unfold parseFileHeader.
  assert (Hguard : (length <? FileHeader_SIZE) = false) by (apply Z.ltb_ge; exact Hlen).
  rewrite Hguard. cbn [throw_if mbind Result_bind].
  unfold isValid. cbn [magic version]. fold m v.
  destruct (Z.eqb_spec m EXPECTED_MAGIC) as [Hm|Hm],
           (Z.eqb_spec v EXPECTED_VERSION) as [Hv|Hv];
    cbn [andb negb throw_if].
  - split; [split; [tauto | eauto] | split; [reflexivity | tauto]].
  - split; [split; [intros [h ?]; discriminate | tauto] | split; [tauto | reflexivity]].
  - split; [split; [intros [h ?]; discriminate | tauto] | split; [tauto | reflexivity]].
  - split; [split; [intros [h ?]; discriminate | tauto] | split; [tauto | reflexivity]].
Qed.

Lemma parseFileHeader_checks_magic_and_version_witness :
  exists h, parseFileHeader header_reserved_one 16 = Ok h.
Proof.
  apply (parseFileHeader_checks_magic_and_version header_reserved_one 16).
  - unfold FileHeader_SIZE. lia.
  - split; vm_compute; reflexivity.
Defined.

(** ** Processor: the exit status *)

(** C7, as stated, fails: when the producer's body throws, the handler records
    the error, and [main] still returns 0. *)
Lemma main_returns_zero_after_error :
  let '(status, g) :=
    Processor.main (Throw (runtime_error "Failed to open file")) (Ok tt) in
  Processor.error_recorded g = true /\ status = 0.
Proof. split; reflexivity. Qed.

(** C7 (amended): [main] returns 0 on every path that reaches its end, on a
    clean shutdown as well as after an error was recorded on a worker thread;
    an error is recorded exactly when a worker's body threw, and it only
    clears the shutdown flag and writes to [std::cerr]. *)
Theorem main_always_returns_zero (producer_body consumer_body : Result unit) :
  let '(status, g) := Processor.main producer_body consumer_body in
  status = 0
  /\ Processor.g_running g = false
  /\ (Processor.error_recorded g = true
      <-> (exists e, producer_body = Throw e) \/ (exists e, consumer_body = Throw e)).
Proof.
  unfold Processor.main.
  destruct producer_body as [[]|ep], consumer_body as [[]|ec];
    cbn; (split; [reflexivity|]); (split; [reflexivity|]).
  - split; [discriminate | intros [[e ?]|[e ?]]; discriminate].
  - split; [eauto | reflexivity].
  - split; [eauto | reflexivity].
  - split; [eauto | reflexivity].
Qed.

(** ** EventLogReader *)

Module ReaderFacts.
Import EventLogReader ReaderInputs.

(** [open] sets [is_open_] only on its last line: a call that throws leaves
    the reader unopened. *)
Lemma open_throws_not_open (env : Env) (r : Reader) (e : Exception) :
  is_open_ r = false ->
  fst (open env r) = Throw e ->
  is_open_ (snd (open env r)) = false.
Proof.
  intros Hclosed. unfold open.
  destruct (sys_open env) as [fd|]; [|intros _; exact Hclosed].
  destruct (sys_fstat env) as [st_size|]; [|intros _; exact Hclosed].
  cbn [file_size_ mapped_data_].
  destruct (st_size <? FileHeader_SIZE); [intros _; exact Hclosed|].
  destruct (mmap env st_size) as [| |bytes]; cbn [mapping_bytes].
  - destruct (parseFileHeader [] FileHeader_SIZE); [discriminate | intros _; exact Hclosed].
  - intros _; exact Hclosed.
  - destruct (parseFileHeader bytes FileHeader_SIZE); [discriminate | intros _; exact Hclosed].
Qed.

(** C10: on a reader that is not open, [readNext] throws "Reader not open"
    and leaves the reader and the caller's event as they were, and
    [remapIfGrown] returns false, also leaving the reader as it was. *)
Theorem unopened_reader_readNext_throws_remap_false
    (r : Reader) (event : Event) (env : Env) :
  is_open_ r = false ->
  readNext r event = (Throw (runtime_error "Reader not open"), r, event)
  /\ remapIfGrown env r = (Ok false, r).
Proof.
  intros Hclosed. unfold readNext, remapIfGrown. rewrite Hclosed. split; reflexivity.
Qed.

Lemma unopened_reader_readNext_throws_remap_false_witness :
  readNext unopened_reader no_event
    = (Throw (runtime_error "Reader not open"), unopened_reader, no_event)
  /\ remapIfGrown env_grown_mmap_fails unopened_reader = (Ok false, unopened_reader).
Proof.
  apply (unopened_reader_readNext_throws_remap_false
           unopened_reader no_event env_grown_mmap_fails).
  reflexivity.
Defined.

(** C4: on a well-formed reader, a [readNext] that returns true advances the
    offset by exactly 28 plus the payload length of the record it read (the
    length field at the old offset, which is the size of the returned
    payload), staying within the mapped size; in every other outcome (false at
    EOF or on a partial record, any exception, a CRC mismatch among them) the
    reader, its offset included, and the caller's event are unchanged. *)
Theorem readNext_offset (r : Reader) (event : Event) :
  well_formed r ->
  let '(res, r', event') := readNext r event in
  match res with
  | Ok true =>
      offset_ r' = offset_ r + 28 + Z.of_nat (length (payload event'))
      /\ readUint32LE (drop 20 (drop (Z.to_nat (offset_ r)) (mapping_bytes (mapped_data_ r))))
         = Z.of_nat (length (payload event'))
      /\ offset_ r' <= file_size_ r'
      /\ file_size_ r' = file_size_ r
  | _ => offset_ r' = offset_ r /\ r' = r /\ event' = event
  end.
Proof.
  intros (Hsize & Hoff & Hmax). unfold readNext.
  destruct (is_open_ r); cbn [negb]; [|auto].
  destruct (Z.geb_spec (offset_ r) (file_size_ r)) as [|Hlt]; [auto|].
  rewrite wrap64_small by lia.
  destruct (Z.gtb_spec (offset_ r + 24) (file_size_ r)) as [|Hhdr]; [auto|].
  set (data := drop (Z.to_nat (offset_ r)) (mapping_bytes (mapped_data_ r))).
  pose proof (readUint32LE_range (drop 20 data)) as Hpl.
  set (payload_length := readUint32LE (drop 20 data)) in *.
  assert (Htot : 0 <= wrap32 (28 + payload_length) < 2 ^ 32)
    by (apply Z.mod_pos_bound; lia).
  rewrite wrap64_small by lia.
  destruct (Z.gtb_spec (offset_ r + wrap32 (28 + payload_length)) (file_size_ r))
    as [|Hfit]; [auto|].
  destruct (parse data (wrap32 (28 + payload_length))) as [ev|e] eqn:Hparse; [|auto].
  apply parse_Ok_inv in Hparse. fold payload_length in Hparse.
  destruct Hparse as (H28 & _ & _ & ->). cbn [offset_ file_size_ payload].
  assert (Hnowrap : wrap32 (28 + payload_length) = 28 + payload_length).
  { unfold wrap32 in *.
    destruct (Z.lt_ge_cases (28 + payload_length) (2 ^ 32)) as [Hs|Hb].
    - apply Z.mod_small. lia.
    - exfalso.
      replace (28 + payload_length)
        with (28 + payload_length - 2 ^ 32 + 1 * 2 ^ 32) in H28 by lia.
      rewrite Z.mod_add in H28 by lia. rewrite Z.mod_small in H28 by lia. lia. }
  rewrite Hnowrap in *.
  assert (Hlen : length (take (Z.to_nat payload_length) (drop 24 data)) = Z.to_nat payload_length).
  { rewrite length_take, length_drop. unfold data. rewrite length_drop. lia. }
  rewrite Hlen. lia.
Qed.

Lemma readNext_offset_witness :
  let '(res, r', event') := readNext one_record_reader no_event in
  match res with
  | Ok true =>
      offset_ r' = offset_ one_record_reader + 28 + Z.of_nat (length (payload event'))
      /\ readUint32LE (drop 20 (drop (Z.to_nat (offset_ one_record_reader))
                                   (mapping_bytes (mapped_data_ one_record_reader))))
         = Z.of_nat (length (payload event'))
      /\ offset_ r' <= file_size_ r'
      /\ file_size_ r' = file_size_ one_record_reader
  | _ => offset_ r' = offset_ one_record_reader /\ r' = one_record_reader
         /\ event' = no_event
  end.
Proof.
  apply (readNext_offset one_record_reader no_event).
  repeat split; vm_compute; (reflexivity || discriminate).
Defined.

(** Scenario S1 of the spec: the record is read and the offset moves from 16
    to 53; scenario S4: with the last byte flipped the read throws a CRC
    mismatch and the offset stays at 16. *)
Example readNext_one_record :
  let '(res, r', event') := readNext one_record_reader no_event in
  res = Ok true /\ offset_ r' = 53 /\ sequence_num event' = 1
  /\ timestamp_ns event' = 1000 /\ payload event' = payload_seq1.
Proof. vm_compute. repeat split; reflexivity. Qed.

Example readNext_corrupted_record :
  let '(res, r', event') := readNext corrupted_record_reader no_event in
  (exists c s, res = Throw (CorruptedEventException c s)) /\ offset_ r' = 16.
Proof. vm_compute. split; [eauto | reflexivity]. Qed.

(** [well_formed] is an invariant: [open] establishes it when the system's
    answers agree with the file, and [readNext] keeps it. *)
Lemma open_well_formed (env : Env) (r : Reader) (st_size : Z) :
  sys_fstat env = Some st_size ->
  st_size <= Z.of_nat (length (sys_file env)) -> st_size < 2 ^ 63 ->
  fst (open env r) = Ok tt ->
  well_formed (snd (open env r)) /\ is_open_ (snd (open env r)) = true
  /\ offset_ (snd (open env r)) = 16.
Proof.
  intros Hstat Hfile Hmax. unfold open. rewrite Hstat.
  destruct (sys_open env) as [fd|]; [|discriminate].
  cbn [file_size_ mapped_data_].
  destruct (Z.ltb_spec st_size FileHeader_SIZE) as [|Hsize]; [discriminate|].
  unfold mmap. destruct (sys_mmap_ok env); [|discriminate].
  cbn [mapping_bytes].
  destruct (parseFileHeader _ FileHeader_SIZE); [|discriminate].
  intros _. cbn [fst snd]. unfold well_formed, FileHeader_SIZE in *.
  cbn [mapped_data_ mapping_bytes file_size_ offset_ is_open_].
  rewrite length_take. repeat split; lia.
Qed.

Lemma readNext_well_formed (r : Reader) (event : Event) :
  well_formed r -> well_formed (snd (fst (readNext r event))).
Proof.
  intros Hwf. unfold readNext.
  repeat match goal with
         | |- context [if ?c then _ else _] => destruct c
         | |- context [match ?c with Ok _ => _ | Throw _ => _ end] => destruct c
         end; cbn [fst snd]; try assumption.
  destruct Hwf as (Hlen & Hoff & Hmax). unfold well_formed.
  cbn [mapped_data_ file_size_ offset_].
  split; [assumption|]. split; [|assumption].
  unfold wrap64. apply Z.mod_pos_bound. lia.
Qed.

(** [remapIfGrown] keeps it as well, for a size that fits the file. *)
Lemma remapIfGrown_well_formed (env : Env) (r : Reader) (new_size : Z) :
  sys_fstat env = Some new_size ->
  new_size <= Z.of_nat (length (sys_file env)) -> new_size < 2 ^ 63 ->
  well_formed r ->
  fst (remapIfGrown env r) = Ok true ->
  well_formed (snd (remapIfGrown env r)).
Proof.
  intros Hstat Hfile Hmax (Hlen & Hoff & Hsize). unfold remapIfGrown. rewrite Hstat.
  destruct (is_open_ r); cbn [negb]; [|discriminate].
  destruct (Z.leb_spec new_size (file_size_ r)); [discriminate|].
  destruct (sys_munmap_ok env); cbn [negb]; [|discriminate].
  unfold mmap. destruct (sys_mmap_ok env); cbn [mapped_data_]; [|discriminate].
  intros _. cbn [snd]. unfold well_formed.
  cbn [mapped_data_ mapping_bytes file_size_ offset_].
  rewrite length_take. repeat split; lia.
Qed.

(** C6, as stated, fails: the file has grown (44 > 16) and the call does not
    return true, because the re-map fails and the call throws. *)
Lemma remapIfGrown_grown_but_throws :
  is_open_ opened_reader = true
  /\ sys_fstat env_grown_mmap_fails = Some 44
  /\ 44 > file_size_ opened_reader
  /\ fst (remapIfGrown env_grown_mmap_fails opened_reader) <> Ok true.
Proof.
  repeat split; try reflexivity. vm_compute. discriminate.
Qed.

(** C6 (amended): for an open reader, [remapIfGrown] returns true exactly when
    [fstat] succeeds with a size above the mapped size and both [munmap] and
    [mmap] succeed; it returns false exactly when [fstat] fails or the size is
    not above the mapped size; otherwise it throws.  In every case the read
    offset, the descriptor, the header and the open flag are unchanged. *)
Theorem remapIfGrown_result_and_frame (env : Env) (r : Reader) :
  is_open_ r = true ->
  let '(res, r') := remapIfGrown env r in
  (res = Ok true
     <-> exists new_size, sys_fstat env = Some new_size /\ new_size > file_size_ r
           /\ sys_munmap_ok env = true /\ sys_mmap_ok env = true)
  /\ (res = Ok false
     <-> sys_fstat env = None
         \/ exists new_size, sys_fstat env = Some new_size /\ new_size <= file_size_ r)
  /\ (res = Ok true -> Some (file_size_ r') = sys_fstat env)
  /\ (res = Ok false -> r' = r)
  /\ offset_ r' = offset_ r
  /\ fd_ r' = fd_ r /\ file_header_ r' = file_header_ r /\ is_open_ r' = is_open_ r
  /\ log_path_ r' = log_path_ r.
Proof.
  intros Hopen. unfold remapIfGrown. rewrite Hopen. cbn [negb].
  destruct (sys_fstat env) as [new_size|]; [|close_case].
  destruct (Z.leb_spec new_size (file_size_ r)) as [Hle|Hgt]; [close_case|].
  destruct (sys_munmap_ok env) eqn:Hunmap; cbn [negb]; [|close_case].
  unfold mmap. destruct (sys_mmap_ok env) eqn:Hmap; cbn [mapped_data_];
    close_case.
  exists new_size. repeat split; lia.
Qed.

Lemma remapIfGrown_result_and_frame_witness :
  offset_ (snd (remapIfGrown env_grown_mmap_fails opened_reader)) = offset_ opened_reader.
Proof.
  pose proof (remapIfGrown_result_and_frame env_grown_mmap_fails opened_reader) as H.
  destruct (remapIfGrown env_grown_mmap_fails opened_reader) as [res r'].
  apply H. reflexivity.
Defined.

End ReaderFacts.

(** ** LatencyHistogram *)

Module HistogramFacts.
Import LatencyHistogram.

Lemma total_nonneg (m : list (Z * Z)) :
  Forall (fun e => 1 <= snd e) m -> 0 <= total m.
Proof.
  induction 1 as [|[k c] m He _ IH]; cbn in *; lia.
Qed.

Lemma incr_keys (x : Z) (m : list (Z * Z)) (y : Z) :
  In y (keys (incr x m)) <-> y = x \/ In y (keys m).
Proof.
  induction m as [|[k c] m IH]; cbn.
  - intuition congruence.
  - destruct (Z.ltb_spec x k); [cbn; intuition congruence|].
    destruct (Z.eqb_spec x k) as [->|]; cbn; [intuition congruence|].
    unfold keys in IH. rewrite IH. intuition congruence.
Qed.

Lemma incr_total (x : Z) (m : list (Z * Z)) :
  Forall (fun e => 1 <= snd e) m -> total m + 1 < 2 ^ 64 ->
  total (incr x m) = total m + 1 /\ Forall (fun e => 1 <= snd e) (incr x m).
Proof.
  induction 1 as [|[k c] m He Hm IH]; cbn [incr total]; intros Hlt.
  - split; [lia|]. repeat constructor. cbn. lia.
  - pose proof (total_nonneg m Hm) as Hnn. cbn [snd] in He.
    destruct (Z.ltb_spec x k).
    + cbn [total]. split; [lia|].
      repeat constructor; cbn; try lia; assumption.
    + destruct (Z.eqb_spec x k) as [->|]; cbn [total].
      * rewrite wrap64_small by lia. split; [lia|].
        constructor; [cbn; lia | assumption].
      * destruct IH as [-> IH2]; [lia|].
        split; [lia|]. constructor; assumption.
Qed.

Lemma incr_sorted (x : Z) (m : list (Z * Z)) :
  StronglySorted Z.lt (keys m) -> StronglySorted Z.lt (keys (incr x m)).
Proof.
  induction m as [|[k c] m IH]; cbn [incr keys map fst]; intros Hs.
  - repeat constructor.
  - apply StronglySorted_inv in Hs. destruct Hs as [Hs Hall]. fold (keys m) in *.
    destruct (Z.ltb_spec x k).
    + cbn [map fst]. constructor.
      * constructor; assumption.
      * constructor; [assumption|]. fold (keys m).
        eapply Forall_impl; [exact Hall|]. cbn. intros; lia.
    + destruct (Z.eqb_spec x k) as [->|]; cbn [map fst]; fold (keys m).
      * constructor; assumption.
      * fold (keys (incr x m)). constructor; [apply IH; assumption|].
        apply List.Forall_forall. intros y Hy. apply incr_keys in Hy.
        destruct Hy as [->|Hy]; [lia|].
        rewrite List.Forall_forall in Hall. apply Hall. assumption.
Qed.

Lemma recorded_snoc (ls : list Z) (x : Z) :
  recorded (ls ++ [x]) = record x (recorded ls).
Proof. unfold recorded. rewrite fold_left_app. reflexivity. Qed.

(** The state after recording [ls], as long as the count fits a [size_t]. *)
Lemma recorded_spec (ls : list Z) :
  Z.of_nat (length ls) < 2 ^ 64 ->
  tally_ok (samples_ (recorded ls))
  /\ total (samples_ (recorded ls)) = Z.of_nat (length ls)
  /\ total_count_ (recorded ls) = Z.of_nat (length ls)
  /\ (forall y, In y (keys (samples_ (recorded ls))) <-> In y ls).
Proof.
  induction ls as [|x ls IH] using rev_ind; intros Hlen.
  - cbn. repeat split; try tauto; constructor.
  - rewrite length_app in Hlen. cbn [length] in Hlen.
    destruct IH as ((Hsorted & Hpos) & Htotal & Hcount & Hkeys); [lia|].
    rewrite recorded_snoc, length_app. cbn [record samples_ total_count_ length].
    destruct (incr_total x (samples_ (recorded ls)) Hpos) as [Htot' Hpos']; [lia|].
    split; [split; [apply incr_sorted; assumption | assumption]|].
    split; [lia|]. split; [rewrite wrap64_small; lia|].
    intros y. rewrite incr_keys, Hkeys, in_app_iff. cbn. intuition congruence.
Qed.

Lemma last_cons_default {A : Type} (l : list A) (a d : A) :
  List.last (a :: l) d = List.last l a.
Proof.
  revert a d. induction l as [|b l IH]; intros a d; [reflexivity|].
  change (List.last (a :: b :: l) d) with (List.last (b :: l) d).
  rewrite (IH b d), (IH b a). reflexivity.
Qed.

Lemma percentile_loop_cons (k c : Z) (m : list (Z * Z)) (cumulative target_index : Z) :
  percentile_loop ((k, c) :: m) cumulative target_index
  = if wrap64 (cumulative + c) >? target_index then Some k
    else percentile_loop m (wrap64 (cumulative + c)) target_index.
Proof. reflexivity. Qed.

(** With every count at least 1 and [target_index] the last index, the loop
    of [percentile] returns at the last entry. *)
Lemma percentile_loop_last (m : list (Z * Z)) (e : Z * Z) (cumulative : Z) :
  Forall (fun e => 1 <= snd e) (e :: m) ->
  0 <= cumulative -> cumulative + total (e :: m) < 2 ^ 64 ->
  percentile_loop (e :: m) cumulative (cumulative + total (e :: m) - 1)
  = Some (fst (List.last m e)).
Proof.
  revert e cumulative. induction m as [|e' m IH]; intros [k c] cumulative Hpos Hc Hlt.
  - apply Forall_inv in Hpos. cbn in *. rewrite wrap64_small by lia.
    destruct (Z.gtb_spec (cumulative + c) (cumulative + (c + 0) - 1)); [reflexivity | lia].
  - pose proof (Forall_inv Hpos) as Hk. apply Forall_inv_tail in Hpos.
    pose proof (total_nonneg _ Hpos) as Hnn. pose proof (Forall_inv Hpos) as He'.
    cbn [snd] in Hk. rewrite percentile_loop_cons.
    change (total ((k, c) :: e' :: m)) with (c + total (e' :: m)) in *.
    rewrite wrap64_small by lia.
    assert (Hpos1 : 1 <= total (e' :: m)).
    { destruct e' as [k' c']. cbn [total snd] in *.
      pose proof (total_nonneg m (Forall_inv_tail Hpos)). lia. }
    destruct (Z.gtb_spec (cumulative + c) (cumulative + (c + total (e' :: m)) - 1)); [lia|].
    replace (cumulative + (c + total (e' :: m)) - 1)
      with (cumulative + c + total (e' :: m) - 1) by lia.
    rewrite IH by (assumption || lia). rewrite last_cons_default. reflexivity.
Qed.

(** The last key of a strictly ascending list is its largest. *)
Lemma last_key_largest (m : list (Z * Z)) (e : Z * Z) :
  StronglySorted Z.lt (keys (e :: m)) ->
  In (fst (List.last m e)) (keys (e :: m))
  /\ Forall (fun y => y <= fst (List.last m e)) (keys (e :: m)).
Proof.
  revert e. induction m as [|e' m IH]; intros e Hs.
  - cbn. split; [tauto|]. repeat constructor. lia.
  - apply StronglySorted_inv in Hs. destruct Hs as [Hs Hall].
    destruct (IH e' Hs) as [Hin Hle].
    rewrite last_cons_default.
    split; [right; assumption|].
    constructor; [|assumption].
    rewrite List.Forall_forall in Hall. specialize (Hall _ Hin). cbn in Hall. lia.
Qed.

(** The state after recording [n] times [x], then once a larger [y]. *)
Lemma recorded_replicate (n : nat) (x : Z) :
  (0 < n)%nat -> Z.of_nat n < 2 ^ 64 ->
  samples_ (recorded (replicate n x)) = [(x, Z.of_nat n)]
  /\ total_count_ (recorded (replicate n x)) = Z.of_nat n.
Proof.
  induction n as [|n IH]; intros Hpos Hlen; [lia|].
  destruct n as [|n]; [split; reflexivity|].
  destruct IH as [Hs Hc]; [lia | lia|].
  rewrite replicate_S_end, recorded_snoc. cbn [record samples_ total_count_].
  rewrite Hs, Hc. cbn [incr]. rewrite Z.ltb_irrefl, Z.eqb_refl.
  rewrite wrap64_small by lia.
  replace (Z.of_nat (S n) + 1) with (Z.of_nat (S (S n))) by lia.
  split; reflexivity.
Qed.

Lemma recorded_replicate_then (n : nat) (x y : Z) :
  (0 < n)%nat -> Z.of_nat n + 1 < 2 ^ 64 -> x < y ->
  samples_ (recorded (replicate n x ++ [y])) = [(x, Z.of_nat n); (y, 1)]
  /\ total_count_ (recorded (replicate n x ++ [y])) = Z.of_nat n + 1.
Proof.
  intros Hpos Hlen Hxy.
  destruct (recorded_replicate n x Hpos ltac:(lia)) as [Hs Hc].
  rewrite recorded_snoc. cbn [record samples_ total_count_].
  rewrite Hs, Hc. cbn [incr].
  destruct (Z.ltb_spec y x); [lia|]. destruct (Z.eqb_spec y x); [lia|].
  rewrite wrap64_small by lia. split; reflexivity.
Qed.

Lemma many_count_value : Z.of_nat many_count = 2 ^ 54 + 1.
Proof. unfold many_count. apply Z2Nat.id. lia. Qed.

(** C9 fails on the code.  The first half holds: on a histogram with no
    samples (cleared, or fresh), [percentile p] for every double [p], NaN and
    the infinities included, [min], [max] and [mean] all return 0.  The clamp
    does not hold for any state: after [2^54 + 1] samples of 1 ns and one of
    2 ns the count, [2^54 + 2], is not a double; [p * total_count_] with
    [p = 1.0] is computed as [2^54], which is below the count, so the index
    is not clamped, and [percentile(1.0)] returns 1 where the largest
    recorded sample, and [max()], is 2. *)
Theorem percentile_clamp_misses_max :
  (forall (h : LatencyHistogram.t) (p : double),
     percentile p (clear h) = Some 0 /\ min (clear h) = 0
     /\ max (clear h) = 0 /\ mean (clear h) = 0)
  /\ (forall p : double,
       percentile p (recorded []) = Some 0 /\ min (recorded []) = 0
       /\ max (recorded []) = 0 /\ mean (recorded []) = 0)
  /\ count (recorded many_latencies) = 2 ^ 54 + 2
  /\ In 2 many_latencies
  /\ max (recorded many_latencies) = 2
  /\ double_mul double_1 (double_of_size_t (2 ^ 54 + 2)) = double_of_size_t (2 ^ 54)
  /\ percentile double_1 (recorded many_latencies) = Some 1.
Proof.
  split; [intros h p; repeat split; reflexivity|].
  split; [intros p; repeat split; reflexivity|].
  pose proof many_count_value as Hn.
  destruct (recorded_replicate_then many_count 1 2) as [Hs Hc]; [lia | lia | lia |].
  fold many_latencies in Hs, Hc. rewrite Hn in Hs, Hc.
  split; [unfold count; rewrite Hc; reflexivity|].
  split; [unfold many_latencies; apply in_or_app; right; left; reflexivity|].
  split; [unfold max; rewrite Hs; reflexivity|].
  split; [vm_compute; reflexivity|].
  unfold percentile, max. rewrite Hs, Hc. vm_compute. reflexivity.
Qed.

(** The histogram of four samples 100, 100, 200, 300 at a few quantiles; the
    product [0.99 * 4] is [3.96] and truncates to index 3. *)
Example percentile_values :
  percentile double_0 (recorded latencies) = Some 100
  /\ percentile double_0_5 (recorded latencies) = Some 200
  /\ percentile double_0_99 (recorded latencies) = Some 300
  /\ percentile double_1 (recorded latencies) = Some 300
  /\ mean (recorded latencies) = 175.
Proof. vm_compute. repeat split; reflexivity. Qed.

End HistogramFacts.

(** * More properties *)

(** ** EventParser: more on the readers and on [parse] *)

Lemma readUint16LE_sum (data : list byte) :
  readUint16LE data = u8 (byte_at data 0) + u8 (byte_at data 1) * 2 ^ 8.
Proof.
  unfold readUint16LE. pose proof (u8_range (byte_at data 0)).
  rewrite (lor_shiftl_add _ _ 8) by lia. reflexivity.
Qed.

Lemma readUint16LE_le_bytes (x : Z) (rest : list byte) :
  0 <= x < 2 ^ 16 -> readUint16LE (le_bytes 2 x ++ rest) = x.
Proof.
  intros Hx. rewrite readUint16LE_sum. unfold le_bytes.
  cbn [seq map app byte_at nth]. rewrite !u8_digit.
  change (Z.of_nat 0 * 8) with 0. change (Z.of_nat 1 * 8) with 8.
  change (2 ^ 0) with 1. change (2 ^ 8) with 256. rewrite Z.div_1_r.
  Z.div_mod_to_equations. lia.
Qed.

(** X1: what [push_le] writes, the readers read back: the 2, 4 or 8 bytes
    appended to [data] for a value that fits them decode to that value,
    whatever follows them. *)
Theorem push_le_read_back (x : Z) (data rest : list byte) :
  (0 <= x < 2 ^ 16 ->
   readUint16LE (drop (length data) (push_le 2 x data ++ rest)) = x)
  /\ (0 <= x < 2 ^ 32 ->
      readUint32LE (drop (length data) (push_le 4 x data ++ rest)) = x)
  /\ (0 <= x < 2 ^ 64 ->
      readUint64LE (drop (length data) (push_le 8 x data ++ rest)) = x).
Proof.
  unfold push_le. rewrite <- !app_assoc, !drop_app_length.
  fold (le_bytes 2 x) (le_bytes 4 x) (le_bytes 8 x).
  split; [|split]; intros Hx.
  - apply readUint16LE_le_bytes. assumption.
  - apply readUint32LE_le_bytes. assumption.
  - apply readUint64LE_le_bytes. assumption.
Qed.

Lemma push_le_read_back_witness :
  readUint32LE (drop (length [x01; x02]) (push_le 4 305419896 [x01; x02] ++ [xff])) = 305419896.
Proof.
  apply (push_le_read_back 305419896 [x01; x02] [xff]). lia.
Defined.

(** X2: the readers return values of their width on every input, also on a
    buffer shorter than the bytes they read. *)
Theorem readers_range (data : list byte) :
  0 <= readUint16LE data < 2 ^ 16
  /\ 0 <= readUint32LE data < 2 ^ 32
  /\ 0 <= readUint64LE data < 2 ^ 64.
Proof.
  rewrite readUint16LE_sum, readUint32LE_sum, readUint64LE_sum.
  pose proof (u8_range (byte_at data 0)). pose proof (u8_range (byte_at data 1)).
  pose proof (u8_range (byte_at data 2)). pose proof (u8_range (byte_at data 3)).
  pose proof (u8_range (byte_at data 4)). pose proof (u8_range (byte_at data 5)).
  pose proof (u8_range (byte_at data 6)). pose proof (u8_range (byte_at data 7)).
  lia.
Qed.

(** X3: round trip.  For an event with 64-bit fields and a payload shorter
    than [2^32 - 24] bytes, [parse] of its serialization, called with the
    serialization's length, returns the event: same sequence number,
    timestamp, type byte (known or not) and payload, with [crc32] the CRC of
    the first [24 + payload_length] bytes; [totalSize] of the result is the
    length of the record. *)
Theorem parse_serialize_round_trip (e : Event) :
  0 <= sequence_num e < 2 ^ 64 -> 0 <= timestamp_ns e < 2 ^ 64 ->
  Z.of_nat (length (payload e)) < 2 ^ 32 - 24 ->
  exists e',
    parse (serialize e) (Z.of_nat (length (serialize e))) = Ok e'
    /\ sequence_num e' = sequence_num e /\ timestamp_ns e' = timestamp_ns e
    /\ event_type e' = event_type e /\ payload e' = payload e
    /\ crc32 e' = calculateCRC32 (serialize e) (24 + Z.of_nat (length (payload e)))
    /\ totalSize e' = Z.of_nat (length (serialize e)).
Proof.
  intros Hseq Hts Hlen. eexists. split.
  - apply parse_serialize_below_wrap; assumption.
  - cbn [sequence_num timestamp_ns event_type payload crc32].
    repeat split. unfold totalSize, serialize. cbn [payload].
    rewrite length_createTestEvent. apply wrap64_small. lia.
Qed.

Lemma parse_serialize_round_trip_witness :
  exists e',
    parse (serialize seq1_event) (Z.of_nat (length (serialize seq1_event))) = Ok e'
    /\ sequence_num e' = sequence_num seq1_event
    /\ timestamp_ns e' = timestamp_ns seq1_event
    /\ event_type e' = event_type seq1_event /\ payload e' = payload seq1_event
    /\ crc32 e'
       = calculateCRC32 (serialize seq1_event)
           (24 + Z.of_nat (length (payload seq1_event)))
    /\ totalSize e' = Z.of_nat (length (serialize seq1_event)).
Proof.
  apply (parse_serialize_round_trip seq1_event); cbn; lia.
Defined.

(** X4: truncation.  For an event whose payload is shorter than [2^32 - 28]
    bytes and every [k] below the record's length, [parse] called with length
    [k], on the first [k] bytes or on the whole record in memory, throws the
    insufficient-data [ParseException]: the first kind below 28 bytes, the
    second, with the expected total, from 28 bytes on.  No CRC is compared. *)
Theorem parse_truncated_record (e : Event) (k : nat) :
  Z.of_nat (length (payload e)) < 2 ^ 32 - 28 ->
  (k < length (serialize e))%nat ->
  let err :=
    ParseException
      (if Z.of_nat k <? 28 then InsufficientRecordData
       else InsufficientData (28 + Z.of_nat (length (payload e))) (Z.of_nat k)) in
  parse (take k (serialize e)) (Z.of_nat k) = Throw err
  /\ parse (serialize e) (Z.of_nat k) = Throw err.
Proof.
  intros Hlen Hk err.
  pose proof (createTestEvent_length_field (sequence_num e) (timestamp_ns e)
                (event_type e) (payload e)) as Hfield.
  rewrite wrap32_small in Hfield by lia. fold (serialize e) in Hfield.
  assert (HL : Z.of_nat (length (serialize e)) = 28 + Z.of_nat (length (payload e)))
    by (unfold serialize; apply length_createTestEvent).
  split.
  - rewrite parse_truncated_below_wrap; rewrite ?Hfield; [reflexivity|lia..].
  - subst err. unfold parse.
    destruct (Z.ltb_spec (Z.of_nat k) 28); [reflexivity|].
    cbn [throw_if mbind Result_bind]. rewrite Hfield.
    rewrite (wrap32_small (28 + Z.of_nat (length (payload e)))) by lia.
    destruct (Z.ltb_spec (Z.of_nat k) (28 + Z.of_nat (length (payload e))));
      [reflexivity | lia].
Qed.

Lemma parse_truncated_record_witness :
  let err :=
    ParseException
      (if Z.of_nat 30 <? 28 then InsufficientRecordData
       else InsufficientData (28 + Z.of_nat (length (payload seq1_event))) (Z.of_nat 30)) in
  parse (take 30 (serialize seq1_event)) (Z.of_nat 30) = Throw err
  /\ parse (serialize seq1_event) (Z.of_nat 30) = Throw err.
Proof.
  apply (parse_truncated_record seq1_event 30); cbn; lia.
Defined.

(** ** CRC32: a changed byte changes the checksum *)

Lemma lxor_range (a b n : Z) :
  0 <= n -> 0 <= a < 2 ^ n -> 0 <= b < 2 ^ n -> 0 <= Z.lxor a b < 2 ^ n.
Proof.
  intros Hn Ha Hb. split; [apply Z.lxor_nonneg; lia|].
  destruct (Z.eq_dec n 0) as [->|Hn0].
  { replace a with 0 by (cbn in Ha; lia). replace b with 0 by (cbn in Hb; lia).
    reflexivity. }
  destruct (Z.eq_dec (Z.lxor a b) 0) as [->|Hne]; [apply Z.pow_pos_nonneg; lia|].
  apply Z.log2_lt_pow2; [pose proof (Z.lxor_nonneg a b); lia|].
  eapply Z.le_lt_trans; [apply Z.log2_lxor; lia|].
  apply Z.max_lub_lt.
  - destruct (Z.eq_dec a 0) as [->|]; [cbn; lia|]. apply Z.log2_lt_pow2; lia.
  - destruct (Z.eq_dec b 0) as [->|]; [cbn; lia|]. apply Z.log2_lt_pow2; lia.
Qed.

Lemma lxor_cancel_r (a b c : Z) : Z.lxor a c = Z.lxor b c -> a = b.
Proof.
  intros H. apply (f_equal (fun z => Z.lxor z c)) in H.
  rewrite !Z.lxor_assoc, Z.lxor_nilpotent, !Z.lxor_0_r in H. exact H.
Qed.

Lemma lxor_cancel_l (a b c : Z) : Z.lxor c a = Z.lxor c b -> a = b.
Proof. rewrite !(Z.lxor_comm c). apply lxor_cancel_r. Qed.

Lemma testbit_high_false (a n : Z) : 0 <= n -> 0 <= a < 2 ^ n -> Z.testbit a n = false.
Proof.
  intros Hn Ha. rewrite <- (Z.mod_small a (2 ^ n)) by assumption.
  apply Z.mod_pow2_bits_high. lia.
Qed.

Lemma crc32_bit_range (c : Z) : 0 <= c < 2 ^ 32 -> 0 <= crc32_bit c < 2 ^ 32.
Proof.
  intros Hc. unfold crc32_bit. rewrite Z.shiftr_div_pow2 by lia.
  assert (0 <= c / 2 ^ 1 < 2 ^ 31) by (change (2 ^ 1) with 2; Z.div_mod_to_equations; lia).
  destruct (Z.testbit c 0); [apply lxor_range; lia | lia].
Qed.

(** Bit 31 of the result tells which branch was taken. *)
Lemma crc32_bit_top (c : Z) :
  0 <= c < 2 ^ 32 -> Z.testbit (crc32_bit c) 31 = Z.testbit c 0.
Proof.
  intros Hc. unfold crc32_bit. rewrite Z.shiftr_div_pow2 by lia.
  assert (Hhalf : 0 <= c / 2 ^ 1 < 2 ^ 31)
    by (change (2 ^ 1) with 2; Z.div_mod_to_equations; lia).
  pose proof (testbit_high_false (c / 2 ^ 1) 31 ltac:(lia) Hhalf) as Htop.
  destruct (Z.testbit c 0); [|exact Htop].
  rewrite Z.lxor_spec, Htop. reflexivity.
Qed.

Lemma crc32_bit_inj (c c' : Z) :
  0 <= c < 2 ^ 32 -> 0 <= c' < 2 ^ 32 -> crc32_bit c = crc32_bit c' -> c = c'.
Proof.
  intros Hc Hc' Heq.
  assert (Hbit : Z.testbit c 0 = Z.testbit c' 0).
  { rewrite <- (crc32_bit_top c Hc), <- (crc32_bit_top c' Hc'), Heq. reflexivity. }
  assert (Hhalf : Z.shiftr c 1 = Z.shiftr c' 1).
  { unfold crc32_bit in Heq. rewrite <- Hbit in Heq.
    destruct (Z.testbit c 0); [apply lxor_cancel_r in Heq|]; exact Heq. }
  rewrite !Z.shiftr_div_pow2 in Hhalf by lia. change (2 ^ 1) with 2 in Hhalf.
  pose proof (Z.bit0_mod c) as H0. pose proof (Z.bit0_mod c') as H0'.
  rewrite Hbit in H0. Z.div_mod_to_equations. lia.
Qed.

Lemma crc32_bits_range (n : nat) (c : Z) :
  0 <= c < 2 ^ 32 -> 0 <= Nat.iter n crc32_bit c < 2 ^ 32.
Proof.
  intros Hc. induction n as [|n IH]; [exact Hc|].
  cbn [Nat.iter]. apply crc32_bit_range. exact IH.
Qed.

Lemma crc32_bits_inj (n : nat) (c c' : Z) :
  0 <= c < 2 ^ 32 -> 0 <= c' < 2 ^ 32 ->
  Nat.iter n crc32_bit c = Nat.iter n crc32_bit c' -> c = c'.
Proof.
  intros Hc Hc'. induction n as [|n IH]; [trivial|].
  cbn [Nat.iter]. intros Heq. apply IH.
  apply crc32_bit_inj; [apply crc32_bits_range; assumption.. | exact Heq].
Qed.

Lemma crc32_byte_range (c : Z) (b : byte) :
  0 <= c < 2 ^ 32 -> 0 <= crc32_byte c b < 2 ^ 32.
Proof.
  intros Hc. unfold crc32_byte. apply crc32_bits_range.
  pose proof (u8_range b). apply lxor_range; lia.
Qed.

Lemma u8_inj (b b' : byte) : u8 b = u8 b' -> b = b'.
Proof.
  unfold u8. intros H. apply N2Z.inj in H.
  pose proof (Byte.of_to_N b) as Hb. rewrite H, Byte.of_to_N in Hb.
  congruence.
Qed.

(** The register after a byte determines the register before it, and the
    byte. *)
Lemma crc32_byte_inj (c c' : Z) (b b' : byte) :
  0 <= c < 2 ^ 32 -> 0 <= c' < 2 ^ 32 ->
  crc32_byte c b = crc32_byte c' b' -> Z.lxor c (u8 b) = Z.lxor c' (u8 b').
Proof.
  intros Hc Hc'. unfold crc32_byte.
  pose proof (u8_range b). pose proof (u8_range b').
  apply crc32_bits_inj; apply lxor_range; lia.
Qed.

Lemma crc32_fold_range (bs : list byte) (c : Z) :
  0 <= c < 2 ^ 32 -> 0 <= fold_left crc32_byte bs c < 2 ^ 32.
Proof.
  revert c. induction bs as [|b bs IH]; intros c Hc; [exact Hc|].
  cbn [fold_left]. apply IH. apply crc32_byte_range. exact Hc.
Qed.

Lemma crc32_fold_inj (bs : list byte) (c c' : Z) :
  0 <= c < 2 ^ 32 -> 0 <= c' < 2 ^ 32 ->
  fold_left crc32_byte bs c = fold_left crc32_byte bs c' -> c = c'.
Proof.
  revert c c'. induction bs as [|b bs IH]; intros c c' Hc Hc'; [trivial|].
  cbn [fold_left]. intros Heq.
  apply IH in Heq; [|apply crc32_byte_range; assumption..].
  apply crc32_byte_inj in Heq; [|assumption..].
  apply lxor_cancel_r in Heq. exact Heq.
Qed.

(** Two buffers that differ in one byte have different CRCs, over any length
    that covers the byte. *)
Lemma calculateCRC32_one_byte (pre suf : list byte) (b b' : byte) (len : Z) :
  b <> b' -> Z.of_nat (length pre) < len < 2 ^ 32 ->
  calculateCRC32 (pre ++ b :: suf) len <> calculateCRC32 (pre ++ b' :: suf) len.
Proof.
  intros Hne Hlen. unfold calculateCRC32, zlib_crc32.
  rewrite (wrap32_small len) by lia.
  rewrite !take_app.
  replace (Z.to_nat len - length pre)%nat with (S (Z.to_nat len - length pre - 1)) by lia.
  cbn [take]. rewrite !fold_left_app. cbn [fold_left].
  set (s := fold_left crc32_byte (take (Z.to_nat len) pre) (Z.lxor 0 4294967295)).
  assert (Hs : 0 <= s < 2 ^ 32) by (apply crc32_fold_range; change (Z.lxor 0 4294967295) with 4294967295; lia).
  set (tl := take (Z.to_nat len - length pre - 1) suf).
  pose proof (crc32_fold_range tl _ (crc32_byte_range s b Hs)) as Hr.
  pose proof (crc32_fold_range tl _ (crc32_byte_range s b' Hs)) as Hr'.
  unfold wrap32. rewrite !Z.mod_small by (apply lxor_range; lia).
  intros Heq. apply lxor_cancel_r in Heq.
  apply crc32_fold_inj in Heq; [|apply crc32_byte_range; assumption..].
  apply crc32_byte_inj in Heq; [|assumption..].
  apply lxor_cancel_l in Heq. apply u8_inj in Heq. contradiction.
Qed.

Lemma readUint32LE_insert_ne (data : list byte) (n i : nat) (b : byte) :
  (i < n \/ n + 4 <= i)%nat ->
  readUint32LE (drop n (<[i:=b]> data)) = readUint32LE (drop n data).
Proof.
  intros Hi. unfold readUint32LE. rewrite !byte_at_lookup, !lookup_drop.
  rewrite !list_lookup_insert_ne by lia. reflexivity.
Qed.

Lemma parse_detects_changed_byte_aux (e : Event) (i : nat) (b : byte) :
  0 <= sequence_num e < 2 ^ 64 -> 0 <= timestamp_ns e < 2 ^ 64 ->
  Z.of_nat (length (payload e)) < 2 ^ 32 - 24 ->
  (i < 24 + length (payload e))%nat -> (i < 20 \/ 24 <= i)%nat ->
  b <> byte_at (serialize e) i ->
  let stored := calculateCRC32 (serialize e) (24 + Z.of_nat (length (payload e))) in
  exists calculated,
    calculated <> stored
    /\ parse (<[i:=b]> (serialize e)) (Z.of_nat (length (serialize e)))
       = Throw (CorruptedEventException calculated stored).
Proof.
  intros Hseq Hts Hlen Hi Hfield Hb stored.
  assert (HL : Z.of_nat (length (serialize e)) = 28 + Z.of_nat (length (payload e)))
    by (unfold serialize; apply length_createTestEvent).
  assert (Hpl : readUint32LE (drop 20 (serialize e)) = Z.of_nat (length (payload e))).
  { unfold serialize. rewrite createTestEvent_length_field.
    apply wrap32_small. lia. }
  pose proof (parse_serialize_below_wrap e Hseq Hts Hlen) as Hok.
  apply parse_Ok_inv in Hok. rewrite Hpl in Hok.
  destruct Hok as (_ & _ & Hcrc & _).
  rewrite (wrap32_small (24 + Z.of_nat (length (payload e)))) in Hcrc by lia.
  assert (Hst : stored
                = calculateCRC32 (serialize e) (24 + Z.of_nat (length (payload e))))
    by reflexivity.
  assert (Hlt : (i < length (serialize e))%nat) by lia.
  destruct (lookup_lt_is_Some_2 (serialize e) i Hlt) as [x Hx].
  assert (Hbx : b <> x).
  { intros ->. apply Hb. rewrite byte_at_lookup, Hx. reflexivity. }
  clearbody stored.
  revert HL Hpl Hcrc Hst Hlt Hx Hb. generalize (serialize e).
  intros data HL Hpl Hcrc Hst Hlt Hx _.
  set (N := Z.of_nat (length (payload e))) in *.
  assert (Hdiff : calculateCRC32 (<[i:=b]> data) (24 + N) <> stored).
  { rewrite insert_take_drop by assumption. rewrite Hst.
    pose proof (take_drop_middle data i x Hx) as Hmid.
    assert (Hpre : length (take i data) = i) by (rewrite length_take; lia).
    revert Hmid Hpre. generalize (take i data), (drop (S i) data).
    intros pre suf <- Hpre.
    apply calculateCRC32_one_byte; [assumption | lia]. }
  exists (calculateCRC32 (<[i:=b]> data) (24 + N)). split; [exact Hdiff|].
  unfold parse. rewrite HL.
  destruct (Z.ltb_spec (28 + N) 28); [lia|].
  cbn [throw_if mbind Result_bind].
  rewrite readUint32LE_insert_ne by lia. rewrite Hpl.
  assert (wrap32 (28 + N) <= 28 + N) by (unfold wrap32; apply Z.mod_le; lia).
  destruct (Z.ltb_spec (28 + N) (wrap32 (28 + N))); [lia|].
  cbn [throw_if mbind Result_bind].
  rewrite readUint32LE_insert_ne by lia.
  rewrite (wrap32_small (24 + N)) by lia. rewrite <- Hcrc, <- Hst.
  destruct (Z.eqb_spec (calculateCRC32 (<[i:=b]> data) (24 + N)) stored);
    [contradiction | reflexivity].
Qed.

(** X5: a changed byte is detected.  In the record of an event with a payload
    shorter than [2^32 - 24] bytes, replacing any one byte of the range the CRC
    covers, outside the length field (bytes 20 to 23), by a different byte
    makes [parse] throw [CorruptedEventException], carrying a recomputed CRC
    that differs from the stored one. *)
Theorem parse_detects_changed_byte (e : Event) (i : nat) (b : byte) :
  0 <= sequence_num e < 2 ^ 64 -> 0 <= timestamp_ns e < 2 ^ 64 ->
  Z.of_nat (length (payload e)) < 2 ^ 32 - 24 ->
  (i < 24 + length (payload e))%nat -> (i < 20 \/ 24 <= i)%nat ->
  b <> byte_at (serialize e) i ->
  let stored := calculateCRC32 (serialize e) (24 + Z.of_nat (length (payload e))) in
  exists calculated,
    calculated <> stored
    /\ parse (<[i:=b]> (serialize e)) (Z.of_nat (length (serialize e)))
       = Throw (CorruptedEventException calculated stored).
Proof.
  apply parse_detects_changed_byte_aux.
Qed.

Lemma parse_detects_changed_byte_witness :
  let stored :=
    calculateCRC32 (serialize seq1_event) (24 + Z.of_nat (length (payload seq1_event))) in
  exists calculated,
    calculated <> stored
    /\ parse (<[26%nat:=x00]> (serialize seq1_event))
         (Z.of_nat (length (serialize seq1_event)))
       = Throw (CorruptedEventException calculated stored).
Proof.
  apply (parse_detects_changed_byte seq1_event 26 x00);
    try (cbn; lia); vm_compute; discriminate.
Defined.

(** ** EventLogReader: reading a log *)

Module ReaderUseFacts.
Import EventLogReader ReaderInputs ReaderUse.

Lemma byte_at_drop_app (data rest : list byte) (n i : nat) :
  (n + i < length data)%nat ->
  byte_at (drop n (data ++ rest)) i = byte_at (drop n data) i.
Proof.
  intros H. rewrite !byte_at_lookup, !lookup_drop, lookup_app_l by lia. reflexivity.
Qed.

Lemma readUint32LE_drop_app (data rest : list byte) (n : nat) :
  (n + 4 <= length data)%nat ->
  readUint32LE (drop n (data ++ rest)) = readUint32LE (drop n data).
Proof.
  intros H. unfold readUint32LE. rewrite !byte_at_drop_app by lia. reflexivity.
Qed.

Lemma readUint64LE_drop_app (data rest : list byte) (n : nat) :
  (n + 8 <= length data)%nat ->
  readUint64LE (drop n (data ++ rest)) = readUint64LE (drop n data).
Proof.
  intros H. unfold readUint64LE. rewrite !byte_at_drop_app by lia. reflexivity.
Qed.

Lemma calculateCRC32_app (data rest : list byte) (len : Z) :
  0 <= len <= Z.of_nat (length data) ->
  calculateCRC32 (data ++ rest) len = calculateCRC32 data len.
Proof.
  intros H. unfold calculateCRC32.
  pose proof (Z.mod_le len (2 ^ 32)). pose proof (Z.mod_pos_bound len (2 ^ 32)).
  rewrite take_app_le by (unfold wrap32; lia). reflexivity.
Qed.

(** [parse] reads nothing past a record whose length field fits it. *)
Lemma parse_app (data rest : list byte) (len : Z) :
  28 + readUint32LE (drop 20 data) <= Z.of_nat (length data) ->
  parse (data ++ rest) len = parse data len.
Proof.
  intros Hfit. pose proof (readUint32LE_range (drop 20 data)) as Hpl.
  unfold parse.
  rewrite (readUint32LE_drop_app data rest 20) by lia.
  set (pl := readUint32LE (drop 20 data)) in *.
  change (readUint64LE (data ++ rest)) with (readUint64LE (drop 0 (data ++ rest))).
  rewrite (readUint64LE_drop_app data rest 0) by lia.
  rewrite (readUint64LE_drop_app data rest 8) by lia.
  change (byte_at (data ++ rest) 16) with (byte_at (drop 0 (data ++ rest)) 16).
  rewrite (byte_at_drop_app data rest 0 16) by lia.
  rewrite (readUint32LE_drop_app data rest (Z.to_nat (24 + pl))) by lia.
  rewrite calculateCRC32_app
    by (pose proof (Z.mod_le (24 + pl) (2 ^ 32));
        pose proof (Z.mod_pos_bound (24 + pl) (2 ^ 32)); unfold wrap32; lia).
  rewrite (drop_app_le data rest 24) by lia.
  rewrite (take_app_le (drop 24 data)) by (rewrite length_drop; lia).
  reflexivity.
Qed.

Lemma parse_record_app (e : Event) (rest : list byte) :
  readable e ->
  parse (serialize e ++ rest) (28 + Z.of_nat (length (payload e))) = Ok (parsed e).
Proof.
  intros (Hseq & Hts & Hlen).
  pose proof (length_createTestEvent (sequence_num e) (timestamp_ns e)
                (event_type e) (payload e)) as HL. fold (serialize e) in HL.
  pose proof (createTestEvent_length_field (sequence_num e) (timestamp_ns e)
                (event_type e) (payload e)) as Hf. fold (serialize e) in Hf.
  rewrite wrap32_small in Hf by lia.
  rewrite parse_app by (rewrite Hf, HL; lia).
  rewrite <- HL. apply parse_serialize_below_wrap; (assumption || lia).
Qed.

(** One [readNext] on a record in place. *)
Lemma readNext_record (r : Reader) (event e : Event) (pre rest : list byte) :
  well_formed r -> is_open_ r = true -> readable e ->
  mapping_bytes (mapped_data_ r) = pre ++ serialize e ++ rest ->
  offset_ r = Z.of_nat (length pre) ->
  readNext r event
  = (Ok true,
     mkReader (log_path_ r) (fd_ r) (mapped_data_ r) (file_size_ r)
       (offset_ r + 28 + Z.of_nat (length (payload e))) (file_header_ r) (is_open_ r),
     parsed e).
Proof.
  intros (Hsize & Hoff & Hmax) Hopen Hread Hmap Hpos.
  pose proof Hread as (Hseq & Hts & Hlen).
  pose proof (length_createTestEvent (sequence_num e) (timestamp_ns e)
                (event_type e) (payload e)) as HL. fold (serialize e) in HL.
  pose proof (createTestEvent_length_field (sequence_num e) (timestamp_ns e)
                (event_type e) (payload e)) as Hf. fold (serialize e) in Hf.
  rewrite wrap32_small in Hf by lia.
  rewrite Hmap, !length_app in Hsize.
  unfold readNext. rewrite Hopen. cbn [negb].
  destruct (Z.geb_spec (offset_ r) (file_size_ r)); [lia|].
  rewrite wrap64_small by lia.
  destruct (Z.gtb_spec (offset_ r + 24) (file_size_ r)); [lia|].
  rewrite Hmap, Hpos, Nat2Z.id, drop_app_length.
  rewrite (readUint32LE_drop_app (serialize e) rest 20) by lia.
  rewrite Hf. rewrite (wrap32_small (28 + Z.of_nat (length (payload e)))) by lia.
  rewrite wrap64_small by lia.
  destruct (Z.gtb_spec (Z.of_nat (length pre) + (28 + Z.of_nat (length (payload e))))
              (file_size_ r)); [lia|].
  rewrite parse_record_app by assumption.
  rewrite Z.add_assoc. reflexivity.
Qed.

(** One [readNext] on what is left when a record is not complete yet. *)
Lemma readNext_partial (r : Reader) (event e : Event) (pre : list byte) (k : nat) :
  well_formed r -> is_open_ r = true ->
  Z.of_nat (length (payload e)) < 2 ^ 32 - 28 ->
  (k < length (serialize e))%nat ->
  mapping_bytes (mapped_data_ r) = pre ++ take k (serialize e) ->
  offset_ r = Z.of_nat (length pre) ->
  readNext r event = (Ok false, r, event).
Proof.
  intros (Hsize & Hoff & Hmax) Hopen Hlen Hk Hmap Hpos.
  pose proof (length_createTestEvent (sequence_num e) (timestamp_ns e)
                (event_type e) (payload e)) as HL. fold (serialize e) in HL.
  pose proof (createTestEvent_length_field (sequence_num e) (timestamp_ns e)
                (event_type e) (payload e)) as Hf. fold (serialize e) in Hf.
  rewrite wrap32_small in Hf by lia.
  rewrite Hmap, length_app, length_take in Hsize.
  unfold readNext. rewrite Hopen. cbn [negb].
  destruct (Z.geb_spec (offset_ r) (file_size_ r)); [reflexivity|].
  rewrite wrap64_small by lia.
  destruct (Z.gtb_spec (offset_ r + 24) (file_size_ r)); [reflexivity|].
  rewrite Hmap, Hpos, Nat2Z.id, drop_app_length.
  rewrite readUint32LE_drop_take by lia.
  rewrite Hf. rewrite (wrap32_small (28 + Z.of_nat (length (payload e)))) by lia.
  rewrite wrap64_small by lia.
  destruct (Z.gtb_spec (Z.of_nat (length pre) + (28 + Z.of_nat (length (payload e))))
              (file_size_ r)); [reflexivity | lia].
Qed.

Lemma length_serialize (e : Event) :
  Z.of_nat (length (serialize e)) = 28 + Z.of_nat (length (payload e)).
Proof. unfold serialize. apply length_createTestEvent. Qed.

(** The loop reads every complete record in place, in order, and stops with
    false at whatever incomplete record follows. *)
Lemma drain_records (es : list Event) :
  forall (r : Reader) (event e_last : Event) (seen : list Event)
         (pre : list byte) (k : nat),
  well_formed r -> is_open_ r = true -> Forall readable es ->
  Z.of_nat (length (payload e_last)) < 2 ^ 32 - 28 ->
  (k < length (serialize e_last))%nat ->
  mapping_bytes (mapped_data_ r)
  = pre ++ concat (map serialize es) ++ take k (serialize e_last) ->
  offset_ r = Z.of_nat (length pre) ->
  exists r' event',
    drain (S (length es)) r event seen
    = Some (Ok tt, seen ++ map parsed es, r', event')
    /\ offset_ r' = offset_ r + Z.of_nat (length (concat (map serialize es)))
    /\ file_size_ r' = file_size_ r /\ mapped_data_ r' = mapped_data_ r
    /\ is_open_ r' = true /\ well_formed r'
    /\ event' = List.last (map parsed es) event.
Proof.
  induction es as [|e es IH]; intros r event e_last seen pre k Hwf Hopen Hall Hlast Hk Hmap Hpos.
  - cbn [map concat app] in Hmap. cbn [drain length].
    rewrite (readNext_partial r event e_last pre k) by assumption.
    exists r, event. rewrite app_nil_r. cbn [map concat length List.last].
    split_all; (reflexivity || assumption || lia).
  - apply Forall_cons in Hall. destruct Hall as [He Hall].
    cbn [map concat] in Hmap. rewrite <- app_assoc in Hmap.
    change (drain (S (length (e :: es))) r event seen)
      with (match readNext r event with
            | (Ok true, r', event') => drain (S (length es)) r' event' (seen ++ [event'])
            | (Ok false, r', event') => Some (Ok tt, seen, r', event')
            | (Throw e, r', event') => Some (Throw e, seen, r', event')
            end).
    rewrite (readNext_record r event e pre _ Hwf Hopen He Hmap Hpos).
    set (r1 := mkReader _ _ _ _ _ _ _).
    destruct Hwf as (Hsize & Hoff & Hmax).
    assert (Hwf1 : well_formed r1).
    { unfold well_formed. subst r1. cbn [mapped_data_ file_size_ offset_].
      split_all; (assumption || lia). }
    destruct (IH r1 (parsed e) e_last (seen ++ [parsed e]) (pre ++ serialize e) k)
      as (r' & event' & Hdrain & Hoff' & Hsz & Hmp & Hop & Hwf' & Hev);
      try assumption.
    + subst r1. cbn [mapped_data_]. rewrite Hmap, <- app_assoc. reflexivity.
    + subst r1. cbn [offset_]. rewrite length_app, Hpos.
      pose proof (length_serialize e). lia.
    + exists r', event'. rewrite Hdrain.
      cbn [map concat]. rewrite <- app_assoc. cbn [app].
      split; [reflexivity|].
      rewrite Hoff', Hsz, Hmp. subst r1. cbn [offset_ file_size_ mapped_data_].
      rewrite length_app. pose proof (length_serialize e).
      split_all; try (reflexivity || assumption || lia).
      rewrite Hev. symmetry. apply HistogramFacts.last_cons_default.
Qed.

End ReaderUseFacts.

Module ReaderLogFacts.
Import EventLogReader ReaderInputs ReaderFacts ReaderUse ReaderUseInputs ReaderUseFacts.

Lemma parseFileHeader_app (header rest : list byte) :
  (16 <= length header)%nat ->
  parseFileHeader (header ++ rest) FileHeader_SIZE = parseFileHeader header FileHeader_SIZE.
Proof.
  intros H. unfold parseFileHeader.
  change (readUint32LE (header ++ rest)) with (readUint32LE (drop 0 (header ++ rest))).
  rewrite (readUint32LE_drop_app header rest 0) by lia.
  rewrite (readUint32LE_drop_app header rest 4) by lia.
  rewrite (readUint64LE_drop_app header rest 8) by lia.
  reflexivity.
Qed.

(** [open] on a file that is there and starts with a valid header. *)
Lemma open_file (file header rest : list byte) (h : FileHeader) (r : Reader) :
  file = header ++ rest -> length header = 16%nat ->
  parseFileHeader header FileHeader_SIZE = Ok h ->
  open (env_of_file file) r
  = (Ok tt, mkReader (log_path_ r) 3 (mapped file) (Z.of_nat (length file)) 16 h true).
Proof.
  intros Hfile Hlen Hhdr. unfold open, env_of_file, mmap.
  cbn [sys_open sys_fstat sys_mmap_ok sys_file file_size_ mapped_data_ log_path_
       offset_ file_header_ is_open_ mapping_bytes].
  assert (Hsz : (16 <= length file)%nat) by (rewrite Hfile, length_app; lia).
  destruct (Z.ltb_spec (Z.of_nat (length file)) FileHeader_SIZE) as [Hlt|_];
    [unfold FileHeader_SIZE in Hlt; lia|].
  rewrite Nat2Z.id, firstn_all.
  rewrite Hfile at 1. rewrite parseFileHeader_app by lia. rewrite Hhdr.
  reflexivity.
Qed.

(** X6: file order.  On a file made of a valid 16-byte header and the records
    of any readable events, shorter than 2^63 bytes, [open] succeeds and the
    read loop returns exactly those events, in file order, each with its
    record's CRC, then ends on a false [readNext]: the reader is at EOF, its
    offset the size of the file. *)
Theorem reads_log_in_file_order
    (header : list byte) (h : FileHeader) (es : list Event) (event : Event) :
  length header = 16%nat -> parseFileHeader header FileHeader_SIZE = Ok h ->
  Forall readable es -> Z.of_nat (length (log_bytes header es)) < 2 ^ 63 ->
  let '(opened, r) := open (env_of_file (log_bytes header es)) fresh_reader in
  opened = Ok tt
  /\ exists r' event',
       drain (S (length es)) r event [] = Some (Ok tt, map parsed es, r', event')
       /\ eof r' = true
       /\ offset_ r' = Z.of_nat (length (log_bytes header es))
       /\ readNext r' event' = (Ok false, r', event').
Proof.
  intros Hlen Hhdr Hall Hmax.
  rewrite (open_file (log_bytes header es) header (concat (map serialize es)) h)
    by (reflexivity || assumption).
  split; [reflexivity|].
  set (r := mkReader _ _ _ _ _ _ _).
  assert (Hwf : well_formed r).
  { unfold well_formed. subst r. cbn [mapped_data_ mapping_bytes file_size_ offset_]. lia. }
  destruct (drain_records es r event no_event [] header 0 Hwf eq_refl Hall)
    as (r' & event' & Hdrain & Hoff & Hsz & Hmp & Hop & Hwf' & Hev).
  - cbn. lia.
  - cbn. lia.
  - subst r. cbn [mapped_data_ mapping_bytes take]. rewrite app_nil_r. reflexivity.
  - subst r. cbn [offset_]. lia.
  - exists r', event'. split; [exact Hdrain|].
    assert (Hend : offset_ r' = Z.of_nat (length (log_bytes header es))).
    { rewrite Hoff. subst r. cbn [offset_]. unfold log_bytes. rewrite length_app. lia. }
    assert (Hfs : file_size_ r' = Z.of_nat (length (log_bytes header es)))
      by (rewrite Hsz; reflexivity).
    split; [|split; [exact Hend|]].
    + unfold eof. rewrite Hend, Hfs. apply Z.geb_le. lia.
    + unfold readNext. rewrite Hop. cbn [negb].
      rewrite Hend, Hfs. rewrite (proj2 (Z.geb_le _ _)) by lia. reflexivity.
Qed.

Lemma reads_log_in_file_order_witness :
  let '(opened, r) :=
    open (env_of_file (log_bytes header_only_file [seq1_event; seq2_event; seq3_event]))
      fresh_reader in
  opened = Ok tt
  /\ exists r' event',
       drain (S (length [seq1_event; seq2_event; seq3_event])) r no_event []
       = Some (Ok tt, map parsed [seq1_event; seq2_event; seq3_event], r', event')
       /\ eof r' = true
       /\ offset_ r'
          = Z.of_nat (length (log_bytes header_only_file
                                [seq1_event; seq2_event; seq3_event]))
       /\ readNext r' event' = (Ok false, r', event').
Proof.
  apply (reads_log_in_file_order header_only_file
           {| magic := EXPECTED_MAGIC; version := EXPECTED_VERSION; reserved := 0 |}
           [seq1_event; seq2_event; seq3_event] no_event).
  - reflexivity.
  - vm_compute. reflexivity.
  - repeat constructor; cbn; lia.
  - vm_compute. reflexivity.
Defined.

(** X7: partial records and growth.  A reader that has read up to a record
    of which only a proper prefix is mapped gets false from [readNext] and is
    left unchanged; once the file holds that record in full and any further
    complete records, [remapIfGrown] returns true, keeps the offset, and the
    read loop then returns exactly the new events, in order, and nothing
    again of what was read before. *)
Theorem partial_record_then_growth
    (r : Reader) (pre : list byte) (e : Event) (k : nat) (es : list Event)
    (event : Event) :
  well_formed r -> is_open_ r = true ->
  Forall readable (e :: es) -> (k < length (serialize e))%nat ->
  mapping_bytes (mapped_data_ r) = pre ++ take k (serialize e) ->
  offset_ r = Z.of_nat (length pre) ->
  Z.of_nat (length (pre ++ concat (map serialize (e :: es)))) < 2 ^ 63 ->
  readNext r event = (Ok false, r, event)
  /\ let '(grown, r1) :=
       remapIfGrown (env_of_file (pre ++ concat (map serialize (e :: es)))) r in
     grown = Ok true /\ offset_ r1 = offset_ r
     /\ exists r2 event',
          drain (S (length (e :: es))) r1 event []
          = Some (Ok tt, map parsed (e :: es), r2, event')
          /\ eof r2 = true.
Proof.
  intros Hwf Hopen Hall Hk Hmap Hpos Hmax.
  pose proof (Forall_inv Hall) as (_ & _ & Hsmall).
  split; [apply (readNext_partial r event e pre k); assumption|].
  set (file := pre ++ concat (map serialize (e :: es))) in *.
  destruct Hwf as (Hsize & Hoff & Hfs).
  assert (Hgrow : file_size_ r < Z.of_nat (length file)).
  { rewrite <- Hsize, Hmap. subst file. cbn [map concat].
    rewrite !length_app, length_take. lia. }
  unfold remapIfGrown, env_of_file, mmap.
  cbn [sys_fstat sys_munmap_ok sys_mmap_ok sys_file]. rewrite Hopen. cbn [negb].
  destruct (Z.leb_spec (Z.of_nat (length file)) (file_size_ r)); [lia|].
  rewrite Nat2Z.id, firstn_all. cbn [mapped_data_ offset_].
  split; [reflexivity|]. split; [reflexivity|].
  set (r1 := mkReader _ _ _ _ _ _ _).
  assert (Hwf1 : well_formed r1).
  { unfold well_formed. subst r1. cbn [mapped_data_ mapping_bytes file_size_ offset_].
    split_all; (reflexivity || assumption). }
  destruct (drain_records (e :: es) r1 event no_event [] pre 0 Hwf1 eq_refl Hall)
    as (r2 & event' & Hdrain & Hoff2 & Hsz & Hmp & Hop & Hwf2 & Hev).
  - cbn. lia.
  - cbn. lia.
  - subst r1 file. cbn [mapped_data_ mapping_bytes take]. rewrite app_nil_r. reflexivity.
  - subst r1. cbn [offset_]. exact Hpos.
  - exists r2, event'. split; [exact Hdrain|].
    unfold eof. rewrite Hoff2, Hsz. subst r1 file. cbn [offset_ file_size_].
    rewrite Hpos, length_app. apply Z.geb_le. lia.
Qed.

Lemma partial_record_then_growth_witness :
  readNext reader_at_partial no_event = (Ok false, reader_at_partial, no_event)
  /\ let '(grown, r1) :=
       remapIfGrown
         (env_of_file (log_bytes header_only_file [seq1_event; seq2_event]
                       ++ concat (map serialize [seq3_event])))
         reader_at_partial in
     grown = Ok true /\ offset_ r1 = offset_ reader_at_partial
     /\ exists r2 event',
          drain (S (length [seq3_event])) r1 no_event []
          = Some (Ok tt, map parsed [seq3_event], r2, event')
          /\ eof r2 = true.
Proof.
  apply (partial_record_then_growth reader_at_partial
           (log_bytes header_only_file [seq1_event; seq2_event]) seq3_event 7 []
           no_event).
  - repeat split; vm_compute; (reflexivity || discriminate).
  - vm_compute. reflexivity.
  - repeat constructor; cbn; lia.
  - vm_compute. lia.
  - vm_compute. reflexivity.
  - vm_compute. reflexivity.
  - vm_compute. reflexivity.
Defined.

(** X8: a damaged record in the log.  When the record at the offset has one
    byte of its CRC-covered range, outside the length field, replaced by a
    different byte, [readNext] throws [CorruptedEventException] with differing
    CRCs and leaves the reader, its offset included, and the caller's event
    unchanged: the reader does not skip the record. *)
Theorem readNext_damaged_record
    (r : Reader) (pre rest : list byte) (e : Event) (i : nat) (b : byte)
    (event : Event) :
  well_formed r -> is_open_ r = true -> readable e ->
  (i < 24 + length (payload e))%nat -> (i < 20 \/ 24 <= i)%nat ->
  b <> byte_at (serialize e) i ->
  mapping_bytes (mapped_data_ r) = pre ++ <[i:=b]> (serialize e) ++ rest ->
  offset_ r = Z.of_nat (length pre) ->
  exists calculated stored,
    calculated <> stored
    /\ readNext r event = (Throw (CorruptedEventException calculated stored), r, event).
Proof.
  intros (Hsize & Hoff & Hmax) Hopen (Hseq & Hts & Hlen) Hi Hfield Hb Hmap Hpos.
  pose proof (length_serialize e) as HL.
  pose proof (createTestEvent_length_field (sequence_num e) (timestamp_ns e)
                (event_type e) (payload e)) as Hf. fold (serialize e) in Hf.
  rewrite wrap32_small in Hf by lia.
  destruct (parse_detects_changed_byte_aux e i b Hseq Hts ltac:(lia) Hi Hfield Hb)
    as (calculated & Hne & Hparse).
  exists calculated, (calculateCRC32 (serialize e) (24 + Z.of_nat (length (payload e)))).
  split; [exact Hne|].
  rewrite Hmap, !length_app, length_insert in Hsize.
  unfold readNext. rewrite Hopen. cbn [negb].
  destruct (Z.geb_spec (offset_ r) (file_size_ r)); [lia|].
  rewrite wrap64_small by lia.
  destruct (Z.gtb_spec (offset_ r + 24) (file_size_ r)); [lia|].
  rewrite Hmap, Hpos, Nat2Z.id, drop_app_length.
  rewrite (readUint32LE_drop_app (<[i:=b]> (serialize e)) rest 20)
    by (rewrite length_insert; lia).
  rewrite readUint32LE_insert_ne by lia.
  rewrite Hf. rewrite (wrap32_small (28 + Z.of_nat (length (payload e)))) by lia.
  rewrite wrap64_small by lia.
  destruct (Z.gtb_spec (Z.of_nat (length pre) + (28 + Z.of_nat (length (payload e))))
              (file_size_ r)); [lia|].
  rewrite parse_app
    by (rewrite readUint32LE_insert_ne, Hf, length_insert by lia; lia).
  rewrite <- HL, Hparse. reflexivity.
Qed.

Lemma readNext_damaged_record_witness :
  exists calculated stored,
    calculated <> stored
    /\ readNext damaged_reader no_event
       = (Throw (CorruptedEventException calculated stored), damaged_reader, no_event).
Proof.
  apply (readNext_damaged_record damaged_reader header_only_file [] seq1_event 26 x00
           no_event).
  - repeat split; vm_compute; (reflexivity || discriminate).
  - vm_compute. reflexivity.
  - repeat split; cbn; lia.
  - cbn. lia.
  - lia.
  - vm_compute. discriminate.
  - vm_compute. reflexivity.
  - vm_compute. reflexivity.
Defined.

(** One [readNext] moves the offset forward or not at all, and never past
    the mapped size. *)
Lemma readNext_offset_step (r : Reader) (event : Event) :
  well_formed r -> offset_ r <= file_size_ r ->
  let r' := snd (fst (readNext r event)) in
  offset_ r <= offset_ r' /\ offset_ r' <= file_size_ r'
  /\ file_size_ r' = file_size_ r.
Proof.
  intros (Hsize & Hoff & Hmax) Hle. unfold readNext.
  destruct (is_open_ r); cbn [negb fst snd]; [|lia].
  destruct (Z.geb_spec (offset_ r) (file_size_ r)); cbn [fst snd]; [lia|].
  rewrite wrap64_small by lia.
  destruct (Z.gtb_spec (offset_ r + 24) (file_size_ r)); cbn [fst snd]; [lia|].
  match goal with |- context [wrap32 ?x] =>
    pose proof (Z.mod_pos_bound x (2 ^ 32) ltac:(lia)) as Htot;
    fold (wrap32 x) in Htot; set (total := wrap32 x) in * end.
  rewrite wrap64_small by lia.
  destruct (Z.gtb_spec (offset_ r + total) (file_size_ r)); cbn [fst snd]; [lia|].
  destruct (parse _ total); cbn [fst snd offset_ file_size_]; lia.
Qed.

(** X9: the offset over a run.  Over any sequence of [readNext] and
    [remapIfGrown] calls on a well-formed reader, up to and including a call
    that throws, the offset never moves back and never passes the mapped size,
    and the mapped size never shrinks; while no call throws the reader stays
    well formed. *)
Theorem calls_offset_monotone (cs : list ReaderCall) (r : Reader) (event : Event) :
  well_formed r -> offset_ r <= file_size_ r ->
  Forall (fun c => match c with RemapIfGrown env => env_sane env | ReadNext => True end) cs ->
  let '(res, r', _) := calls cs r event in
  offset_ r <= offset_ r' /\ offset_ r' <= file_size_ r'
  /\ file_size_ r <= file_size_ r'
  /\ (res = Ok tt -> well_formed r').
Proof.
  revert r event. induction cs as [|c cs IH]; intros r event Hwf Hle Hall.
  - cbn. split_all; (lia || trivial).
  - apply Forall_cons in Hall. destruct Hall as [Hc Hall].
    destruct c as [|env]; cbn [calls].
    + pose proof (readNext_offset_step r event Hwf Hle) as Hstep.
      pose proof (readNext_well_formed r event Hwf) as Hwf'.
      destruct (readNext r event) as [[res r1] event1]. cbn [fst snd] in *.
      destruct Hstep as (H1 & H2 & H3).
      destruct res as [b|e].
      * specialize (IH r1 event1 Hwf' H2 Hall).
        destruct (calls cs r1 event1) as [[res' r'] ?].
        destruct IH as (I1 & I2 & I3 & I4). split_all; (lia || assumption).
      * split_all; (lia || discriminate).
    + pose proof Hwf as (Hsize & Hoff & Hmax).
      unfold env_sane in Hc.
      pose proof (remapIfGrown_well_formed env r) as Hrm.
      unfold remapIfGrown in *.
      destruct (is_open_ r); cbn [negb] in *.
      2:{ specialize (IH r event Hwf Hle Hall).
          destruct (calls cs r event) as [[res' r'] ?]. exact IH. }
      destruct (sys_fstat env) as [new_size|].
      2:{ specialize (IH r event Hwf Hle Hall).
          destruct (calls cs r event) as [[res' r'] ?]. exact IH. }
      destruct Hc as [Hfile Hnew].
      specialize (Hrm new_size eq_refl Hfile Hnew Hwf).
      destruct (Z.leb_spec new_size (file_size_ r)).
      { specialize (IH r event Hwf Hle Hall).
        destruct (calls cs r event) as [[res' r'] ?]. exact IH. }
      destruct (sys_munmap_ok env); cbn [negb] in *;
        [|split_all; (lia || discriminate)].
      unfold mmap in *. destruct (sys_mmap_ok env); cbn [mapped_data_] in *.
      * specialize (Hrm eq_refl). cbn [snd] in Hrm.
        match goal with |- context [calls cs ?r1 event] =>
          specialize (IH r1 event Hrm ltac:(cbn [offset_ file_size_]; lia) Hall);
          destruct (calls cs r1 event) as [[res' r'] ?] end.
        cbn [offset_ file_size_] in IH.
        destruct IH as (I1 & I2 & I3 & I4). split_all; (lia || assumption).
      * cbn [offset_ file_size_]. split_all; (lia || discriminate).
Qed.

Lemma calls_offset_monotone_witness :
  let '(res, r', _) := calls producer_calls opened_two no_event in
  offset_ opened_two <= offset_ r' /\ offset_ r' <= file_size_ r'
  /\ file_size_ opened_two <= file_size_ r'
  /\ (res = Ok tt -> well_formed r').
Proof.
  apply (calls_offset_monotone producer_calls opened_two no_event).
  - repeat split; vm_compute; (reflexivity || discriminate).
  - vm_compute. discriminate.
  - repeat constructor; vm_compute; (reflexivity || discriminate).
Defined.

(** The run of [producer_calls]: two records, EOF, the re-map, the third
    record, EOF again. *)
Example producer_calls_end :
  let '(res, r', event') := calls producer_calls opened_two no_event in
  res = Ok tt /\ offset_ r' = file_size_ r' /\ sequence_num event' = 3.
Proof. vm_compute. repeat split; reflexivity. Qed.

Lemma parseFileHeader_16 (data : list byte) :
  match parseFileHeader data FileHeader_SIZE with
  | Ok h =>
      readUint32LE data = EXPECTED_MAGIC
      /\ readUint32LE (drop 4 data) = EXPECTED_VERSION /\ isValid h = true
  | Throw _ =>
      ~ (readUint32LE data = EXPECTED_MAGIC
         /\ readUint32LE (drop 4 data) = EXPECTED_VERSION)
  end.
Proof.
  unfold parseFileHeader. change (FileHeader_SIZE <? FileHeader_SIZE) with false.
  cbn [throw_if mbind Result_bind]. unfold isValid. cbn [magic version].
  destruct (Z.eqb_spec (readUint32LE data) EXPECTED_MAGIC),
           (Z.eqb_spec (readUint32LE (drop 4 data)) EXPECTED_VERSION);
    cbn [andb negb throw_if mbind Result_bind magic version]; try tauto.
  rewrite !(proj2 (Z.eqb_eq _ _)) by assumption. tauto.
Qed.

(** X10: [open].  On a fresh reader [open] succeeds exactly when the file
    opens, [fstat] succeeds with a size of at least 16, the mapping succeeds
    and the first 16 bytes carry the magic and the version; the reader is then
    open at offset 16 with the [fstat] size and that header.  In every other
    case [open] throws and the reader stays closed at offset 0, so that
    [readNext] throws "Reader not open". *)
Theorem open_outcome (env : Env) (log_path : string) (event : Event) :
  let '(res, r) := open env (new log_path) in
  (res = Ok tt
     <-> exists fd st_size,
           sys_open env = Some fd /\ sys_fstat env = Some st_size
           /\ 16 <= st_size /\ sys_mmap_ok env = true
           /\ readUint32LE (take (Z.to_nat st_size) (sys_file env)) = EXPECTED_MAGIC
           /\ readUint32LE (drop 4 (take (Z.to_nat st_size) (sys_file env)))
              = EXPECTED_VERSION)
  /\ (res = Ok tt ->
      is_open_ r = true /\ offset_ r = 16 /\ Some (file_size_ r) = sys_fstat env
      /\ Some (fd_ r) = sys_open env /\ isValid (file_header_ r) = true)
  /\ (res <> Ok tt ->
      (exists e, res = Throw e) /\ is_open_ r = false /\ offset_ r = 0
      /\ readNext r event = (Throw (runtime_error "Reader not open"), r, event)).
Proof.
  unfold open, new. cbn [log_path_ fd_ mapped_data_ file_size_ offset_ file_header_ is_open_].
  destruct (sys_open env) as [fd|]; [|close_case].
  destruct (sys_fstat env) as [st_size|]; [|close_case].
  unfold FileHeader_SIZE at 1.
  destruct (Z.ltb_spec st_size 16).
  { split_all; intros; break_hyps; try discriminate; try congruence; eauto.
    exfalso. simplify_eq. lia. }
  unfold mmap. destruct (sys_mmap_ok env) eqn:Hmm; cbn [mapping_bytes]; [|close_case].
  pose proof (parseFileHeader_16 (take (Z.to_nat st_size) (sys_file env))) as Hhdr.
  destruct (parseFileHeader _ FileHeader_SIZE) as [h|e].
  - destruct Hhdr as (Hm & Hv & Hval).
    cbn [is_open_ offset_ file_size_ fd_ file_header_].
    split_all; intros; try congruence; eauto 10.
  - split_all; intros; break_hyps; try discriminate; try congruence; eauto.
    exfalso. simplify_eq. apply Hhdr. split; assumption.
Qed.

End ReaderLogFacts.

(** ** RingBuffer: what a run delivers *)

Module RingRunFacts.
Import RingBuffer RingUse.
Section Ring.
Context {T : Type} (T_default : T) (moved_from : T -> T).
Context (k : Z) (Hk : 0 <= k < 64).

Local Abbreviation SIZE := (2 ^ k).
Local Abbreviation fresh := (RingBuffer.new T_default SIZE).
Local Abbreviation run := (RingBuffer.run T_default moved_from SIZE).
Local Abbreviation buffered := (RingBuffer.buffered T_default SIZE).

(** The FIFO queue keeps what was accepted and not yet delivered. *)
Lemma fifo_run_accounts (cap : Z) (cs : list (@Call T)) :
  forall q : list T,
  let '(rets, q') := fifo_run cap cs q in
  q ++ accepted cs rets = delivered rets ++ q'.
Proof.
  induction cs as [|c cs IH]; intros q; [cbn; rewrite app_nil_r; reflexivity|].
  cbn [fifo_run]. destruct c as [item|]; cbn [fifo_call].
  - unfold fifo_push. destruct (Z.of_nat (length q) =? cap).
    + specialize (IH q). destruct (fifo_run cap cs q) as [rets q'].
      cbn [accepted delivered]. exact IH.
    + specialize (IH (q ++ [item])). destruct (fifo_run cap cs (q ++ [item])) as [rets q'].
      cbn [accepted delivered]. rewrite <- IH, <- app_assoc. reflexivity.
  - destruct q as [|x q]; cbn [fifo_pop].
    + specialize (IH []). destruct (fifo_run cap cs []) as [rets q'].
      cbn [accepted delivered]. exact IH.
    + specialize (IH q). destruct (fifo_run cap cs q) as [rets q'].
      cbn [accepted delivered app]. rewrite <- IH. reflexivity.
Qed.

Lemma fifo_run_length (cap : Z) (cs : list (@Call T)) :
  forall q : list T,
  0 <= cap -> Z.of_nat (length q) <= cap ->
  Z.of_nat (length (snd (fifo_run cap cs q))) <= cap.
Proof.
  induction cs as [|c cs IH]; intros q Hcap Hq; [exact Hq|].
  cbn [fifo_run]. destruct c as [item|]; cbn [fifo_call].
  - unfold fifo_push. destruct (Z.eqb_spec (Z.of_nat (length q)) cap).
    + specialize (IH q Hcap Hq). destruct (fifo_run cap cs q). exact IH.
    + assert (Hq' : Z.of_nat (length (q ++ [item])) <= cap)
        by (rewrite length_app; cbn [length]; lia).
      specialize (IH _ Hcap Hq'). destruct (fifo_run cap cs (q ++ [item])). exact IH.
  - destruct q as [|x q]; cbn [fifo_pop].
    + specialize (IH [] Hcap Hq). destruct (fifo_run cap cs []). exact IH.
    + assert (Hq' : Z.of_nat (length q) <= cap) by (cbn [length] in Hq; lia).
      specialize (IH _ Hcap Hq'). destruct (fifo_run cap cs q). exact IH.
Qed.

Lemma run_is_fifo_run (cs : list (@Call T)) :
  (fst (run cs fresh), buffered (snd (run cs fresh))) = fifo_run (SIZE - 1) cs []
  /\ ring_inv SIZE (snd (run cs fresh)).
Proof.
  destruct (RingFacts.run_refines T_default moved_from k Hk cs fresh
              (RingFacts.ring_inv_new T_default k Hk)) as [Hinv Hrun].
  rewrite (RingFacts.buffered_new T_default k Hk) in Hrun. split; assumption.
Qed.

(** X11: nothing lost, nothing made up, nothing reordered.  After any
    sequential run from the fresh ring, the items delivered by the pops so
    far, followed by the items still buffered, are exactly the items the
    pushes got accepted, in push order. *)
Theorem delivered_then_buffered_is_accepted (cs : list (@Call T)) :
  let '(rets, rb) := run cs fresh in
  delivered rets ++ buffered rb = accepted cs rets
  /\ (length (delivered rets) <= length (accepted cs rets))%nat.
Proof.
  destruct (run_is_fifo_run cs) as [Hrun _].
  pose proof (fifo_run_accounts (SIZE - 1) cs []) as Hacc.
  destruct (run cs fresh) as [rets rb]. cbn [fst snd] in Hrun.
  rewrite <- Hrun in Hacc. cbn [app] in Hacc.
  split; [symmetry; exact Hacc|]. rewrite Hacc, length_app. lia.
Qed.

(** X12: the monitoring queries.  After any sequential run from the fresh
    ring, [size] is the number of buffered items, which is the number accepted
    minus the number delivered and never exceeds [capacity] = [SIZE - 1], and
    [empty] holds exactly when [size] is 0. *)
Theorem size_empty_capacity (cs : list (@Call T)) :
  let '(rets, rb) := run cs fresh in
  RingBuffer.size SIZE rb
  = Z.of_nat (length (accepted cs rets)) - Z.of_nat (length (delivered rets))
  /\ 0 <= RingBuffer.size SIZE rb <= RingBuffer.capacity SIZE
  /\ RingBuffer.capacity SIZE = SIZE - 1
  /\ (RingBuffer.empty rb = true <-> RingBuffer.size SIZE rb = 0).
Proof.
  destruct (run_is_fifo_run cs) as [Hrun Hinv].
  pose proof (fifo_run_accounts (SIZE - 1) cs []) as Hacc.
  pose proof (RingFacts.SIZE_range k Hk) as HS.
  pose proof (fifo_run_length (SIZE - 1) cs [] ltac:(lia) ltac:(cbn; lia)) as Hlen.
  destruct (run cs fresh) as [rets rb]. cbn [fst snd] in *.
  rewrite <- Hrun in Hacc, Hlen. cbn [app snd] in *.
  rewrite (RingFacts.size_buffered T_default k Hk rb Hinv).
  rewrite (RingFacts.capacity_value k Hk).
  rewrite (RingFacts.empty_buffered T_default moved_from k Hk rb Hinv).
  rewrite Hacc, length_app. split_all; try lia.
  - intros ->. reflexivity.
  - intros H0. apply length_zero_iff_nil. lia.
Qed.

End Ring.

Lemma delivered_then_buffered_is_accepted_witness :
  let '(rets, rb) := RingBuffer.run 0 id (2 ^ 2) ring_calls (RingBuffer.new 0 (2 ^ 2)) in
  delivered rets ++ RingBuffer.buffered 0 (2 ^ 2) rb = accepted ring_calls rets
  /\ (length (delivered rets) <= length (accepted ring_calls rets))%nat.
Proof.
  apply (delivered_then_buffered_is_accepted 0 id 2 ltac:(lia) ring_calls).
Defined.

Lemma size_empty_capacity_witness :
  let '(rets, rb) := RingBuffer.run 0 id (2 ^ 2) ring_calls (RingBuffer.new 0 (2 ^ 2)) in
  RingBuffer.size (2 ^ 2) rb
  = Z.of_nat (length (accepted ring_calls rets)) - Z.of_nat (length (delivered rets))
  /\ 0 <= RingBuffer.size (2 ^ 2) rb <= RingBuffer.capacity (2 ^ 2)
  /\ RingBuffer.capacity (2 ^ 2) = 2 ^ 2 - 1
  /\ (RingBuffer.empty rb = true <-> RingBuffer.size (2 ^ 2) rb = 0).
Proof.
  apply (size_empty_capacity 0 id 2 ltac:(lia) ring_calls).
Defined.

(** X13: the slots' fill values never show.  What a run returns does not
    depend on the value the slots are initialised with, nor on what a move
    leaves behind in a slot: no call ever returns either. *)
Theorem run_independent_of_slot_fill
    {T : Type} (d d' : T) (mv mv' : T -> T) (k : Z) (cs : list (@Call T)) :
  0 <= k < 64 ->
  fst (RingBuffer.run d mv (2 ^ k) cs (RingBuffer.new d (2 ^ k)))
  = fst (RingBuffer.run d' mv' (2 ^ k) cs (RingBuffer.new d' (2 ^ k))).
Proof.
  intros Hk.
  destruct (run_is_fifo_run d mv k Hk cs) as [H1 _].
  destruct (run_is_fifo_run d' mv' k Hk cs) as [H2 _].
  rewrite <- H2 in H1. congruence.
Qed.

Lemma run_independent_of_slot_fill_witness :
  fst (RingBuffer.run 0 id (2 ^ 2) ring_calls (RingBuffer.new 0 (2 ^ 2)))
  = fst (RingBuffer.run 7 (fun _ => 9) (2 ^ 2) ring_calls (RingBuffer.new 7 (2 ^ 2))).
Proof.
  apply (run_independent_of_slot_fill 0 7 id (fun _ => 9) 2 ring_calls). lia.
Defined.

(** X14: the ring of size 1.  It compiles, and holds nothing: every
    [try_push] returns false and every [try_pop] returns false. *)
Theorem ring_of_size_one_refuses
    {T : Type} (d : T) (mv : T -> T) (cs : list (@Call T)) :
  static_asserts 1 = true
  /\ fst (RingBuffer.run d mv 1 cs (RingBuffer.new d 1)) = map refused cs.
Proof.
  split; [reflexivity|].
  destruct (run_is_fifo_run d mv 0 ltac:(lia) cs) as [Hrun _].
  change (2 ^ 0) with 1 in Hrun. change (1 - 1) with 0 in Hrun.
  apply (f_equal fst) in Hrun. cbn [fst] in Hrun. rewrite Hrun. clear Hrun.
  assert (H : forall cs : list (@Call T), fifo_run 0 cs [] = (map refused cs, [])).
  { clear. induction cs as [|c cs IH]; [reflexivity|].
    cbn [map]. destruct c as [item|].
    - change (fifo_run 0 (Push item :: cs) [])
        with (let '(rs, q) := fifo_run 0 cs [] in (Pushed false :: rs, q)).
      rewrite IH. reflexivity.
    - change (fifo_run 0 (Pop :: cs) [])
        with (let '(rs, q) := fifo_run 0 cs [] in (@Popped T None :: rs, q)).
      rewrite IH. reflexivity. }
  rewrite H. reflexivity.
Qed.

End RingRunFacts.

(** ** LatencyHistogram: what the queries return *)

Module HistogramQueryFacts.
Import LatencyHistogram HistogramFacts HistogramUse.

Lemma total_expand (m : list (Z * Z)) :
  Forall (fun e => 1 <= snd e) m -> Z.of_nat (length (expand m)) = total m.
Proof.
  induction 1 as [|[k c] m Hc _ IH]; [reflexivity|].
  cbn [expand total snd] in *. rewrite length_app, length_replicate. lia.
Qed.

Lemma expand_incr (x : Z) (m : list (Z * Z)) :
  Forall (fun e => 1 <= snd e) m -> total m + 1 < 2 ^ 64 ->
  Permutation (x :: expand m) (expand (incr x m)).
Proof.
  induction 1 as [|[k c] m Hc Hm IH]; intros Hlt; [reflexivity|].
  pose proof (total_nonneg m Hm). cbn [snd total] in *.
  cbn [incr]. destruct (Z.ltb_spec x k); [reflexivity|].
  destruct (Z.eqb_spec x k) as [->|]; cbn [expand].
  - rewrite wrap64_small by lia.
    replace (Z.to_nat (c + 1)) with (S (Z.to_nat c)) by lia. reflexivity.
  - rewrite <- IH by lia. rewrite Permutation_middle. reflexivity.
Qed.

Lemma expand_sorted (m : list (Z * Z)) :
  StronglySorted Z.lt (keys m) -> StronglySorted Z.le (expand m).
Proof.
  induction m as [|[k c] m IH]; intros Hs; [constructor|].
  apply StronglySorted_inv in Hs. destruct Hs as [Hs Hall]. cbn [expand].
  specialize (IH Hs).
  assert (Hge : Forall (Z.le k) (expand m)).
  { clear IH Hs. induction m as [|[k' c'] m IHm]; [constructor|].
    apply Forall_cons in Hall. destruct Hall as [Hk Hall]. cbn [expand fst] in *.
    apply Forall_app. split; [|apply IHm; assumption].
    apply Forall_replicate. lia. }
  induction (Z.to_nat c) as [|n IHn]; [exact IH|].
  cbn [replicate app]. constructor; [exact IHn|].
  apply Forall_app. split; [|exact Hge].
  apply Forall_replicate. lia.
Qed.

(** The loop of [percentile] returns the sample at [target_index], counted
    from where the loop stands. *)
Lemma percentile_loop_nth (m : list (Z * Z)) :
  forall cumulative target,
  Forall (fun e => 1 <= snd e) m ->
  0 <= cumulative <= target -> target < cumulative + total m ->
  cumulative + total m < 2 ^ 64 ->
  percentile_loop m cumulative target
  = Some (nth (Z.to_nat (target - cumulative)) (expand m) 0).
Proof.
  induction m as [|[k c] m IH]; intros cumulative target Hpos Hc Ht Hmax.
  - cbn [total] in Ht. lia.
  - apply Forall_cons in Hpos. destruct Hpos as [Hk Hpos]. cbn [snd total] in *.
    pose proof (total_nonneg m Hpos).
    rewrite percentile_loop_cons, wrap64_small by lia. cbn [expand].
    destruct (Z.gtb_spec (cumulative + c) target).
    + rewrite app_nth1 by (rewrite length_replicate; lia).
      rewrite nth_lookup, lookup_replicate_2 by lia. reflexivity.
    + rewrite IH by (assumption || lia).
      rewrite app_nth2 by (rewrite length_replicate; lia).
      rewrite length_replicate. do 2 f_equal. lia.
Qed.

Lemma recorded_sorted_samples (ls : list Z) :
  Z.of_nat (length ls) < 2 ^ 64 ->
  Permutation ls (sorted_samples (recorded ls))
  /\ StronglySorted Z.le (sorted_samples (recorded ls)).
Proof.
  intros Hlen. split.
  - unfold sorted_samples. revert Hlen.
    induction ls as [|x ls IH] using rev_ind; intros Hlen; [reflexivity|].
    rewrite length_app in Hlen. cbn [length] in Hlen.
    destruct (recorded_spec ls ltac:(lia)) as ((_ & Hpos) & Htot & _).
    rewrite recorded_snoc. cbn [record samples_].
    rewrite <- expand_incr by (assumption || lia).
    rewrite <- Permutation_cons_append. constructor. apply IH. lia.
  - destruct (recorded_spec ls Hlen) as ((Hs & _) & _).
    apply expand_sorted. exact Hs.
Qed.

Lemma to_size_t_range (d : double) (t : Z) :
  to_size_t d = Some t -> 0 <= t < 2 ^ 64.
Proof.
  destruct d as [s|s| |s m e]; cbn [to_size_t]; try discriminate.
  - intros [= <-]. lia.
  - set (truncated := if 0 <=? e then Z.pos m * 2 ^ e else Z.pos m / 2 ^ (- e)).
    destruct (Z.eqb_spec truncated 0); [intros [= <-]; lia|].
    destruct s; [discriminate|].
    destruct (Z.ltb_spec truncated (2 ^ 64)); [|discriminate].
    intros [= <-]. split; [|assumption].
    subst truncated. destruct (Z.leb_spec 0 e).
    + apply Z.mul_nonneg_nonneg; [lia | apply Z.pow_nonneg; lia].
    + apply Z.div_pos; [lia | apply Z.pow_pos_nonneg; lia].
Qed.

Lemma percentile_recorded_nth (ls : list Z) (p : double) :
  ls <> [] -> Z.of_nat (length ls) < 2 ^ 64 ->
  percentile p (recorded ls)
  = match to_size_t (double_mul p (double_of_size_t (Z.of_nat (length ls)))) with
    | Some t =>
        Some (nth (Z.to_nat (Z.min t (Z.of_nat (length ls) - 1)))
                (sorted_samples (recorded ls)) 0)
    | None => None
    end.
Proof.
  intros Hne Hlen.
  destruct (recorded_spec ls Hlen) as ((Hs & Hpos) & Htotal & Hcount & Hkeys).
  assert (Hn : 0 < Z.of_nat (length ls)) by (destruct ls; [congruence | cbn; lia]).
  unfold percentile, sorted_samples. rewrite Hcount.
  destruct (Z.eqb_spec (Z.of_nat (length ls)) 0); [lia|].
  destruct (to_size_t (double_mul p (double_of_size_t (Z.of_nat (length ls)))))
    as [t|] eqn:Ht; [|reflexivity].
  apply to_size_t_range in Ht.
  replace (if t >=? Z.of_nat (length ls)
           then wrap64 (Z.of_nat (length ls) - 1) else t)
    with (Z.min t (Z.of_nat (length ls) - 1))
    by (destruct (Z.geb_spec t (Z.of_nat (length ls)));
        [rewrite wrap64_small|]; lia).
  rewrite (percentile_loop_nth (samples_ (recorded ls)) 0) by (assumption || lia).
  rewrite Z.sub_0_r. reflexivity.
Qed.

(** X15: [percentile] is the order statistic at the index the code computes.
    After recording any non-empty list of fewer than 2^64 samples, the sorted
    samples are a sorted permutation of what was recorded.  For every double
    [p], with the product [p * total_count_] rounded as the binary64
    multiplication rounds it: when its truncation is a [size_t] value [t],
    [percentile p] is the sample at index [min t (count - 1)] of the sorted
    samples; when the truncation is undefined, so is the call. *)
Theorem percentile_is_order_statistic (ls : list Z) (p : double) :
  ls <> [] -> Z.of_nat (length ls) < 2 ^ 64 ->
  let h := recorded ls in
  Permutation ls (sorted_samples h)
  /\ StronglySorted Z.le (sorted_samples h)
  /\ percentile p h
     = match to_size_t (double_mul p (double_of_size_t (count h))) with
       | Some t => Some (nth (Z.to_nat (Z.min t (count h - 1))) (sorted_samples h) 0)
       | None => None
       end.
Proof.
  intros Hne Hlen h. subst h.
  destruct (recorded_sorted_samples ls Hlen) as [Hperm Hsorted].
  destruct (recorded_spec ls Hlen) as (_ & _ & Hcount & _).
  split; [exact Hperm|]. split; [exact Hsorted|].
  unfold count. rewrite Hcount. apply percentile_recorded_nth; assumption.
Qed.

Lemma percentile_is_order_statistic_witness :
  let h := recorded (map Z.of_nat (seq 1 100)) in
  Permutation (map Z.of_nat (seq 1 100)) (sorted_samples h)
  /\ StronglySorted Z.le (sorted_samples h)
  /\ to_size_t (double_mul double_0_99 (double_of_size_t (count h))) = Some 99
  /\ percentile double_0_99 h = Some 100.
Proof.
  destruct (percentile_is_order_statistic (map Z.of_nat (seq 1 100)) double_0_99)
    as (Hperm & Hsorted & Hpct).
  - discriminate.
  - vm_compute. reflexivity.
  - split; [exact Hperm|]. split; [exact Hsorted|].
    split; [vm_compute; reflexivity|].
    rewrite Hpct. vm_compute. reflexivity.
Defined.

Lemma sorted_nth_mono (s : list Z) (i j : nat) :
  StronglySorted Z.le s -> (i <= j < length s)%nat -> nth i s 0 <= nth j s 0.
Proof.
  intros Hs. revert i j. induction Hs as [|x s Hs IH Hall]; intros i j Hij.
  - cbn in Hij. lia.
  - cbn [length] in Hij. destruct i as [|i], j as [|j]; cbn [nth]; try lia.
    + rewrite List.Forall_forall in Hall. apply Hall, nth_In. lia.
    + apply IH. lia.
Qed.

Lemma wrap_i64_add_l (a b : Z) : wrap_i64 (wrap_i64 a + b) = wrap_i64 (a + b).
Proof.
  unfold wrap_i64. f_equal.
  replace ((a + 2 ^ 63) mod 2 ^ 64 - 2 ^ 63 + b + 2 ^ 63)
    with ((a + 2 ^ 63) mod 2 ^ 64 + b) by lia.
  rewrite Zplus_mod_idemp_l. f_equal. lia.
Qed.

Lemma wrap_i64_small (z : Z) : - 2 ^ 63 <= z < 2 ^ 63 -> wrap_i64 z = z.
Proof. intros H. unfold wrap_i64. rewrite Z.mod_small; lia. Qed.

Lemma recorded_sum (ls : list Z) : sum_ (recorded ls) = wrap_i64 (sum_list ls).
Proof.
  induction ls as [|x ls IH] using rev_ind; [reflexivity|].
  rewrite recorded_snoc. cbn [record sum_]. rewrite IH, wrap_i64_add_l. f_equal.
  unfold sum_list. rewrite fold_right_app. cbn [fold_right].
  clear IH. induction ls as [|y ls IHl]; cbn [fold_right]; lia.
Qed.

(** X17: the summary figures.  After recording a non-empty list of fewer than
    2^63 samples, [count] is the number of samples, [min] and [max] are
    recorded samples that bound every recorded sample, and when the exact sum
    fits an [int64_t], [mean] is that sum divided by the count, truncated
    toward zero. *)
Theorem recorded_summary (ls : list Z) :
  ls <> [] -> Z.of_nat (length ls) < 2 ^ 63 ->
  let h := recorded ls in
  count h = Z.of_nat (length ls)
  /\ In (min h) ls /\ In (max h) ls
  /\ (forall x, In x ls -> min h <= x <= max h)
  /\ (- 2 ^ 63 <= sum_list ls < 2 ^ 63 ->
      mean h = Z.quot (sum_list ls) (Z.of_nat (length ls))).
Proof.
  intros Hne Hlen h. subst h.
  assert (Hlen' : Z.of_nat (length ls) < 2 ^ 64) by lia.
  destruct (recorded_spec ls Hlen') as ((Hs & Hpos) & Htotal & Hcount & Hkeys).
  assert (Hn : 0 < Z.of_nat (length ls)) by (destruct ls; [congruence | cbn; lia]).
  assert (Hsome : samples_ (recorded ls) <> []).
  { intros Hnil. rewrite Hnil in Htotal. cbn in Htotal. lia. }
  split; [exact Hcount|].
  assert (Hmin : In (min (recorded ls)) (keys (samples_ (recorded ls)))).
  { unfold min. destruct (samples_ (recorded ls)) as [|[k c] m]; [congruence|].
    left. reflexivity. }
  assert (Hmax : In (max (recorded ls)) (keys (samples_ (recorded ls)))
                 /\ Forall (fun y => y <= max (recorded ls))
                           (keys (samples_ (recorded ls)))).
  { unfold max. destruct (samples_ (recorded ls)) as [|e m]; [congruence|].
    apply last_key_largest, Hs. }
  destruct Hmax as [Hmax Hle].
  split; [apply Hkeys, Hmin|]. split; [apply Hkeys, Hmax|]. split.
  - intros x Hx. apply Hkeys in Hx. split.
    + unfold min. unfold keys in *.
      destruct (samples_ (recorded ls)) as [|[k c] m]; [contradiction|].
      apply StronglySorted_inv in Hs. destruct Hs as [_ Hall].
      cbn [map fst] in Hx. destruct Hx as [->|Hx]; [lia|].
      rewrite List.Forall_forall in Hall. specialize (Hall x Hx). cbn [fst] in Hall. lia.
    + rewrite List.Forall_forall in Hle. apply Hle, Hx.
  - intros Hsum. unfold mean. rewrite Hcount.
    destruct (Z.eqb_spec (Z.of_nat (length ls)) 0); [lia|].
    rewrite recorded_sum, !wrap_i64_small by lia. reflexivity.
Qed.

Lemma recorded_summary_witness :
  let h := recorded latencies in
  count h = Z.of_nat (length latencies)
  /\ In (min h) latencies /\ In (max h) latencies
  /\ (forall x, In x latencies -> min h <= x <= max h)
  /\ (- 2 ^ 63 <= sum_list latencies < 2 ^ 63 ->
      mean h = Z.quot (sum_list latencies) (Z.of_nat (length latencies))).
Proof.
  apply (recorded_summary latencies).
  - discriminate.
  - cbn. lia.
Defined.

Lemma incr_comm (x y : Z) (m : list (Z * Z)) :
  incr x (incr y m) = incr y (incr x m).
Proof.
  induction m as [|[k c] m IH]; cbn [incr].
  - destruct (Z.ltb_spec x y), (Z.ltb_spec y x), (Z.eqb_spec x y), (Z.eqb_spec y x);
      try lia; subst; reflexivity.
  - destruct (Z.ltb_spec x k), (Z.ltb_spec y k), (Z.eqb_spec x k), (Z.eqb_spec y k);
      try lia; subst; cbn [incr];
      repeat match goal with
      | |- context [?a <? ?b] => destruct (Z.ltb_spec a b); try lia
      | |- context [?a =? ?b] => destruct (Z.eqb_spec a b); try lia
      end; subst; try reflexivity; try (f_equal; exact IH).
Qed.

Lemma record_comm (x y : Z) (h : LatencyHistogram.t) :
  record x (record y h) = record y (record x h).
Proof.
  unfold record. cbn [samples_ total_count_ sum_]. f_equal.
  - apply incr_comm.
  - rewrite !wrap_i64_add_l. f_equal. lia.
Qed.

Lemma fold_record_perm (ls ls' : list Z) :
  Permutation ls ls' ->
  forall h, fold_left (fun h latency_ns => record latency_ns h) ls h
          = fold_left (fun h latency_ns => record latency_ns h) ls' h.
Proof.
  induction 1 as [|x l l' _ IH|x y l|l l' l'' _ IH1 _ IH2]; intros h; cbn [fold_left].
  - reflexivity.
  - apply IH.
  - rewrite record_comm. reflexivity.
  - rewrite IH1. apply IH2.
Qed.

(** X18: the histogram keeps no order.  Recording the same samples in any
    other order leaves the same map, count and sum, and so the same answer
    to every query; no size bound is needed, the wrap-arounds commute too. *)
Theorem recorded_order_independent (ls ls' : list Z) :
  Permutation ls ls' -> recorded ls = recorded ls'.
Proof. intros Hperm. unfold recorded. apply fold_record_perm, Hperm. Qed.

Lemma recorded_order_independent_witness :
  recorded latencies = recorded (rev latencies).
Proof.
  apply (recorded_order_independent latencies (rev latencies)).
  apply Permutation_rev.
Defined.

End HistogramQueryFacts.

(** ** DoubleEntryValidator *)

Module ValidatorFacts.
Import DoubleEntryValidator ValidatorInputs.

Lemma byte_eqb_eq (a b : byte) : Byte.eqb a b = true <-> a = b.
Proof.
  split; [apply Byte.byte_dec_bl | intros ->; apply Byte.byte_dec_lb; reflexivity].
Qed.

Lemma starts_with_spec (needle s : list byte) :
  starts_with needle s = true <-> exists suf, s = needle ++ suf.
Proof.
  revert s. induction needle as [|a needle IH]; intros s.
  - cbn. split; [intros _; exists s; reflexivity | reflexivity].
  - destruct s as [|b s]; cbn [starts_with].
    + split; [discriminate | intros [suf Hsuf]; discriminate].
    + rewrite andb_true_iff, byte_eqb_eq, IH. split.
      * intros [-> [suf ->]]. exists suf. reflexivity.
      * intros [suf Hsuf]. injection Hsuf as -> ->. split; [reflexivity|].
        exists suf. reflexivity.
Qed.

(** [find_from] returns the first position at which the needle starts. *)
Lemma find_from_Some (needle s : list byte) (i k : nat) :
  find_from needle s i = Some k ->
  exists j, k = (i + j)%nat /\ (j <= length s)%nat
    /\ starts_with needle (drop j s) = true
    /\ forall j', (j' < j)%nat -> starts_with needle (drop j' s) = false.
Proof.
  revert i. induction s as [|b s IH]; intros i; cbn [find_from].
  - destruct (starts_with needle []) eqn:Hs; [|discriminate].
    intros [= <-]. exists 0%nat. cbn. repeat split; [lia | lia | exact Hs | lia].
  - destruct (starts_with needle (b :: s)) eqn:Hs.
    + intros [= <-]. exists 0%nat. cbn [drop length].
      repeat split; [lia | lia | exact Hs | lia].
    + intros Hf. destruct (IH _ Hf) as (j & -> & Hj & Hat & Hbefore).
      exists (S j). cbn [drop length]. repeat split; [lia | lia | exact Hat |].
      intros [|j'] Hlt; [exact Hs | cbn [drop]; apply Hbefore; lia].
Qed.

Lemma find_from_None (needle s : list byte) (i : nat) :
  find_from needle s i = None ->
  forall j, starts_with needle (drop j s) = false.
Proof.
  revert i. induction s as [|b s IH]; intros i; cbn [find_from].
  - destruct (starts_with needle []) eqn:Hs; [discriminate|].
    intros _ j. rewrite drop_nil. exact Hs.
  - destruct (starts_with needle (b :: s)) eqn:Hs; [discriminate|].
    intros Hf [|j]; [exact Hs | cbn [drop]; eapply IH, Hf].
Qed.

Lemma find_0 (s needle : list byte) : find s needle 0 = find_from needle s 0.
Proof. unfold find. destruct (length s) ; reflexivity. Qed.

Lemma found_occurs (s needle : list byte) :
  found (find s needle 0) = true <-> occurs needle s.
Proof.
  rewrite find_0. split.
  - destruct (find_from needle s 0) as [k|] eqn:Hf; [|discriminate]. intros _.
    destruct (find_from_Some _ _ _ _ Hf) as (j & _ & _ & Hat & _).
    apply starts_with_spec in Hat. destruct Hat as [suf Hsuf].
    exists (take j s), suf. rewrite <- Hsuf, take_drop. reflexivity.
  - intros (pre & suf & ->).
    destruct (find_from needle (pre ++ needle ++ suf) 0) eqn:Hf; [reflexivity|].
    pose proof (find_from_None _ _ _ Hf (length pre)) as Hno.
    rewrite drop_app_length in Hno.
    assert (Hyes : starts_with needle (needle ++ suf) = true)
      by (apply starts_with_spec; exists suf; reflexivity).
    congruence.
Qed.

Lemma occurs_nonempty (name : string) (s : list byte) :
  occurs (quoted name) s -> s <> [].
Proof. intros (pre & suf & ->). destruct pre; discriminate. Qed.

Lemma validateTradeCreated_cases (event : Event) (v : t) :
  let v' := validateTradeCreated event v in
  events_processed (stats_ v') = events_processed (stats_ v)
  /\ ((names_fields event
       /\ trades_validated (stats_ v') = wrap64 (trades_validated (stats_ v) + 1)
       /\ validation_errors (stats_ v') = validation_errors (stats_ v)
       /\ cerr v' = cerr v)
      \/ (~ names_fields event
          /\ trades_validated (stats_ v') = trades_validated (stats_ v)
          /\ validation_errors (stats_ v') = wrap64 (validation_errors (stats_ v) + 1)
          /\ cout v' = cout v
          /\ (cerr v' = cerr v ++ [EmptyPayload (sequence_num event)]
              \/ cerr v' = cerr v ++ [MissingFields (sequence_num event)]))).
Proof.
  intros v'. subst v'. unfold validateTradeCreated, names_fields.
  destruct (payload event) as [|b s] eqn:Hp.
  - unfold error.
    cbn [stats_ trades_validated validation_errors events_processed cerr cout].
    split; [reflexivity|]. right. split; [|auto].
    intros (H & _). apply occurs_nonempty in H. congruence.
  - rewrite <- Hp. clear Hp.
    pose proof (found_occurs (payload event) (quoted "trade_id")) as H1.
    pose proof (found_occurs (payload event) (quoted "symbol")) as H2.
    pose proof (found_occurs (payload event) (quoted "quantity")) as H3.
    destruct (found (find (payload event) (quoted "trade_id") 0));
      destruct (found (find (payload event) (quoted "symbol") 0));
      destruct (found (find (payload event) (quoted "quantity") 0));
      cbn [negb orb error stats_ trades_validated validation_errors
           events_processed cerr cout];
      (split; [reflexivity|]);
      first [ left; repeat split; tauto
            | right; split; [intros (Ha & Hb & Hc); rewrite <- ?H1, <- ?H2, <- ?H3 in *;
                             discriminate | auto] ].
Qed.

(** X19: what [validateTradeCreated] decides.  A trade event is counted as
    validated exactly when its payload contains the three quoted field names;
    otherwise it is counted as an error and one line with its sequence number
    goes to [std::cerr].  The other counters and the other stream stay as
    they were; the test for an empty payload only chooses the message. *)
Theorem validateTradeCreated_decides (event : Event) (v : t) :
  let v' := validateTradeCreated event v in
  events_processed (stats_ v') = events_processed (stats_ v)
  /\ ((names_fields event
       /\ trades_validated (stats_ v') = wrap64 (trades_validated (stats_ v) + 1)
       /\ validation_errors (stats_ v') = validation_errors (stats_ v)
       /\ cerr v' = cerr v)
      \/ (~ names_fields event
          /\ trades_validated (stats_ v') = trades_validated (stats_ v)
          /\ validation_errors (stats_ v') = wrap64 (validation_errors (stats_ v) + 1)
          /\ cout v' = cout v
          /\ (cerr v' = cerr v ++ [EmptyPayload (sequence_num event)]
              \/ cerr v' = cerr v ++ [MissingFields (sequence_num event)]))).
Proof. apply validateTradeCreated_cases. Qed.


Lemma processEvent_other (event : Event) (v : t) :
  is_trade event = false ->
  trades_validated (stats_ (processEvent event v)) = trades_validated (stats_ v)
  /\ validation_errors (stats_ (processEvent event v)) = validation_errors (stats_ v)
  /\ events_processed (stats_ (processEvent event v))
     = wrap64 (events_processed (stats_ v) + 1)
  /\ cerr (processEvent event v) = cerr v /\ cout (processEvent event v) = cout v.
Proof.
  unfold is_trade, processEvent. intros ->. cbn. auto.
Qed.

Lemma processed_snoc (es : list Event) (event : Event) :
  processed (es ++ [event]) = processEvent event (processed es).
Proof. unfold processed. rewrite fold_left_app. reflexivity. Qed.

Lemma validateTradeCreated_cout (event : Event) (v : t) :
  0 <= trades_validated (stats_ v) -> trades_validated (stats_ v) + 1 < 2 ^ 64 ->
  Z.of_nat (length (cout v)) = trades_validated (stats_ v) / 1000 ->
  Z.of_nat (length (cout (validateTradeCreated event v)))
  = trades_validated (stats_ (validateTradeCreated event v)) / 1000.
Proof.
  intros H0 Hmax Hlen. unfold validateTradeCreated.
  destruct (payload event) as [|b p]; [exact Hlen|].
  destruct (negb _ || negb _ || negb _); [exact Hlen|].
  cbn [cout stats_ trades_validated]. rewrite wrap64_small by lia.
  set (n := trades_validated (stats_ v)) in *.
  pose proof (Z.div_mod n 1000 ltac:(lia)) as Hn1.
  pose proof (Z.mod_pos_bound n 1000 ltac:(lia)) as Hn2.
  pose proof (Z.div_mod (n + 1) 1000 ltac:(lia)) as Hm1.
  pose proof (Z.mod_pos_bound (n + 1) 1000 ltac:(lia)) as Hm2.
  destruct (Z.eqb_spec ((n + 1) mod 1000) 0);
    [rewrite length_app; cbn [length]|]; lia.
Qed.

Lemma processed_counts (es : list Event) :
  Z.of_nat (length es) < 2 ^ 64 ->
  let s := getStats (processed es) in
  events_processed s = Z.of_nat (length es)
  /\ 0 <= trades_validated s /\ 0 <= validation_errors s
  /\ trades_validated s + validation_errors s = Z.of_nat (length (trades es))
  /\ Z.of_nat (length (cerr (processed es))) = validation_errors s
  /\ Z.of_nat (length (cout (processed es))) = trades_validated s / 1000.
Proof.
  unfold getStats.
  induction es as [|event es IH] using rev_ind; intros Hlen.
  - cbn. repeat split; lia.
  - rewrite length_app in Hlen. cbn [length] in Hlen.
    destruct (IH ltac:(lia)) as (He & Hv0 & He0 & Hsum & Hcerr & Hcout). clear IH.
    assert (Htr : Z.of_nat (length (trades es)) <= Z.of_nat (length es)).
    { unfold trades. pose proof (length_filter (fun e => is_trade e = true) es). lia. }
    rewrite processed_snoc. unfold trades in *. rewrite filter_app, !length_app.
    cbn [length]. set (v := processed es) in *.
    destruct (is_trade event) eqn:Ht.
    + rewrite filter_cons, filter_nil. rewrite decide_True by exact Ht. cbn [length].
      unfold processEvent. unfold is_trade in Ht. rewrite Ht.
      match goal with |- context [validateTradeCreated event ?w] => set (v1 := w) end.
      pose proof (validateTradeCreated_cout event v1) as Hco'.
      destruct (validateTradeCreated_cases event v1)
        as (Hep & [(_ & Hv & Hn & Hce) | (_ & Hv & Hn & Hco & Hce)]);
        rewrite Hep, Hv, Hn in *; subst v1;
        cbn [stats_ trades_validated validation_errors events_processed cerr cout] in *.
      * rewrite Hce, Hco' by lia. rewrite !wrap64_small by lia. repeat split; lia.
      * destruct Hce as [Hce | Hce]; rewrite Hce, Hco, length_app; cbn [length];
          rewrite !wrap64_small by lia; repeat split; lia.
    + rewrite filter_cons, filter_nil.
      rewrite decide_False by (rewrite Ht; discriminate). cbn [length].
      destruct (processEvent_other event v Ht) as (-> & -> & -> & -> & ->).
      rewrite wrap64_small by lia. repeat split; lia.
Qed.

(** X20: the counters after a run.  From a fresh validator and fewer than
    2^64 events: [events_processed] is the number of events, validated plus
    errors is the number of TRADE_CREATED events, [std::cerr] holds one line
    per error, and [std::cout] one line per full thousand validated trades. *)
Theorem processed_counters (es : list Event) :
  Z.of_nat (length es) < 2 ^ 64 ->
  let s := getStats (processed es) in
  events_processed s = Z.of_nat (length es)
  /\ 0 <= trades_validated s /\ 0 <= validation_errors s
  /\ trades_validated s + validation_errors s = Z.of_nat (length (trades es))
  /\ Z.of_nat (length (cerr (processed es))) = validation_errors s
  /\ Z.of_nat (length (cout (processed es))) = trades_validated s / 1000.
Proof. apply processed_counts. Qed.


Lemma processed_counters_witness :
  let s := getStats (processed events) in
  events_processed s = Z.of_nat (length events)
  /\ 0 <= trades_validated s /\ 0 <= validation_errors s
  /\ trades_validated s + validation_errors s = Z.of_nat (length (trades events))
  /\ Z.of_nat (length (cerr (processed events))) = validation_errors s
  /\ Z.of_nat (length (cout (processed events))) = trades_validated s / 1000.
Proof. apply (processed_counters events). cbn. lia. Defined.

(** X21: the status line of [printSummary].  After fewer than 2^64 events
    from a fresh validator, the summary reports that all validations passed
    exactly when every TRADE_CREATED event named the three fields; events of
    the other types never count against it. *)
Theorem printSummary_status (es : list Event) :
  Z.of_nat (length es) < 2 ^ 64 ->
  snd (printSummary (processed es)) = AllPassed
  <-> Forall (fun e => is_trade e = true -> names_fields e) es.
Proof.
  assert (Hst : forall v, snd (printSummary v) = AllPassed
                          <-> validation_errors (stats_ v) = 0).
  { intros v. unfold printSummary. cbn [snd].
    destruct (Z.eqb_spec (validation_errors (stats_ v)) 0); split;
      (congruence || discriminate || lia). }
  rewrite Hst. clear Hst.
  induction es as [|event es IH] using rev_ind; intros Hlen.
  - cbn. split; [constructor | reflexivity].
  - rewrite length_app in Hlen. cbn [length] in Hlen.
    specialize (IH ltac:(lia)).
    destruct (processed_counts es ltac:(lia)) as (_ & Hv0 & He0 & Hsum & _).
    unfold getStats in *.
    assert (Htr : Z.of_nat (length (trades es)) <= Z.of_nat (length es)).
    { unfold trades. pose proof (length_filter (fun e => is_trade e = true) es). lia. }
    rewrite processed_snoc, Forall_app, Forall_singleton, <- IH. clear IH.
    set (v := processed es) in *.
    destruct (is_trade event) eqn:Ht.
    + unfold processEvent. unfold is_trade in Ht. rewrite Ht.
      match goal with |- context [validateTradeCreated event ?w] => set (v1 := w) end.
      destruct (validateTradeCreated_cases event v1)
        as (_ & [(Hyes & _ & Hn & _) | (Hno & _ & Hn & _)]);
        rewrite Hn; subst v1; cbn [stats_ validation_errors].
      * tauto.
      * rewrite wrap64_small by lia. split; [lia | tauto].
    + destruct (processEvent_other event v Ht) as (_ & -> & _).
      split; [intros H; split; [exact H | discriminate] | tauto].
Qed.

Lemma printSummary_status_witness :
  snd (printSummary (processed [trade_event; ledger_event])) = AllPassed
  <-> Forall (fun e => is_trade e = true -> names_fields e)
             [trade_event; ledger_event].
Proof. apply (printSummary_status [trade_event; ledger_event]). cbn. lia. Defined.

Lemma find_from_first (needle s : list byte) (j : nat) :
  forall i, (j <= length s)%nat ->
  starts_with needle (drop j s) = true ->
  (forall j', (j' < j)%nat -> starts_with needle (drop j' s) = false) ->
  find_from needle s i = Some (i + j)%nat.
Proof.
  revert s. induction j as [|j IH]; intros s i Hj Hat Hbefore.
  - rewrite drop_0 in Hat. destruct s; cbn [find_from]; rewrite Hat; f_equal; lia.
  - destruct s as [|b s]; [cbn in Hj; lia|]. cbn [length drop] in *.
    cbn [find_from]. pose proof (Hbefore 0%nat ltac:(lia)) as H0.
    rewrite drop_0 in H0. rewrite H0.
    rewrite (IH s (S i)); [f_equal; lia | lia | exact Hat |].
    intros j' Hlt. apply (Hbefore (S j')). lia.
Qed.

Lemma starts_with_app (needle suf : list byte) :
  starts_with needle (needle ++ suf) = true.
Proof. apply starts_with_spec. exists suf. reflexivity. Qed.

Lemma find_quote_after (text rest : list byte) (pos : nat) :
  ~ In x22 text ->
  find_from quote (text ++ quote ++ rest) pos = Some (pos + length text)%nat.
Proof.
  intros Hno. apply find_from_first.
  - rewrite length_app. lia.
  - rewrite drop_app_length. reflexivity.
  - intros j' Hlt. rewrite drop_app_le by lia.
    destruct (drop j' text) as [|b t] eqn:Hd.
    { apply (f_equal length) in Hd. rewrite length_drop in Hd. cbn in Hd. lia. }
    cbn [app quote starts_with].
    destruct (Byte.eqb x22 b) eqn:Hb; [|reflexivity].
    apply byte_eqb_eq in Hb. subst b. exfalso. apply Hno.
    rewrite <- (take_drop j' text), Hd. apply in_or_app. right. left. reflexivity.
Qed.

Lemma find_quote_none (text : list byte) (pos : nat) :
  ~ In x22 text -> find_from quote text pos = None.
Proof.
  revert pos. induction text as [|b text IH]; intros pos Hno; [reflexivity|].
  cbn [find_from quote starts_with].
  destruct (Byte.eqb x22 b) eqn:Hb.
  - apply byte_eqb_eq in Hb. subst b. exfalso. apply Hno. left. reflexivity.
  - cbn [andb]. apply IH. intros Hin. apply Hno. right. exact Hin.
Qed.

Lemma find_key_first (pre rest : list byte) :
  (forall j, (j < length pre)%nat ->
     starts_with trade_id_key (drop j (pre ++ trade_id_key ++ rest)) = false) ->
  find (pre ++ trade_id_key ++ rest) trade_id_key 0 = Some (length pre).
Proof.
  intros Hfirst. rewrite find_0.
  rewrite (find_from_first trade_id_key _ (length pre)); [reflexivity | | | exact Hfirst].
  - rewrite length_app. lia.
  - rewrite drop_app_length. apply starts_with_app.
Qed.

Lemma find_after_key (pre rest : list byte) :
  find (pre ++ trade_id_key ++ rest) quote (length pre + length trade_id_key)
  = find_from quote rest (length pre + length trade_id_key).
Proof.
  unfold find. rewrite !length_app.
  destruct (Nat.ltb_spec (length pre + (length trade_id_key + length rest))
                         (length pre + length trade_id_key)); [lia|].
  rewrite app_assoc, drop_app_length'; [reflexivity|].
  rewrite length_app. reflexivity.
Qed.

(** X22: [extractTradeId] returns the identifier.  When the payload reads
    [pre], the key, [id], a closing quote, anything, where the key does not
    start anywhere inside [pre] and [id] holds no quote, the result is
    exactly [id]. *)
Theorem extractTradeId_value (pre id suf : list byte) :
  let s := pre ++ trade_id_key ++ id ++ quote ++ suf in
  (forall j, (j < length pre)%nat -> starts_with trade_id_key (drop j s) = false) ->
  ~ In x22 id ->
  extractTradeId s = id.
Proof.
  intros s Hfirst Hid. subst s. unfold extractTradeId.
  rewrite (find_key_first pre _ Hfirst), find_after_key.
  cbv zeta. rewrite (find_quote_after id suf _ Hid).
  unfold substr. rewrite app_assoc, drop_app_length'
    by (rewrite length_app; reflexivity).
  replace (length pre + length trade_id_key + length id
           - (length pre + length trade_id_key))%nat with (length id) by lia.
  apply take_app_length.
Qed.

Lemma extractTradeId_value_witness :
  extractTradeId trade_payload = bytes_of_string "T1".
Proof.
  apply (extractTradeId_value [x7b] (bytes_of_string "T1")
           ([x2c] ++ quoted "symbol" ++ [x3a] ++ quoted "AAPL" ++ [x2c]
            ++ quoted "quantity" ++ [x3a; x35] ++ [x7d])).
  - intros j Hj. assert (j = 0%nat) as -> by (cbn in Hj; lia). reflexivity.
  - intros [H | [H | []]]; discriminate.
Defined.

(** X23: [extractTradeId] answers [unknown].  When the key occurs nowhere in
    the payload, or when it does but no quote follows its first occurrence,
    the result is the text [unknown]; a payload that only has a space after
    the colon is such a case although it passes the validation. *)
Theorem extractTradeId_unknown (s : list byte) :
  ~ occurs trade_id_key s
  \/ (exists pre rest, s = pre ++ trade_id_key ++ rest
        /\ (forall j, (j < length pre)%nat ->
              starts_with trade_id_key (drop j s) = false)
        /\ ~ In x22 rest) ->
  extractTradeId s = unknown.
Proof.
  intros [Hno | (pre & rest & -> & Hfirst & Hrest)]; unfold extractTradeId.
  - destruct (find s trade_id_key 0) eqn:Hf; [|reflexivity].
    exfalso. apply Hno. apply found_occurs. rewrite Hf. reflexivity.
  - rewrite (find_key_first pre rest Hfirst), find_after_key.
    cbv zeta. rewrite (find_quote_none rest _ Hrest). reflexivity.
Qed.

Lemma extractTradeId_unknown_witness :
  extractTradeId ([x7b] ++ quoted "trade_id" ++ [x3a; x20] ++ quoted "T1" ++ [x7d])
  = unknown.
Proof.
  apply extractTradeId_unknown. left. intros Hocc.
  apply found_occurs in Hocc. discriminate Hocc.
Defined.

End ValidatorFacts.

(** ** EventLogTailer *)

Module TailerFacts.
Import EventLogTailer.

Lemma backoff_step (i : Z) (j : nat) :
  0 < i ->
  Z.min (Z.min (i * 2) 100 * 2 ^ Z.of_nat j) 100 = Z.min (i * 2 ^ Z.of_nat (S j)) 100.
Proof.
  intros Hi. rewrite Nat2Z.inj_succ, Z.pow_succ_r by lia.
  assert (Hp : 1 <= 2 ^ Z.of_nat j) by (apply Z.pow_le_mono_r with (b := 0); lia).
  destruct (Z.le_gt_cases (i * 2) 100).
  - rewrite (Z.min_l (i * 2) 100) by lia. f_equal. lia.
  - rewrite (Z.min_r (i * 2) 100) by lia. rewrite !Z.min_r by nia. reflexivity.
Qed.

(** X24: the backoff of the polling tailer.  From an interval between 10 and
    100 ms, whatever the world shows and however the wait ends: the [j]-th
    sleep lasts [min (interval * 2^j) 100] ms, there is at most one sleep per
    turn of the loop, and the interval kept for the next call is again
    between 10 and 100: 10 after a reported growth, the capped doubling
    otherwise. *)
Theorem polling_backoff (timeout_ms : Z) (world : list Polling.Observation)
    (tl : Polling.t) :
  10 <= Polling.poll_interval_ms_ tl <= 100 ->
  let '(outcome, tl', sleeps) := Polling.waitForModification timeout_ms world tl in
  (forall (j : nat) (d : Z), sleeps !! j = Some d ->
     d = Z.min (Polling.poll_interval_ms_ tl * 2 ^ Z.of_nat j) 100)
  /\ (length sleeps <= length world)%nat
  /\ 10 <= Polling.poll_interval_ms_ tl' <= 100
  /\ Polling.poll_interval_ms_ tl'
     = match outcome with
       | Polling.Returned true => 10
       | _ => Z.min (Polling.poll_interval_ms_ tl * 2 ^ Z.of_nat (length sleeps)) 100
       end.
Proof.
  revert tl. induction world as [|o world IH]; intros tl Hi.
  - cbn. split; [intros j d Hj; discriminate|]. repeat split; lia.
  - cbn [Polling.waitForModification].
    destruct (_ >? _).
    { cbn. unfold Polling.MIN_POLL_INTERVAL_MS.
      split; [intros j d Hj; discriminate|]. repeat split; lia. }
    destruct (_ && _).
    { cbn. split; [intros j d Hj; discriminate|]. repeat split; lia. }
    cbv zeta.
    match goal with |- context [Polling.waitForModification _ _ ?w] => set (tl1 := w) end.
    specialize (IH tl1). destruct (Polling.waitForModification timeout_ms world tl1)
      as [[outcome tl'] sleeps].
    assert (Hi1 : 10 <= Polling.poll_interval_ms_ tl1 <= 100)
      by (subst tl1; cbn; unfold Polling.MAX_POLL_INTERVAL_MS; lia).
    destruct (IH Hi1) as (Hs & Hlen & Hr & Hout). clear IH.
    assert (Hstep : forall j : nat,
              Z.min (Polling.poll_interval_ms_ tl1 * 2 ^ Z.of_nat j) 100
              = Z.min (Polling.poll_interval_ms_ tl * 2 ^ Z.of_nat (S j)) 100).
    { intros j. subst tl1. cbn [Polling.poll_interval_ms_].
      unfold Polling.MAX_POLL_INTERVAL_MS. apply backoff_step. lia. }
    split; [|split; [|split]].
    + intros [|j] d Hj.
      * cbn in Hj. injection Hj as <-. rewrite Z.mul_1_r. lia.
      * cbn [lookup list_lookup] in Hj. rewrite <- Hstep. apply Hs, Hj.
    + cbn [length]. lia.
    + exact Hr.
    + cbn [length]. rewrite <- Hstep. exact Hout.
Qed.

Lemma polling_backoff_witness :
  let '(outcome, tl', sleeps) :=
    Polling.waitForModification 0
      (replicate 5 {| Polling.sys_stat := None; Polling.elapsed := 0 |}) Polling.new in
  (forall (j : nat) (d : Z), sleeps !! j = Some d ->
     d = Z.min (Polling.poll_interval_ms_ Polling.new * 2 ^ Z.of_nat j) 100)
  /\ (length sleeps <= 5)%nat
  /\ 10 <= Polling.poll_interval_ms_ tl' <= 100
  /\ Polling.poll_interval_ms_ tl'
     = match outcome with
       | Polling.Returned true => 10
       | _ => Z.min (Polling.poll_interval_ms_ Polling.new * 2 ^ Z.of_nat (length sleeps)) 100
       end.
Proof.
  apply (polling_backoff 0
           (replicate 5 {| Polling.sys_stat := None; Polling.elapsed := 0 |})
           Polling.new).
  unfold Polling.new, Polling.MIN_POLL_INTERVAL_MS. cbn. lia.
Defined.

Lemma quiet_turn (timeout_ms : Z) (tl : Polling.t) (o : Polling.Observation) :
  Polling.quiet timeout_ms tl o ->
  (getFileSize (Polling.sys_stat o) >? Polling.last_known_size_ tl) = false
  /\ (timeout_ms >? 0) && (Polling.elapsed o >=? timeout_ms) = false.
Proof.
  intros (Hsize & Htime). split; [lia|].
  destruct (Z.gtb_spec timeout_ms 0), (Z.geb_spec (Polling.elapsed o) timeout_ms);
    cbn; lia || reflexivity.
Qed.

(** X25: how the polling wait ends.  After any number of quiet turns (no
    growth seen, time not run out), a turn that sees a size above the last
    known one returns true, with that size stored and the interval reset,
    even if the time has run out as well; a turn that sees no growth with the
    time run out returns false and keeps the last known size; and with only
    quiet turns the loop is still waiting.  A file that shrinks is never
    reported, and a wait with a timeout of zero or less never returns
    false. *)
Theorem polling_outcome (timeout_ms : Z) (pre : list Polling.Observation)
    (tl : Polling.t) :
  Forall (Polling.quiet timeout_ms tl) pre ->
  (exists tl' sleeps,
     Polling.waitForModification timeout_ms pre tl = (Polling.Waiting, tl', sleeps)
     /\ Polling.last_known_size_ tl' = Polling.last_known_size_ tl
     /\ length sleeps = length pre)
  /\ (forall o rest,
        getFileSize (Polling.sys_stat o) > Polling.last_known_size_ tl ->
        exists sleeps,
          Polling.waitForModification timeout_ms (pre ++ o :: rest) tl
          = (Polling.Returned true,
             {| Polling.last_known_size_ := getFileSize (Polling.sys_stat o);
                Polling.poll_interval_ms_ := 10 |}, sleeps)
          /\ length sleeps = length pre)
  /\ (forall o rest,
        getFileSize (Polling.sys_stat o) <= Polling.last_known_size_ tl ->
        0 < timeout_ms <= Polling.elapsed o ->
        exists tl' sleeps,
          Polling.waitForModification timeout_ms (pre ++ o :: rest) tl
          = (Polling.Returned false, tl', sleeps)
          /\ Polling.last_known_size_ tl' = Polling.last_known_size_ tl
          /\ length sleeps = length pre).
Proof.
  revert tl. induction pre as [|p pre IH]; intros tl Hq.
  - split; [|split].
    + exists tl, []. repeat split.
    + intros o rest Hgrow. exists []. cbn [app Polling.waitForModification].
      destruct (Z.gtb_spec (getFileSize (Polling.sys_stat o))
                  (Polling.last_known_size_ tl)); [|lia]. split; reflexivity.
    + intros o rest Hsame Htime. exists tl, [].
      cbn [app Polling.waitForModification].
      destruct (Z.gtb_spec (getFileSize (Polling.sys_stat o))
                  (Polling.last_known_size_ tl)); [lia|].
      destruct (Z.gtb_spec timeout_ms 0); [|lia].
      destruct (Z.geb_spec (Polling.elapsed o) timeout_ms); [|lia].
      repeat split.
  - apply Forall_cons in Hq. destruct Hq as [Hp Hq].
    destruct (quiet_turn _ _ _ Hp) as [Hg Ht].
    set (tl1 := {| Polling.last_known_size_ := Polling.last_known_size_ tl;
                   Polling.poll_interval_ms_ :=
                     Z.min (Polling.poll_interval_ms_ tl * 2)
                           Polling.MAX_POLL_INTERVAL_MS |}).
    assert (Hq1 : Forall (Polling.quiet timeout_ms tl1) pre) by exact Hq.
    destruct (IH tl1 Hq1) as ((tlw & sw & Hw & Hwl & Hwn) & Htrue & Hfalse). clear IH.
    split; [|split].
    + exists tlw, (Polling.poll_interval_ms_ tl :: sw).
      cbn [Polling.waitForModification]. rewrite Hg, Ht. cbv zeta. fold tl1.
      rewrite Hw. cbn [length]. repeat split; [exact Hwl | lia].
    + intros o rest Hgrow. destruct (Htrue o rest Hgrow) as (ss & Hrun & Hn).
      exists (Polling.poll_interval_ms_ tl :: ss).
      cbn [app Polling.waitForModification]. rewrite Hg, Ht. cbv zeta. fold tl1.
      rewrite Hrun. cbn [length]. split; [reflexivity | lia].
    + intros o rest Hsame Htime.
      destruct (Hfalse o rest Hsame Htime) as (tlf & ss & Hrun & Hl & Hn).
      exists tlf, (Polling.poll_interval_ms_ tl :: ss).
      cbn [app Polling.waitForModification]. rewrite Hg, Ht. cbv zeta. fold tl1.
      rewrite Hrun. cbn [length]. repeat split; [exact Hl | lia].
Qed.

Lemma polling_outcome_witness :
  let pre := replicate 3 {| Polling.sys_stat := Some 16; Polling.elapsed := 5 |} in
  let tl := Polling.init (Some 16) Polling.new in
  exists sleeps,
    Polling.waitForModification 1000
      (pre ++ [{| Polling.sys_stat := Some 62; Polling.elapsed := 70 |}]) tl
    = (Polling.Returned true,
       {| Polling.last_known_size_ := 62; Polling.poll_interval_ms_ := 10 |}, sleeps)
    /\ length sleeps = 3%nat.
Proof.
  intros pre tl.
  assert (Hq : Forall (Polling.quiet 1000 tl) pre).
  { repeat constructor; cbn; lia. }
  destruct (polling_outcome 1000 pre tl Hq) as (_ & Htrue & _).
  apply (Htrue {| Polling.sys_stat := Some 62; Polling.elapsed := 70 |} []).
  vm_compute. reflexivity.
Defined.

(** X26: the timeout handed to [select].  For a positive [timeout_ms] it is
    a normalised [timeval] of exactly that many milliseconds; for zero or a
    negative value it is the null pointer, an unbounded wait. *)
Theorem inotify_timeout (timeout_ms : Z) :
  match Inotify.timeout_ptr timeout_ms with
  | Some tv =>
      0 < timeout_ms /\ 0 <= Inotify.tv_sec tv /\ 0 <= Inotify.tv_usec tv < 1000000
      /\ Inotify.tv_sec tv * 1000000 + Inotify.tv_usec tv = timeout_ms * 1000
  | None => timeout_ms <= 0
  end.
Proof.
  unfold Inotify.timeout_ptr. destruct (Z.gtb_spec timeout_ms 0); [|lia].
  cbn [Inotify.tv_sec Inotify.tv_usec].
  rewrite Z.quot_div_nonneg, Z.rem_mod_nonneg by lia.
  pose proof (Z.div_mod timeout_ms 1000 ltac:(lia)).
  pose proof (Z.mod_pos_bound timeout_ms 1000 ltac:(lia)).
  assert (0 <= timeout_ms / 1000) by (apply Z.div_pos; lia).
  lia.
Qed.

(** X27: a failed [init] and the destructor.  When [inotify_init1] succeeds
    and [inotify_add_watch] fails, [init] closes the inotify descriptor and
    throws, but keeps the descriptor in the object: the destructor then
    closes the same descriptor a second time. *)
Theorem inotify_failed_init_closes_twice (log_path : string) (fd wd : Z) (tl : Inotify.t) :
  0 <= fd -> wd < 0 ->
  exists msg tl',
    Inotify.init log_path fd wd tl
    = (Throw (runtime_error msg), tl', [Inotify.close fd])
    /\ Inotify.destroy tl' = [Inotify.close fd].
Proof.
  intros Hfd Hwd. unfold Inotify.init. cbn [Inotify.inotify_fd_ Inotify.watch_fd_].
  destruct (Z.ltb_spec fd 0); [lia|]. destruct (Z.ltb_spec wd 0); [|lia].
  eexists _, _. split; [reflexivity|].
  unfold Inotify.destroy. cbn [Inotify.inotify_fd_ Inotify.watch_fd_].
  destruct (Z.geb_spec wd 0); [lia|]. destruct (Z.geb_spec fd 0); [|lia].
  reflexivity.
Qed.

Lemma inotify_failed_init_closes_twice_witness :
  exists msg tl',
    Inotify.init "events.log" 3 (-1) Inotify.new
    = (Throw (runtime_error msg), tl', [Inotify.close 3])
    /\ Inotify.destroy tl' = [Inotify.close 3].
Proof.
  apply (inotify_failed_init_closes_twice "events.log" 3 (-1) Inotify.new); lia.
Defined.

End TailerFacts.

(** ** FileReader *)

Module FileReaderFacts.
Import ReaderInputs ReaderUse ReaderUseInputs ReaderUseFacts ReaderLogFacts.

Lemma read_enough (n : Z) (f : FileReader.ifstream) :
  FileReader.eofbit f = false -> FileReader.failbit f = false -> 0 <= n ->
  Z.of_nat (FileReader.tellg f) + n <= Z.of_nat (length (FileReader.bytes f)) ->
  FileReader.read n f
  = (take (Z.to_nat n) (drop (FileReader.tellg f) (FileReader.bytes f)),
     FileReader.mkIfstream (FileReader.is_open f) (FileReader.bytes f)
       (FileReader.tellg f + Z.to_nat n) false false n).
Proof.
  intros He Hf Hn Hfit. unfold FileReader.read. rewrite He, Hf. cbn [orb].
  assert (Hlen : length (take (Z.to_nat n)
                   (drop (FileReader.tellg f) (FileReader.bytes f))) = Z.to_nat n).
  { rewrite length_take, length_drop. lia. }
  rewrite Hlen. rewrite Z2Nat.id by lia. rewrite Z.ltb_irrefl. reflexivity.
Qed.

Lemma read_short (n : Z) (f : FileReader.ifstream) :
  FileReader.eofbit f = false -> FileReader.failbit f = false ->
  (FileReader.tellg f <= length (FileReader.bytes f))%nat ->
  Z.of_nat (length (FileReader.bytes f)) < Z.of_nat (FileReader.tellg f) + n ->
  FileReader.read n f
  = (drop (FileReader.tellg f) (FileReader.bytes f),
     FileReader.mkIfstream (FileReader.is_open f) (FileReader.bytes f)
       (length (FileReader.bytes f)) true true
       (Z.of_nat (length (FileReader.bytes f)) - Z.of_nat (FileReader.tellg f))).
Proof.
  intros He Hf Hpos Hfit. unfold FileReader.read. rewrite He, Hf. cbn [orb].
  rewrite take_ge by (rewrite length_drop; lia).
  rewrite length_drop.
  destruct (Z.ltb_spec (Z.of_nat (length (FileReader.bytes f) - FileReader.tellg f)) n);
    [|lia].
  f_equal. f_equal; lia.
Qed.

(** One complete record under the read position. *)
Lemma file_readNext_record (r : FileReader.t) (event e : Event) (pre rest : list byte) :
  FileReader.reading_at r (length pre) -> readable e ->
  FileReader.bytes (FileReader.file_ r) = pre ++ serialize e ++ rest ->
  FileReader.readNext r event
  = (FileReader.Returns true,
     FileReader.mk (FileReader.file_path_ r)
       (FileReader.mkIfstream true (FileReader.bytes (FileReader.file_ r))
          (length pre + length (serialize e)) false false
          (Z.of_nat (length (payload e)) + 4))
       (wrap64 (FileReader.offset_ r + (28 + Z.of_nat (length (payload e)))))
       (FileReader.file_header_ r),
     parsed e).
Proof.
  intros (Hopen & Heof & Hfail & Hpos) Hread Hbytes.
  pose proof Hread as (Hseq & Hts & Hlen).
  pose proof (length_serialize e) as HL.
  pose proof (createTestEvent_length_field (sequence_num e) (timestamp_ns e)
                (event_type e) (payload e)) as Hf. fold (serialize e) in Hf.
  rewrite wrap32_small in Hf by lia.
  unfold FileReader.readNext. rewrite Hopen, Heof. cbn [negb].
  rewrite read_enough;
    [| assumption | assumption | lia
     | rewrite Hpos, Hbytes, !length_app; lia].
  rewrite Hpos, Hbytes, drop_app_length. rewrite <- Hbytes.
  cbn [FileReader.file_ FileReader.gcount FileReader.file_path_ FileReader.offset_
       FileReader.file_header_ Z.eqb negb].
  change (Z.to_nat 24) with 24%nat.
  rewrite take_app_le by lia.
  rewrite readUint32LE_drop_take, Hf by lia.
  rewrite (wrap32_small (Z.of_nat (length (payload e)) + 4)) by lia.
  rewrite (wrap32_small (28 + Z.of_nat (length (payload e)))) by lia.
  destruct (Z.ltb_spec (28 + Z.of_nat (length (payload e)))
              (24 + (Z.of_nat (length (payload e)) + 4))); [lia|].
  rewrite read_enough;
    [| reflexivity | reflexivity | lia
     | cbn [FileReader.tellg FileReader.bytes]; rewrite Hbytes, !length_app; lia].
  cbn [FileReader.tellg FileReader.bytes FileReader.is_open FileReader.file_
       FileReader.gcount FileReader.file_path_ FileReader.offset_
       FileReader.file_header_].
  rewrite Z.eqb_refl. cbn [negb].
  assert (Hrest : take (Z.to_nat (Z.of_nat (length (payload e)) + 4))
                    (drop (length pre + 24) (FileReader.bytes (FileReader.file_ r)))
                  = drop 24 (serialize e)).
  { rewrite Hbytes, <- drop_drop, drop_app_length.
    rewrite drop_app_le by lia. rewrite take_app_length'; [reflexivity|].
    rewrite length_drop. lia. }
  rewrite Hrest.
  replace (Z.to_nat (28 + Z.of_nat (length (payload e))) - 24
           - length (drop 24 (serialize e)))%nat with 0%nat
    by (rewrite length_drop; lia).
  cbn [replicate]. rewrite app_nil_r, take_drop.
  pose proof (parse_record_app e [] Hread) as Hparse. rewrite app_nil_r in Hparse.
  rewrite Hparse.
  replace (length pre + 24 + Z.to_nat (Z.of_nat (length (payload e)) + 4))%nat
    with (length pre + length (serialize e))%nat by lia.
  rewrite ?Hopen. reflexivity.
Qed.

(** The loop reads every complete record, in order. *)
Lemma file_drain_records (es : list Event) :
  forall (r : FileReader.t) (event : Event) (seen : list Event)
         (pre tail : list byte) (fuel : nat),
  FileReader.reading_at r (length pre) -> Forall readable es ->
  FileReader.bytes (FileReader.file_ r) = pre ++ concat (map serialize es) ++ tail ->
  0 <= FileReader.offset_ r ->
  FileReader.offset_ r + Z.of_nat (length (concat (map serialize es))) < 2 ^ 64 ->
  exists r' event',
    FileReader.drain (length es + fuel) r event seen
    = FileReader.drain fuel r' event' (seen ++ map parsed es)
    /\ FileReader.reading_at r' (length pre + length (concat (map serialize es)))
    /\ FileReader.bytes (FileReader.file_ r') = FileReader.bytes (FileReader.file_ r)
    /\ FileReader.offset_ r'
       = FileReader.offset_ r + Z.of_nat (length (concat (map serialize es))).
Proof.
  induction es as [|e es IH]; intros r event seen pre tail fuel Hat Hall Hbytes Hoff Hmax.
  - exists r, event. cbn [map concat length plus]. rewrite app_nil_r, Nat.add_0_r, Z.add_0_r.
    repeat split; try apply Hat.
  - apply Forall_cons in Hall. destruct Hall as [He Hall].
    cbn [map concat] in *. rewrite length_app in Hmax |- *.
    pose proof (length_serialize e) as HL.
    rewrite <- app_assoc in Hbytes.
    cbn [length plus FileReader.drain].
    rewrite (file_readNext_record r event e pre _ Hat He Hbytes).
    set (r1 := FileReader.mk _ _ _ _).
    destruct (IH r1 (parsed e) (seen ++ [parsed e]) (pre ++ serialize e) tail fuel)
      as (r' & event' & Hdrain & Hat' & Hb' & Hoff').
    + subst r1. unfold FileReader.reading_at.
      cbn [FileReader.file_ FileReader.is_open FileReader.eofbit FileReader.failbit
           FileReader.tellg].
      rewrite length_app. repeat split; reflexivity.
    + exact Hall.
    + subst r1. cbn [FileReader.file_ FileReader.bytes]. rewrite Hbytes, <- !app_assoc.
      reflexivity.
    + subst r1. cbn [FileReader.offset_]. rewrite wrap64_small; lia.
    + subst r1. cbn [FileReader.offset_]. rewrite wrap64_small; lia.
    + exists r', event'. rewrite Hdrain, <- app_assoc. cbn [app].
      split; [reflexivity|]. split.
      * rewrite length_app in Hat'. rewrite Nat.add_assoc. exact Hat'.
      * split; [rewrite Hb'; reflexivity|].
        rewrite Hoff'. subst r1. cbn [FileReader.offset_]. rewrite wrap64_small; lia.
Qed.

Lemma file_open_log (file header rest : list byte) (h : FileHeader) (path : string) :
  file = header ++ rest -> length header = 16%nat ->
  parseFileHeader header FileHeader_SIZE = Ok h ->
  FileReader.open (Some file) (FileReader.new path)
  = (FileReader.Returns tt,
     FileReader.mk path (FileReader.mkIfstream true file 16 false false 16) 16 h).
Proof.
  intros -> Hlen Hhdr. unfold FileReader.open, FileReader.new, FileReader.ifstream_open.
  cbn [FileReader.file_ FileReader.closed FileReader.is_open FileReader.failbit
       FileReader.file_path_ FileReader.offset_ FileReader.file_header_ FileReader.gcount].
  unfold FileHeader_SIZE in *.
  rewrite read_enough;
    [| reflexivity | reflexivity | lia
     | cbn [FileReader.tellg FileReader.bytes]; rewrite length_app; lia].
  cbn [FileReader.file_ FileReader.gcount FileReader.tellg FileReader.bytes
       FileReader.is_open FileReader.file_path_ FileReader.offset_
       FileReader.file_header_ Z.eqb Pos.eqb negb].
  change (Z.to_nat 16) with 16%nat. rewrite drop_0, <- Hlen, take_app_length, Hhdr.
  rewrite Hlen. reflexivity.
Qed.

(** X28: the two readers agree on a complete log.  On a file made of a valid
    16-byte header and the records of any readable events, shorter than 2^63
    bytes, [FileReader] and [EventLogReader] both open it and their read
    loops return the same events in the same order, ending at the same
    offset, the size of the file; the stream reader then reports EOF. *)
Theorem readers_agree_on_complete_log
    (header : list byte) (h : FileHeader) (es : list Event) (event : Event)
    (path : string) :
  length header = 16%nat -> parseFileHeader header FileHeader_SIZE = Ok h ->
  Forall readable es -> Z.of_nat (length (log_bytes header es)) < 2 ^ 63 ->
  let file := log_bytes header es in
  let '(opened, r) := FileReader.open (Some file) (FileReader.new path) in
  let '(mapped_opened, m) := EventLogReader.open (env_of_file file) fresh_reader in
  opened = FileReader.Returns tt /\ mapped_opened = Ok tt
  /\ exists r' event' m' mapped_event',
       FileReader.drain (S (length es)) r event []
       = Some (FileReader.Returns tt, map parsed es, r', event')
       /\ drain (S (length es)) m event [] = Some (Ok tt, map parsed es, m', mapped_event')
       /\ FileReader.offset r' = Z.of_nat (length file)
       /\ EventLogReader.offset m' = Z.of_nat (length file)
       /\ FileReader.eof r' = true.
Proof.
  intros Hlen Hhdr Hall Hmax file. subst file.
  rewrite (file_open_log (log_bytes header es) header (concat (map serialize es)) h path)
    by (reflexivity || assumption).
  rewrite (open_file (log_bytes header es) header (concat (map serialize es)) h)
    by (reflexivity || assumption).
  split; [reflexivity|]. split; [reflexivity|].
  assert (Hsz : Z.of_nat (length (log_bytes header es))
                = 16 + Z.of_nat (length (concat (map serialize es)))).
  { unfold log_bytes. rewrite length_app. lia. }
  set (r := FileReader.mk _ _ _ _). set (m := EventLogReader.mkReader _ _ _ _ _ _ _).
  destruct (file_drain_records es r event [] header [] 1) as (r' & event' & Hd & Hat & Hb & Ho).
  { subst r. unfold FileReader.reading_at. cbn. rewrite Hlen. repeat split. }
  { exact Hall. }
  { subst r. cbn [FileReader.file_ FileReader.bytes]. rewrite app_nil_r. reflexivity. }
  { subst r. cbn [FileReader.offset_]. lia. }
  { subst r. cbn [FileReader.offset_]. lia. }
  assert (Hwf : EventLogReader.well_formed m).
  { unfold EventLogReader.well_formed. subst m.
    cbn [EventLogReader.mapped_data_ EventLogReader.mapping_bytes
         EventLogReader.file_size_ EventLogReader.offset_]. lia. }
  destruct (drain_records es m event no_event [] header 0 Hwf eq_refl Hall)
    as (m' & mevent' & Hmd & Hmo & _).
  { cbn. lia. }
  { cbn. lia. }
  { subst m. cbn [EventLogReader.mapped_data_ EventLogReader.mapping_bytes take].
    rewrite app_nil_r. reflexivity. }
  { subst m. cbn [EventLogReader.offset_]. lia. }
  destruct Hat as (Hopen & Heof & Hfail & Hpos).
  assert (Hend : FileReader.tellg (FileReader.file_ r')
                 = length (FileReader.bytes (FileReader.file_ r'))).
  { rewrite Hpos, Hb. subst r. cbn [FileReader.file_ FileReader.bytes].
    unfold log_bytes. rewrite length_app. reflexivity. }
  assert (Hlast : FileReader.readNext r' event'
                  = (FileReader.Returns false,
                     FileReader.mk (FileReader.file_path_ r')
                       (FileReader.mkIfstream true (FileReader.bytes (FileReader.file_ r'))
                          (length (FileReader.bytes (FileReader.file_ r'))) true true 0)
                       (FileReader.offset_ r') (FileReader.file_header_ r'),
                     event')).
  { unfold FileReader.readNext. rewrite Hopen, Heof. cbn [negb].
    rewrite read_short by (assumption || lia).
    cbn [FileReader.file_ FileReader.gcount]. rewrite Hend, Z.sub_diag, Hopen.
    reflexivity. }
  eexists _, event', m', mevent'.
  split; [|split; [exact Hmd|split; [|split]]].
  - replace (S (length es)) with (length es + 1)%nat by lia. rewrite Hd.
    cbn [FileReader.drain]. rewrite Hlast. reflexivity.
  - unfold FileReader.offset. cbn [FileReader.offset_]. rewrite Ho. subst r.
    cbn [FileReader.offset_]. lia.
  - unfold EventLogReader.offset. rewrite Hmo. subst m. cbn [EventLogReader.offset_]. lia.
  - reflexivity.
Qed.

Lemma readers_agree_on_complete_log_witness :
  let es := [seq1_event; seq2_event; seq3_event] in
  let file := log_bytes header_only_file es in
  let '(opened, r) := FileReader.open (Some file) (FileReader.new "events.log") in
  let '(mapped_opened, m) := EventLogReader.open (env_of_file file) fresh_reader in
  opened = FileReader.Returns tt /\ mapped_opened = Ok tt
  /\ exists r' event' m' mapped_event',
       FileReader.drain (S (length es)) r no_event []
       = Some (FileReader.Returns tt, map parsed es, r', event')
       /\ drain (S (length es)) m no_event [] = Some (Ok tt, map parsed es, m', mapped_event')
       /\ FileReader.offset r' = Z.of_nat (length file)
       /\ EventLogReader.offset m' = Z.of_nat (length file)
       /\ FileReader.eof r' = true.
Proof.
  apply (readers_agree_on_complete_log header_only_file
           {| magic := EXPECTED_MAGIC; version := EXPECTED_VERSION; reserved := 0 |}
           [seq1_event; seq2_event; seq3_event] no_event "events.log").
  - reflexivity.
  - vm_compute. reflexivity.
  - repeat constructor; cbn; lia.
  - vm_compute. reflexivity.
Defined.

(** X29: the two readers differ on a record cut short.  When the file ends in
    a proper, non-empty prefix of a record, both loops return the complete
    records before it, but [EventLogReader] then ends on a false [readNext]
    while [FileReader] throws: an incomplete header when fewer than 24 bytes
    of the record are there, an incomplete payload otherwise. *)
Theorem readers_differ_on_partial_record
    (header : list byte) (h : FileHeader) (es : list Event) (e_last event : Event)
    (k : nat) (path : string) :
  length header = 16%nat -> parseFileHeader header FileHeader_SIZE = Ok h ->
  Forall readable es -> Z.of_nat (length (payload e_last)) < 2 ^ 32 - 28 ->
  (0 < k < length (serialize e_last))%nat ->
  let file := log_bytes header es ++ take k (serialize e_last) in
  Z.of_nat (length file) < 2 ^ 63 ->
  exists r' event' m' mapped_event',
    FileReader.drain (S (length es))
      (snd (FileReader.open (Some file) (FileReader.new path))) event []
    = Some (FileReader.Throws
              (FileReader.ParseException_what
                 (if (k <? 24)%nat then "Incomplete event header"
                  else "Incomplete event payload")),
            map parsed es, r', event')
    /\ drain (S (length es))
         (snd (EventLogReader.open (env_of_file file) fresh_reader)) event []
       = Some (Ok tt, map parsed es, m', mapped_event').
Proof.
  intros Hlen Hhdr Hall Hpl Hk file Hmax. subst file.
  assert (Hfile : log_bytes header es ++ take k (serialize e_last)
                  = header ++ concat (map serialize es) ++ take k (serialize e_last)).
  { unfold log_bytes. rewrite <- app_assoc. reflexivity. }
  rewrite Hfile in *.
  set (file := header ++ concat (map serialize es) ++ take k (serialize e_last)) in *.
  rewrite (file_open_log file header _ h path eq_refl Hlen Hhdr).
  rewrite (open_file file header _ h fresh_reader eq_refl Hlen Hhdr).
  cbn [snd].
  assert (Hsz : Z.of_nat (length file)
                = 16 + Z.of_nat (length (concat (map serialize es))) + Z.of_nat k).
  { subst file. rewrite !length_app, length_take. lia. }
  set (r := FileReader.mk _ _ _ _). set (m := EventLogReader.mkReader _ _ _ _ _ _ _).
  destruct (file_drain_records es r event [] header (take k (serialize e_last)) 1)
    as (r' & event' & Hd & Hat & Hb & Ho).
  { subst r. unfold FileReader.reading_at. cbn. rewrite Hlen. repeat split. }
  { exact Hall. }
  { reflexivity. }
  { subst r. cbn [FileReader.offset_]. lia. }
  { subst r. cbn [FileReader.offset_]. lia. }
  assert (Hwf : EventLogReader.well_formed m).
  { unfold EventLogReader.well_formed. subst m.
    cbn [EventLogReader.mapped_data_ EventLogReader.mapping_bytes
         EventLogReader.file_size_ EventLogReader.offset_]. lia. }
  destruct (drain_records es m event e_last [] header k Hwf eq_refl Hall Hpl)
    as (m' & mevent' & Hmd & _).
  { lia. }
  { reflexivity. }
  { subst m. cbn [EventLogReader.offset_]. lia. }
  destruct Hat as (Hopen & Heof & Hfail & Hpos).
  assert (Hbytes : FileReader.bytes (FileReader.file_ r')
                   = (header ++ concat (map serialize es)) ++ take k (serialize e_last)).
  { rewrite Hb. subst r file. cbn [FileReader.file_ FileReader.bytes].
    rewrite <- app_assoc. reflexivity. }
  assert (Hpos' : FileReader.tellg (FileReader.file_ r')
                  = length (header ++ concat (map serialize es))).
  { rewrite Hpos, length_app. reflexivity. }
  pose proof (length_serialize e_last) as HL.
  pose proof (createTestEvent_length_field (sequence_num e_last) (timestamp_ns e_last)
                (event_type e_last) (payload e_last)) as Hf. fold (serialize e_last) in Hf.
  rewrite wrap32_small in Hf by lia.
  rewrite Nat.add_1_r in Hd. rewrite Hd.
  cbn [FileReader.drain app].
  assert (Hflen : length (FileReader.bytes (FileReader.file_ r'))
                  = (FileReader.tellg (FileReader.file_ r') + k)%nat).
  { rewrite Hbytes, Hpos', length_app, length_take. lia. }
  unfold FileReader.readNext. rewrite Hopen, Heof. cbn [negb].
  destruct (Nat.ltb_spec k 24) as [Hshort | Hlong].
  - rewrite read_short by (assumption || lia).
    cbn [FileReader.file_ FileReader.gcount].
    destruct (Z.eqb_spec (Z.of_nat (length (FileReader.bytes (FileReader.file_ r')))
                          - Z.of_nat (FileReader.tellg (FileReader.file_ r'))) 0); [lia|].
    destruct (Z.eqb_spec (Z.of_nat (length (FileReader.bytes (FileReader.file_ r')))
                          - Z.of_nat (FileReader.tellg (FileReader.file_ r'))) 24); [lia|].
    cbn [negb]. eexists _, _, m', mevent'. split; [reflexivity | exact Hmd].
  - rewrite read_enough by (assumption || lia).
    cbn [FileReader.file_ FileReader.gcount FileReader.file_path_ FileReader.offset_
         FileReader.file_header_ Z.eqb negb].
    change (Z.to_nat 24) with 24%nat.
    rewrite Hpos', Hbytes, drop_app_length. rewrite <- Hbytes, <- Hpos'.
    rewrite take_take, Nat.min_l by lia.
    rewrite readUint32LE_drop_take, Hf by lia.
    rewrite (wrap32_small (Z.of_nat (length (payload e_last)) + 4)) by lia.
    rewrite (wrap32_small (28 + Z.of_nat (length (payload e_last)))) by lia.
    destruct (Z.ltb_spec (28 + Z.of_nat (length (payload e_last)))
                (24 + (Z.of_nat (length (payload e_last)) + 4))); [lia|].
    rewrite read_short;
      [| reflexivity | reflexivity
       | cbn [FileReader.tellg FileReader.bytes]; lia
       | cbn [FileReader.tellg FileReader.bytes]; lia].
    cbn [FileReader.file_ FileReader.gcount FileReader.tellg FileReader.bytes].
    destruct (Z.eqb_spec (Z.of_nat (length (FileReader.bytes (FileReader.file_ r')))
                          - Z.of_nat (FileReader.tellg (FileReader.file_ r') + 24))
                (Z.of_nat (length (payload e_last)) + 4)); [lia|].
    cbn [negb]. eexists _, _, m', mevent'. split; [reflexivity | exact Hmd].
Qed.

Lemma readers_differ_on_partial_record_witness :
  let file := log_bytes header_only_file [seq1_event] ++ take 30 (serialize seq2_event) in
  exists r' event' m' mapped_event',
    FileReader.drain 2
      (snd (FileReader.open (Some file) (FileReader.new "events.log"))) no_event []
    = Some (FileReader.Throws (FileReader.ParseException_what "Incomplete event payload"),
            map parsed [seq1_event], r', event')
    /\ drain 2 (snd (EventLogReader.open (env_of_file file) fresh_reader)) no_event []
       = Some (Ok tt, map parsed [seq1_event], m', mapped_event').
Proof.
  apply (readers_differ_on_partial_record header_only_file
           {| magic := EXPECTED_MAGIC; version := EXPECTED_VERSION; reserved := 0 |}
           [seq1_event] seq2_event no_event 30 "events.log").
  - reflexivity.
  - vm_compute. reflexivity.
  - repeat constructor; cbn; lia.
  - cbn. lia.
  - vm_compute. lia.
  - vm_compute. reflexivity.
Defined.

(** X30: a length field near 2^32.  With a complete 24-byte header under the
    read position whose length field is between 2^32 - 28 and 2^32 - 5, the
    32-bit sum [28 + payload_length] wraps to less than 24, [full_record] is
    allocated with that size, and [readNext] writes past its end.  For the
    four values above, the buffer is just large enough and the parser refuses
    the record as too short. *)
Theorem file_readNext_length_field_wrap
    (r : FileReader.t) (event : Event) (pre header rest : list byte) :
  FileReader.reading_at r (length pre) ->
  FileReader.bytes (FileReader.file_ r) = pre ++ header ++ rest ->
  length header = 24%nat ->
  let payload_length := readUint32LE (drop 20 header) in
  (2 ^ 32 - 28 <= payload_length < 2 ^ 32 - 4 ->
   fst (fst (FileReader.readNext r event)) = FileReader.Undefined)
  /\ (2 ^ 32 - 4 <= payload_length ->
      payload_length - (2 ^ 32 - 4) <= Z.of_nat (length rest) ->
      fst (fst (FileReader.readNext r event))
      = FileReader.Throws (FileReader.thrown (ParseException InsufficientRecordData))).
Proof.
  intros (Hopen & Heof & Hfail & Hpos) Hbytes Hlen payload_length.
  pose proof (readUint32LE_range (drop 20 header)) as Hrange.
  fold payload_length in Hrange.
  assert (Hhead : FileReader.read 24 (FileReader.file_ r)
                  = (header,
                     FileReader.mkIfstream true (FileReader.bytes (FileReader.file_ r))
                       (length pre + 24) false false 24)).
  { rewrite read_enough;
      [| assumption | assumption | lia | rewrite Hpos, Hbytes, !length_app; lia].
    rewrite Hpos, Hbytes, drop_app_length, Hopen. change (Z.to_nat 24) with 24%nat.
    rewrite <- Hlen, take_app_length. reflexivity. }
  split.
  - intros Hpl. unfold FileReader.readNext. rewrite Hopen, Heof, Hhead.
    cbn [negb FileReader.file_ FileReader.gcount Z.eqb]. fold payload_length.
    unfold wrap32.
    replace ((payload_length + 4) mod 2 ^ 32) with (payload_length + 4)
      by (symmetry; apply Z.mod_small; lia).
    replace ((28 + payload_length) mod 2 ^ 32) with (28 + payload_length - 2 ^ 32)
      by (apply Z.mod_unique with (q := 1); lia).
    destruct (Z.ltb_spec (28 + payload_length - 2 ^ 32) (24 + (payload_length + 4)));
      [reflexivity | lia].
  - intros Hpl Hrest. unfold FileReader.readNext. rewrite Hopen, Heof, Hhead.
    cbn [negb FileReader.file_ FileReader.gcount Z.eqb]. fold payload_length.
    unfold wrap32.
    replace ((payload_length + 4) mod 2 ^ 32) with (payload_length + 4 - 2 ^ 32)
      by (apply Z.mod_unique with (q := 1); lia).
    replace ((28 + payload_length) mod 2 ^ 32) with (28 + payload_length - 2 ^ 32)
      by (apply Z.mod_unique with (q := 1); lia).
    destruct (Z.ltb_spec (28 + payload_length - 2 ^ 32)
                (24 + (payload_length + 4 - 2 ^ 32))); [lia|].
    rewrite read_enough;
      [| reflexivity | reflexivity | lia
       | cbn [FileReader.tellg FileReader.bytes]; rewrite Hbytes, !length_app; lia].
    cbn [FileReader.file_ FileReader.gcount]. rewrite Z.eqb_refl. cbn [negb].
    unfold parse.
    destruct (Z.ltb_spec (28 + payload_length - 2 ^ 32) 28); [reflexivity | lia].
Qed.

Lemma file_readNext_length_field_wrap_witness :
  fst (fst (FileReader.readNext
              (FileReader.mk "events.log"
                 (FileReader.mkIfstream true
                    (header_only_file
                     ++ header_bytes 1 1000 TRADE_CREATED (2 ^ 32 - 28)) 16
                    false false 16)
                 16 {| magic := EXPECTED_MAGIC; version := EXPECTED_VERSION;
                       reserved := 0 |})
              no_event))
  = FileReader.Undefined.
Proof.
  refine (proj1 (file_readNext_length_field_wrap _ no_event header_only_file
                   (header_bytes 1 1000 TRADE_CREATED (2 ^ 32 - 28)) [] _ _ _) _).
  - repeat split.
  - cbn [FileReader.file_ FileReader.bytes]. rewrite app_nil_r. reflexivity.
  - reflexivity.
  - vm_compute. split; [intros Hc; discriminate Hc | reflexivity].
Defined.

End FileReaderFacts.
